(** * ORB-SLAM3 keyframe graph and manifold helpers: a shallow embedding

    The first part embeds the connectivity operations of [KeyFrame]
    (KeyFrame.cc): covisibility weights, the cached ordering, the spanning
    tree, deferred deletion and the save/restore pair.  Objects live in a
    heap addressed by pointers; a pointer is a natural number and [NULL] is
    address 0, as in the C++ code.  Every dereference is checked, so that a
    run which would dereference a null or dangling pointer, throw, or
    invalidate an iterator is reported as a [Fault] instead of a result.

    The second part embeds the numeric helpers of G2oTypes.cc and the
    reprojection helpers of KeyFrame.cc over IEEE-754 binary floating point
    ([SpecFloat]). *)

From stdpp Require Import gmap sorting list.
From Stdlib Require Import ZArith Lia.

Local Open Scope Z_scope.

(** ** Pointers and the object heap *)

(** [KeyFrame*], [MapPoint*], [Map*], [GeometricCamera*] and
    [KeyFrameDatabase*] are addresses, of type [nat]. *)

Definition NULL : nat := 0%nat.

(** State guarded by [mMutexConnections]. *)
Record Connections := mkConnections {
  mConnectedKeyFrameWeights : gmap nat Z;
  mvpOrderedConnectedKeyFrames : list nat;
  mvOrderedWeights : list Z;
  mbFirstConnection : bool;
  mpParent : nat;
  mspChildrens : gset nat;
  mspLoopEdges : gset nat;
  mspMergeEdges : gset nat;
  mbNotErase : bool;
  mbToBeErased : bool;
  mbBad : bool
}.

(** The id-indexed form written by [PreSave] and consumed by [PostLoad]. *)
Record Backup := mkBackup {
  mvBackupMapPointsId : list Z;
  mBackupConnectedKeyFrameIdWeights : gmap Z Z;
  mBackupParentId : Z;
  mvBackupChildrensId : list Z;
  mvBackupLoopEdgesId : list Z;
  mvBackupMergeEdgesId : list Z;
  mnBackupIdCamera : Z;
  mnBackupIdCamera2 : Z;
  mBackupPrevKFId : Z;
  mBackupNextKFId : Z
}.

Record KeyFrame := mkKeyFrame {
  mnId : Z;
  N : Z;
  mpMap : nat;
  mpKeyFrameDB : nat;
  mvpMapPoints : list nat;
  mpCamera : nat;
  mpCamera2 : nat;
  mPrevKF : nat;
  mNextKF : nat;
  conn : Connections;
  backup : Backup
}.

(** What the keyframe code reads of a landmark: its bad flag, its id and
    its observation table (keyframe, (left index, right index)). *)
Record MapPoint := mkMapPoint {
  mp_mnId : Z;
  mp_mbBad : bool;
  mObservations : gmap nat (Z * Z)
}.

(** What the keyframe code reads of its owning map. *)
Record Map := mkMap {
  mnInitKFid : Z
}.

(** The calls that tell a collaborator (a landmark, the map, the keyframe
    database: classes whose code is outside KeyFrame.cc) to change are
    recorded in the order they are made.  The getters that KeyFrame.cc calls
    on them ([Map::GetInitKFid], [MapPoint::isBad],
    [MapPoint::GetObservations], the camera ids) are reads of the fields
    kept in [Map], [MapPoint] and [cameras]; they leave no entry. *)
Inductive Event :=
| EvEraseObservation (pMP : nat) (pKF : nat)
| EvMapEraseKeyFrame (pMap : nat) (pKF : nat)
| EvDatabaseErase (pDB : nat) (pKF : nat).

Record World := mkWorld {
  keyframes : gmap nat KeyFrame;
  mappoints : gmap nat MapPoint;
  maps : gmap nat Map;
  cameras : gmap nat Z;
  events : list Event
}.

(** ** Field updates *)

Definition set_weights (m : gmap nat Z) (c : Connections) : Connections :=
  mkConnections m (mvpOrderedConnectedKeyFrames c) (mvOrderedWeights c)
    (mbFirstConnection c) (mpParent c) (mspChildrens c) (mspLoopEdges c)
    (mspMergeEdges c) (mbNotErase c) (mbToBeErased c) (mbBad c).

Definition set_orderedKFs (l : list nat) (c : Connections) : Connections :=
  mkConnections (mConnectedKeyFrameWeights c) l (mvOrderedWeights c)
    (mbFirstConnection c) (mpParent c) (mspChildrens c) (mspLoopEdges c)
    (mspMergeEdges c) (mbNotErase c) (mbToBeErased c) (mbBad c).

Definition set_orderedWeights (l : list Z) (c : Connections) : Connections :=
  mkConnections (mConnectedKeyFrameWeights c) (mvpOrderedConnectedKeyFrames c) l
    (mbFirstConnection c) (mpParent c) (mspChildrens c) (mspLoopEdges c)
    (mspMergeEdges c) (mbNotErase c) (mbToBeErased c) (mbBad c).

Definition set_firstConnection (b : bool) (c : Connections) : Connections :=
  mkConnections (mConnectedKeyFrameWeights c) (mvpOrderedConnectedKeyFrames c)
    (mvOrderedWeights c) b (mpParent c) (mspChildrens c) (mspLoopEdges c)
    (mspMergeEdges c) (mbNotErase c) (mbToBeErased c) (mbBad c).

Definition set_parent (p : nat) (c : Connections) : Connections :=
  mkConnections (mConnectedKeyFrameWeights c) (mvpOrderedConnectedKeyFrames c)
    (mvOrderedWeights c) (mbFirstConnection c) p (mspChildrens c) (mspLoopEdges c)
    (mspMergeEdges c) (mbNotErase c) (mbToBeErased c) (mbBad c).

Definition set_childrens (s : gset nat) (c : Connections) : Connections :=
  mkConnections (mConnectedKeyFrameWeights c) (mvpOrderedConnectedKeyFrames c)
    (mvOrderedWeights c) (mbFirstConnection c) (mpParent c) s (mspLoopEdges c)
    (mspMergeEdges c) (mbNotErase c) (mbToBeErased c) (mbBad c).

Definition set_loopEdges (s : gset nat) (c : Connections) : Connections :=
  mkConnections (mConnectedKeyFrameWeights c) (mvpOrderedConnectedKeyFrames c)
    (mvOrderedWeights c) (mbFirstConnection c) (mpParent c) (mspChildrens c) s
    (mspMergeEdges c) (mbNotErase c) (mbToBeErased c) (mbBad c).

Definition set_mergeEdges (s : gset nat) (c : Connections) : Connections :=
  mkConnections (mConnectedKeyFrameWeights c) (mvpOrderedConnectedKeyFrames c)
    (mvOrderedWeights c) (mbFirstConnection c) (mpParent c) (mspChildrens c)
    (mspLoopEdges c) s (mbNotErase c) (mbToBeErased c) (mbBad c).

Definition set_notErase (b : bool) (c : Connections) : Connections :=
  mkConnections (mConnectedKeyFrameWeights c) (mvpOrderedConnectedKeyFrames c)
    (mvOrderedWeights c) (mbFirstConnection c) (mpParent c) (mspChildrens c)
    (mspLoopEdges c) (mspMergeEdges c) b (mbToBeErased c) (mbBad c).

Definition set_toBeErased (b : bool) (c : Connections) : Connections :=
  mkConnections (mConnectedKeyFrameWeights c) (mvpOrderedConnectedKeyFrames c)
    (mvOrderedWeights c) (mbFirstConnection c) (mpParent c) (mspChildrens c)
    (mspLoopEdges c) (mspMergeEdges c) (mbNotErase c) b (mbBad c).

Definition set_bad (b : bool) (c : Connections) : Connections :=
  mkConnections (mConnectedKeyFrameWeights c) (mvpOrderedConnectedKeyFrames c)
    (mvOrderedWeights c) (mbFirstConnection c) (mpParent c) (mspChildrens c)
    (mspLoopEdges c) (mspMergeEdges c) (mbNotErase c) (mbToBeErased c) b.

Definition with_conn (f : Connections → Connections) (kf : KeyFrame) : KeyFrame :=
  mkKeyFrame (mnId kf) (N kf) (mpMap kf) (mpKeyFrameDB kf) (mvpMapPoints kf)
    (mpCamera kf) (mpCamera2 kf) (mPrevKF kf) (mNextKF kf) (f (conn kf)) (backup kf).

Definition set_mapPoints (l : list nat) (kf : KeyFrame) : KeyFrame :=
  mkKeyFrame (mnId kf) (N kf) (mpMap kf) (mpKeyFrameDB kf) l
    (mpCamera kf) (mpCamera2 kf) (mPrevKF kf) (mNextKF kf) (conn kf) (backup kf).

Definition set_map (m : nat) (kf : KeyFrame) : KeyFrame :=
  mkKeyFrame (mnId kf) (N kf) m (mpKeyFrameDB kf) (mvpMapPoints kf)
    (mpCamera kf) (mpCamera2 kf) (mPrevKF kf) (mNextKF kf) (conn kf) (backup kf).

Definition set_backup (b : Backup) (kf : KeyFrame) : KeyFrame :=
  mkKeyFrame (mnId kf) (N kf) (mpMap kf) (mpKeyFrameDB kf) (mvpMapPoints kf)
    (mpCamera kf) (mpCamera2 kf) (mPrevKF kf) (mNextKF kf) (conn kf) b.

Definition set_keyframes (h : gmap nat KeyFrame) (w : World) : World :=
  mkWorld h (mappoints w) (maps w) (cameras w) (events w).

Definition add_event (e : Event) (w : World) : World :=
  mkWorld (keyframes w) (mappoints w) (maps w) (cameras w) (events w ++ [e]).

(** ** Runs that may fault *)

Inductive Fault :=
| NullDeref            (* a member is called through a null pointer *)
| DanglingDeref        (* the pointer names no object *)
| InvalidArgument      (* std::invalid_argument thrown by ChangeParent *)
| InvalidatedIterator  (* a container is erased from while iterated *)
| OutOfBounds          (* vector index or iterator past the end *)
| OutOfFuel.

Inductive Res (A : Type) :=
| Ok (a : A)
| Err (f : Fault).
Arguments Ok {A} a.
Arguments Err {A} f.

Definition Op (A : Type) : Type := World → Res (A * World).

#[global] Instance Op_ret : MRet Op := λ A a w, Ok (a, w).
#[global] Instance Op_bind : MBind Op := λ A B k m w,
  match m w with
  | Ok (a, w') => k a w'
  | Err f => Err f
  end.

Definition fail {A} (f : Fault) : Op A := λ _, Err f.
Definition get_world : Op World := λ w, Ok (w, w).
Definition put_world (w : World) : Op unit := λ _, Ok (tt, w).
Definition emit (e : Event) : Op unit := λ w, Ok (tt, add_event e w).

(** [for (x : l) body] *)
Fixpoint for_each {A} (l : list A) (body : A → Op unit) : Op unit :=
  match l with
  | [] => mret tt
  | x :: l' => body x ;; for_each l' body
  end.

(** A loop that threads a local variable [acc] through its iterations. *)
Fixpoint fold_each {A S} (l : list A) (body : S → A → Op S) (acc : S) : Op S :=
  match l with
  | [] => mret acc
  | x :: l' => acc' ← body acc x; fold_each l' body acc'
  end.

(** Dereferencing. *)
Definition kf_get (p : nat) : Op KeyFrame := λ w,
  if decide (p = NULL) then Err NullDeref
  else match keyframes w !! p with
       | Some kf => Ok (kf, w)
       | None => Err DanglingDeref
       end.

Definition kf_put (p : nat) (kf : KeyFrame) : Op unit := λ w,
  Ok (tt, set_keyframes (<[p := kf]> (keyframes w)) w).

Definition kf_modify (p : nat) (f : Connections → Connections) : Op unit :=
  kf ← kf_get p; kf_put p (with_conn f kf).

Definition mp_get (p : nat) : Op MapPoint := λ w,
  if decide (p = NULL) then Err NullDeref
  else match mappoints w !! p with
       | Some mp => Ok (mp, w)
       | None => Err DanglingDeref
       end.

Definition map_get (p : nat) : Op Map := λ w,
  if decide (p = NULL) then Err NullDeref
  else match maps w !! p with
       | Some m => Ok (m, w)
       | None => Err DanglingDeref
       end.

Definition cam_get (p : nat) : Op Z := λ w,
  if decide (p = NULL) then Err NullDeref
  else match cameras w !! p with
       | Some i => Ok (i, w)
       | None => Err DanglingDeref
       end.

(** ** Iteration order of the standard containers

    [std::map<KeyFrame*,int>] and [std::set<KeyFrame*>] iterate in
    ascending key order; [std::sort] on [std::pair<int,KeyFrame*>] orders
    lexicographically by weight, then by pointer. *)

Definition key_le {V} (a b : nat * V) : Prop := (a.1 ≤ b.1)%nat.
#[global] Instance key_le_dec {V} (a b : nat * V) : Decision (key_le a b).
Proof. unfold key_le. apply _. Defined.

Definition map_items {V} (m : gmap nat V) : list (nat * V) :=
  merge_sort key_le (map_to_list m).

Definition set_items (s : gset nat) : list nat :=
  merge_sort (λ a b, (a ≤ b)%nat) (elements s).

Definition pair_le (a b : Z * nat) : Prop :=
  a.1 < b.1 ∨ (a.1 = b.1 ∧ (a.2 ≤ b.2)%nat).
#[global] Instance pair_le_dec (a b : Z * nat) : Decision (pair_le a b).
Proof. unfold pair_le. apply _. Defined.

Definition std_sort (v : list (Z * nat)) : list (Z * nat) :=
  merge_sort pair_le v.

(** ** Covisibility *)

Definition isBad (this : nat) : Op bool :=
  kf ← kf_get this; mret (mbBad (conn kf)).

(** [lKFs.push_front] / [lWs.push_front] for every pair whose keyframe is
    not bad, in the order of the sorted vector.

    Mutexes are not modelled: every operation runs alone, to its end.  In
    one place this shows in a single thread: [UpdateBestCovisibles] holds
    [mMutexConnections] of its keyframe while it calls [isBad] on every key
    of the weight map, and [isBad] locks [mMutexConnections] of the keyframe
    it is called on.  For a keyframe that is among the keys of its own
    weight map the C++ call locks a mutex that it already holds and does
    not return, where the run below goes on.  Statements that a rebuild
    completes exclude this case. *)
Definition push_live (acc : list nat * list Z) (pr : Z * nat)
  : Op (list nat * list Z) :=
  b ← isBad pr.2;
  mret (if b : bool then acc else (pr.2 :: acc.1, pr.1 :: acc.2)).

Definition UpdateBestCovisibles (this : nat) : Op unit :=
  kf ← kf_get this;
  let vPairs :=
    (λ it : nat * Z, (it.2, it.1)) <$> map_items (mConnectedKeyFrameWeights (conn kf)) in
  let vPairs := std_sort vPairs in
  ls ← fold_each vPairs push_live ([], []);
  kf_modify this (λ c, set_orderedWeights (snd ls) (set_orderedKFs (fst ls) c)).

Definition AddConnection (this pKF : nat) (weight : Z) : Op unit :=
  kf ← kf_get this;
  let m := mConnectedKeyFrameWeights (conn kf) in
  match m !! pKF with
  | None =>
      kf_modify this (set_weights (<[pKF := weight]> m)) ;;
      UpdateBestCovisibles this
  | Some w0 =>
      if decide (w0 ≠ weight) then
        kf_modify this (set_weights (<[pKF := weight]> m)) ;;
        UpdateBestCovisibles this
      else mret tt
  end.

Definition EraseConnection (this pKF : nat) : Op unit :=
  kf ← kf_get this;
  let m := mConnectedKeyFrameWeights (conn kf) in
  match m !! pKF with
  | Some _ =>
      kf_modify this (set_weights (delete pKF m)) ;;
      UpdateBestCovisibles this
  | None => mret tt
  end.

Definition GetWeight (this pKF : nat) : Op Z :=
  kf ← kf_get this;
  mret (default 0 (mConnectedKeyFrameWeights (conn kf) !! pKF)).

Definition GetVectorCovisibleKeyFrames (this : nat) : Op (list nat) :=
  kf ← kf_get this; mret (mvpOrderedConnectedKeyFrames (conn kf)).


(** Modelled from the spec: [KeyFrame::weightComp] is declared in KeyFrame.h,
    which is not among the sources.  It is the comparator of the "ordered
    covisible list (descending weight)": [a] goes before [b] when [a > b]. *)
Definition weightComp (a b : Z) : bool := bool_decide (a > b).

(** [std::upper_bound(first, last, val, comp)] as the standard library
    implements it: a bisection over the range [first, first + len). *)
Fixpoint upper_bound_loop (fuel : nat) (v : list Z) (comp : Z → Z → bool)
    (val : Z) (first len : nat) : nat :=
  match fuel with
  | O => first
  | S fuel' =>
      if decide (len = 0)%nat then first
      else
        let half := (len / 2)%nat in
        let middle := (first + half)%nat in
        if comp val (default 0 (v !! middle))
        then upper_bound_loop fuel' v comp val first half
        else upper_bound_loop fuel' v comp val (S middle) (len - half - 1)%nat
  end.

Definition upper_bound (v : list Z) (val : Z) (comp : Z → Z → bool) : nat :=
  upper_bound_loop (length v) v comp val 0%nat (length v).

Definition GetCovisiblesByWeight (this : nat) (w : Z) : Op (list nat) :=
  kf ← kf_get this;
  let vKFs := mvpOrderedConnectedKeyFrames (conn kf) in
  let vWs := mvOrderedWeights (conn kf) in
  if decide (vKFs = []) then mret []
  else
    let it := upper_bound vWs w weightComp in
    if decide (it = length vWs) then
      match last vWs with
      | None => fail OutOfBounds
      | Some back =>
          if decide (back < w) then mret []
          else if decide (it ≤ length vKFs)%nat then mret (take it vKFs)
          else fail OutOfBounds
      end
    else if decide (it ≤ length vKFs)%nat then mret (take it vKFs)
    else fail OutOfBounds.

(** ** Spanning tree and erase guards *)

Definition AddChild (this pKF : nat) : Op unit :=
  kf_modify this (λ c, set_childrens (mspChildrens c ∪ {[pKF]}) c).

Definition EraseChild (this pKF : nat) : Op unit :=
  kf_modify this (λ c, set_childrens (mspChildrens c ∖ {[pKF]}) c).

Definition ChangeParent (this pKF : nat) : Op unit :=
  _ ← kf_get this;
  if decide (pKF = this) then fail InvalidArgument
  else
    kf_modify this (set_parent pKF) ;;
    AddChild pKF this.

Definition GetChilds (this : nat) : Op (gset nat) :=
  kf ← kf_get this; mret (mspChildrens (conn kf)).

Definition GetParent (this : nat) : Op nat :=
  kf ← kf_get this; mret (mpParent (conn kf)).

Definition hasChild (this pKF : nat) : Op bool :=
  kf ← kf_get this; mret (bool_decide (pKF ∈ mspChildrens (conn kf))).

Definition SetFirstConnection (this : nat) (bFirst : bool) : Op unit :=
  kf_modify this (set_firstConnection bFirst).

Definition AddLoopEdge (this pKF : nat) : Op unit :=
  kf_modify this (λ c, set_loopEdges (mspLoopEdges c ∪ {[pKF]}) (set_notErase true c)).

Definition GetLoopEdges (this : nat) : Op (gset nat) :=
  kf ← kf_get this; mret (mspLoopEdges (conn kf)).

Definition AddMergeEdge (this pKF : nat) : Op unit :=
  kf_modify this (λ c, set_mergeEdges (mspMergeEdges c ∪ {[pKF]}) (set_notErase true c)).

Definition GetMergeEdges (this : nat) : Op (gset nat) :=
  kf ← kf_get this; mret (mspMergeEdges (conn kf)).

Definition SetNotErase (this : nat) : Op unit :=
  kf_modify this (set_notErase true).

Definition GetMap (this : nat) : Op nat :=
  kf ← kf_get this; mret (mpMap kf).

Definition UpdateMap (this pMap : nat) : Op unit :=
  kf ← kf_get this; kf_put this (set_map pMap kf).

Definition GetInitKFid (pMap : nat) : Op Z :=
  m ← map_get pMap; mret (mnInitKFid m).

(** ** Landmark slots *)

Definition AddMapPoint (this pMP : nat) (idx : nat) : Op unit :=
  kf ← kf_get this;
  if decide (idx < length (mvpMapPoints kf))%nat
  then kf_put this (set_mapPoints (<[idx := pMP]> (mvpMapPoints kf)) kf)
  else fail OutOfBounds.

Definition EraseMapPointMatch (this : nat) (idx : nat) : Op unit :=
  AddMapPoint this NULL idx.

Definition GetMapPointMatches (this : nat) : Op (list nat) :=
  kf ← kf_get this; mret (mvpMapPoints kf).

(** ** Culling *)

(** The locals [max], [pC], [pP] and [bContinue] of one pass of the
    reattachment loop. *)
Record Best := mkBest {
  best_max : Z;
  best_pC : nat;
  best_pP : nat;
  bContinue : bool
}.

Definition Best_init : Best := mkBest (-1) NULL NULL false.

(** Body of the innermost loop: one connected keyframe against one parent
    candidate. *)
Definition scan_candidate (pKF pConn : nat) (b : Best) (spc : nat) : Op Best :=
  kc ← kf_get pConn;
  ks ← kf_get spc;
  if decide (mnId kc = mnId ks) then
    w ← GetWeight pKF pConn;
    mret (if decide (w > best_max b) then mkBest w pKF pConn true else b)
  else mret b.

Definition scan_connected (pKF : nat) (cands : list nat) (b : Best) (pConn : nat)
  : Op Best :=
  fold_each cands (scan_candidate pKF pConn) b.

Definition scan_child (cands : list nat) (b : Best) (pKF : nat) : Op Best :=
  bad ← isBad pKF;
  if bad : bool then mret b
  else
    vpConnected ← GetVectorCovisibleKeyFrames pKF;
    fold_each vpConnected (scan_connected pKF cands) b.

Definition scan_children (this : nat) (cands : gset nat) : Op Best :=
  kf ← kf_get this;
  fold_each (set_items (mspChildrens (conn kf))) (scan_child (set_items cands)) Best_init.

(** [while(!mspChildrens.empty())]: every pass that does not leave the loop
    erases one element of [mspChildrens]. *)
Fixpoint reattach_loop (fuel : nat) (this : nat) (sParentCandidates : gset nat)
  : Op (gset nat) :=
  kf ← kf_get this;
  if decide (mspChildrens (conn kf) = ∅) then mret sParentCandidates
  else
    match fuel with
    | O => fail OutOfFuel
    | S fuel' =>
        b ← scan_children this sParentCandidates;
        if bContinue b then
          ChangeParent (best_pC b) (best_pP b) ;;
          kf_modify this (λ c, set_childrens (mspChildrens c ∖ {[best_pC b]}) c) ;;
          reattach_loop fuel' this (sParentCandidates ∪ {[best_pC b]})
        else mret sParentCandidates
    end.

(** The children that the loop left unassigned adopt [mpParent]. *)
Definition adopt_remaining (this : nat) : Op unit :=
  kf ← kf_get this;
  for_each (set_items (mspChildrens (conn kf)))
    (λ pKF, kf' ← kf_get this; ChangeParent pKF (mpParent (conn kf'))).

(** First phase of a deletion: the neighbours drop their edge, the
    landmarks are told, and the keyframe's own row is cleared. *)
Definition SetBadFlag_detach (this : nat) : Op unit :=
  kf ← kf_get this;
  for_each (map_items (mConnectedKeyFrameWeights (conn kf)))
    (λ it, if decide (it.1 = this) then fail InvalidatedIterator
           else EraseConnection it.1 this) ;;
  kf ← kf_get this;
  for_each (mvpMapPoints kf)
    (λ pMP, if decide (pMP = NULL) then mret tt
            else (_ ← mp_get pMP; emit (EvEraseObservation pMP this))) ;;
  kf_modify this (λ c, set_orderedKFs [] (set_weights ∅ c)).

(** Second phase: the spanning tree is repaired and the flag is set. *)
Definition SetBadFlag_reattach (this : nat) : Op unit :=
  kf ← kf_get this;
  let sParentCandidates : gset nat :=
    if decide (mpParent (conn kf) = NULL) then ∅ else {[mpParent (conn kf)]} in
  _ ← reattach_loop (size (mspChildrens (conn kf))) this sParentCandidates;
  adopt_remaining this ;;
  kf ← kf_get this;
  (if decide (mpParent (conn kf) = NULL) then mret tt
   else EraseChild (mpParent (conn kf)) this) ;;
  kf_modify this (set_bad true).

(** The part of [SetBadFlag] after the two guards: the deletion itself. *)
Definition SetBadFlag_delete (this : nat) : Op unit :=
  SetBadFlag_detach this ;;
  SetBadFlag_reattach this ;;
  kf ← kf_get this;
  _ ← map_get (mpMap kf);
  emit (EvMapEraseKeyFrame (mpMap kf) this) ;;
  (if decide (mpKeyFrameDB kf = NULL) then fail NullDeref
   else emit (EvDatabaseErase (mpKeyFrameDB kf) this)).

Definition SetBadFlag (this : nat) : Op unit :=
  kf ← kf_get this;
  init ← GetInitKFid (mpMap kf);
  if decide (mnId kf = init) then mret tt
  else if mbNotErase (conn kf) then kf_modify this (set_toBeErased true)
  else SetBadFlag_delete this.

Definition SetErase (this : nat) : Op unit :=
  kf ← kf_get this;
  (if decide (mspLoopEdges (conn kf) = ∅) then kf_modify this (set_notErase false)
   else mret tt) ;;
  kf ← kf_get this;
  if mbToBeErased (conn kf) then SetBadFlag this else mret tt.

(** ** UpdateConnections *)

(** Inner loop over the observations of one landmark. *)
Definition count_observation (kf : KeyFrame) (KFcounter : gmap nat Z)
    (it : nat * (Z * Z)) : Op (gmap nat Z) :=
  ko ← kf_get it.1;
  if decide (mnId ko = mnId kf) then mret KFcounter
  else if mbBad (conn ko) then mret KFcounter
  else if decide (mpMap ko ≠ mpMap kf) then mret KFcounter
  else mret (<[it.1 := default 0 (KFcounter !! it.1) + 1]> KFcounter).

(** Outer loop over the landmark slots. *)
Definition count_mappoint (kf : KeyFrame) (KFcounter : gmap nat Z) (pMP : nat)
  : Op (gmap nat Z) :=
  if decide (pMP = NULL) then mret KFcounter
  else
    mp ← mp_get pMP;
    if mp_mbBad mp then mret KFcounter
    else fold_each (map_items (mObservations mp)) (count_observation kf) KFcounter.

Definition count_covisible (this : nat) : Op (gmap nat Z) :=
  kf ← kf_get this;
  fold_each (mvpMapPoints kf) (count_mappoint kf) ∅.

Definition th : Z := 15.

(** The locals [nmax], [pKFmax] and [vPairs] of the promotion loop. *)
Record Promo := mkPromo {
  nmax : Z;
  pKFmax : nat;
  vPairs : list (Z * nat)
}.

Definition promote (this : nat) (a : Promo) (it : nat * Z) : Op Promo :=
  let a1 := if decide (it.2 > nmax a) then mkPromo it.2 it.1 (vPairs a) else a in
  if decide (it.2 >= th) then
    AddConnection it.1 this it.2 ;;
    mret (mkPromo (nmax a1) (pKFmax a1) (vPairs a1 ++ [(it.2, it.1)]))
  else mret a1.

(** The one-time rule at the end of [UpdateConnections]: the first
    connection update of a keyframe that is not the map's initial keyframe
    makes its best neighbour its parent. *)
Definition first_connection (this : nat) : Op unit :=
  kf ← kf_get this;
  if mbFirstConnection (conn kf) then
    init ← GetInitKFid (mpMap kf);
    if decide (mnId kf ≠ init) then
      match mvpOrderedConnectedKeyFrames (conn kf) with
      | [] => fail OutOfBounds
      | front :: _ =>
          kf_modify this (set_parent front) ;;
          AddChild front this ;;
          kf_modify this (set_firstConnection false)
      end
    else mret tt
  else mret tt.

Definition UpdateConnections (this : nat) (upParent : bool) : Op unit :=
  KFcounter ← count_covisible this;
  if decide (KFcounter = ∅) then mret tt
  else
    a ← fold_each (map_items KFcounter) (promote this) (mkPromo 0 NULL []);
    vPairs ←
      (if decide (vPairs a = []) then
         AddConnection (pKFmax a) this (nmax a) ;; mret [(nmax a, pKFmax a)]
       else mret (vPairs a));
    let sorted := std_sort vPairs in
    let lKFs := reverse (snd <$> sorted) in
    let lWs := reverse (fst <$> sorted) in
    kf_modify this (λ c,
      set_orderedWeights lWs (set_orderedKFs lKFs (set_weights KFcounter c))) ;;
    first_connection this.

(** ** Save and restore *)

Definition id_le {V} (a b : Z * V) : Prop := a.1 ≤ b.1.
#[global] Instance id_le_dec {V} (a b : Z * V) : Decision (id_le a b).
Proof. unfold id_le. apply _. Defined.

Definition idmap_items {V} (m : gmap Z V) : list (Z * V) :=
  merge_sort id_le (map_to_list m).

(** [push_back(pKFi->mnId)] for the members of [s] that are saved. *)
Definition backup_ids (s : gset nat) (spKF : gset nat) : Op (list Z) :=
  fold_each (set_items s)
    (λ acc pKFi, if decide (pKFi ∈ spKF)
                 then (k ← kf_get pKFi; mret (acc ++ [mnId k]))
                 else mret acc) [].

(** [-1] unless the pointer is non-null and saved. *)
Definition backup_id (p : nat) (spKF : gset nat) : Op Z :=
  if decide (p ≠ NULL ∧ p ∈ spKF) then (k ← kf_get p; mret (mnId k)) else mret (-1).

Definition backup_cam_id (p : nat) (spCam : gset nat) : Op Z :=
  if decide (p ≠ NULL ∧ p ∈ spCam) then cam_get p else mret (-1).

Definition backup_mappoint (kf : KeyFrame) (spMP : gset nat) (acc : list Z) (i : nat)
  : Op (list Z) :=
  match mvpMapPoints kf !! i with
  | None => fail OutOfBounds
  | Some pMP =>
      if decide (pMP ≠ NULL ∧ pMP ∈ spMP)
      then (mp ← mp_get pMP; mret (acc ++ [mp_mnId mp]))
      else mret (acc ++ [-1])
  end.

Definition backup_weight (spKF : gset nat) (acc : gmap Z Z) (it : nat * Z)
  : Op (gmap Z Z) :=
  if decide (it.1 ∈ spKF)
  then (k ← kf_get it.1; mret (<[mnId k := it.2]> acc))
  else mret acc.

Definition PreSave (this : nat) (spKF spMP spCam : gset nat) : Op unit :=
  kf ← kf_get this;
  let c := conn kf in
  mpids ← fold_each (seq 0 (Z.to_nat (N kf))) (backup_mappoint kf spMP) [];
  ws ← fold_each (map_items (mConnectedKeyFrameWeights c)) (backup_weight spKF) ∅;
  parent ← backup_id (mpParent c) spKF;
  childs ← backup_ids (mspChildrens c) spKF;
  loops ← backup_ids (mspLoopEdges c) spKF;
  merges ← backup_ids (mspMergeEdges c) spKF;
  cam ← backup_cam_id (mpCamera kf) spCam;
  cam2 ← backup_cam_id (mpCamera2 kf) spCam;
  prev ← backup_id (mPrevKF kf) spKF;
  next ← backup_id (mNextKF kf) spKF;
  kf_put this
    (set_backup (mkBackup mpids ws parent childs loops merges cam cam2 prev next) kf).

(** [dict[id]]: an absent id reads as the null pointer.  ([operator[]] also
    stores that null pointer in the caller's dictionary, so a second lookup
    of the id reads the same value; the dictionaries are not keyframe
    state.) *)
Definition dict_at (dict : gmap Z nat) (id : Z) : nat := default NULL (dict !! id).

Definition restore_mappoint (b : Backup) (mpMPid : gmap Z nat) (acc : list nat)
    (i : nat) : Op (list nat) :=
  match mvBackupMapPointsId b !! i with
  | None => fail OutOfBounds
  | Some id => mret (acc ++ [if decide (id ≠ -1) then dict_at mpMPid id else NULL])
  end.

Definition restore_weights (mpKFid : gmap Z nat) (bw : gmap Z Z) : gmap nat Z :=
  foldl (λ acc it, <[dict_at mpKFid it.1 := it.2]> acc) ∅ (idmap_items bw).

Definition restore_set (mpKFid : gmap Z nat) (ids : list Z) : gset nat :=
  foldl (λ acc id, acc ∪ {[dict_at mpKFid id]}) ∅ ids.

Definition PostLoad (this : nat) (mpKFid mpMPid mpCamId : gmap Z nat) : Op unit :=
  kf ← kf_get this;
  let b := backup kf in
  let c := conn kf in
  mps ← fold_each (seq 0 (Z.to_nat (N kf))) (restore_mappoint b mpMPid) [];
  let c' :=
    mkConnections
      (restore_weights mpKFid (mBackupConnectedKeyFrameIdWeights b))
      (mvpOrderedConnectedKeyFrames c) (mvOrderedWeights c) (mbFirstConnection c)
      (if decide (mBackupParentId b >= 0) then dict_at mpKFid (mBackupParentId b)
       else mpParent c)
      (restore_set mpKFid (mvBackupChildrensId b))
      (restore_set mpKFid (mvBackupLoopEdgesId b))
      (restore_set mpKFid (mvBackupMergeEdgesId b))
      (mbNotErase c) (mbToBeErased c) (mbBad c) in
  let b' :=
    mkBackup [] ∅ (mBackupParentId b) [] [] (mvBackupMergeEdgesId b)
      (mnBackupIdCamera b) (mnBackupIdCamera2 b) (mBackupPrevKFId b) (mBackupNextKFId b) in
  kf_put this
    (mkKeyFrame (mnId kf) (N kf) (mpMap kf) (mpKeyFrameDB kf) mps
       (if decide (mnBackupIdCamera b >= 0) then dict_at mpCamId (mnBackupIdCamera b)
        else mpCamera kf)
       (if decide (mnBackupIdCamera2 b >= 0) then dict_at mpCamId (mnBackupIdCamera2 b)
        else mpCamera2 kf)
       (if decide (mBackupPrevKFId b ≠ -1) then dict_at mpKFid (mBackupPrevKFId b)
        else mPrevKF kf)
       (if decide (mBackupNextKFId b ≠ -1) then dict_at mpKFid (mBackupNextKFId b)
        else mNextKF kf)
       c' b') ;;
  UpdateBestCovisibles this.

(** * Numeric helpers over IEEE-754 arithmetic

    [float] (binary32) and [double] (binary64) values are [spec_float]s;
    every C++ arithmetic operator is one correctly rounded operation
    (round to nearest, ties to even), and a comparison with a NaN operand
    is false. *)

From Stdlib Require Import Floats.SpecFloat.

(** Zero or a finite number: neither an infinity nor a NaN. *)
Definition is_finite (f : spec_float) : bool :=
  match f with
  | S754_zero _ | S754_finite _ _ _ => true
  | S754_infinity _ | S754_nan => false
  end.

(** Below zero: a finite number or an infinity with the sign bit set. *)
Definition is_negative (f : spec_float) : bool :=
  match f with
  | S754_finite true _ _ | S754_infinity true => true
  | _ => false
  end.

(** ** binary32 *)
Module F32.

Definition prec : Z := 24.
Definition emax : Z := 128.

Definition add := SFadd prec emax.
Definition sub := SFsub prec emax.
Definition mul := SFmul prec emax.
Definition div := SFdiv prec emax.
Definition lt (a b : spec_float) : bool := SFltb a b.
Definition gt (a b : spec_float) : bool := SFltb b a.

(** The float nearest to an integer (an [int] operand converted for an
    operation with a [float], or an integer literal). *)
Definition of_Z (n : Z) : spec_float := binary_normalize prec emax n 0 false.

Definition zero : spec_float := S754_zero false.
Definition one : spec_float := of_Z 1.
Definition two : spec_float := of_Z 2.

End F32.

(** ** binary64 *)
Module F64.

Definition prec : Z := 53.
Definition emax : Z := 1024.

Definition add := SFadd prec emax.
Definition sub := SFsub prec emax.
Definition mul := SFmul prec emax.
Definition div := SFdiv prec emax.
Definition sqrt := SFsqrt prec emax.
Definition opp := SFopp.
Definition lt (a b : spec_float) : bool := SFltb a b.
Definition gt (a b : spec_float) : bool := SFltb b a.
Definition ge (a b : spec_float) : bool := SFleb b a.

Definition of_Z (n : Z) : spec_float := binary_normalize prec emax n 0 false.

Definition zero : spec_float := S754_zero false.
Definition one : spec_float := of_Z 1.
Definition two : spec_float := of_Z 2.
(** The literal [0.5]. *)
Definition half : spec_float := div one two.
(** The literal [1e-5]: the double nearest to 1/100000. *)
Definition small : spec_float := div one (of_Z 100000).

End F64.

(** ** Reprojection helpers of KeyFrame.cc *)
Module Projection.

(** The calibration and pose that the helpers read.  The image bounds are
    held as the [float] values that the comparisons with [u] and [v] use
    (the members are declared in KeyFrame.h, which is not among the
    sources). *)
Record Camera := mkCamera {
  fx : spec_float; fy : spec_float; cx : spec_float; cy : spec_float;
  invfx : spec_float; invfy : spec_float;
  mnMinX : spec_float; mnMinY : spec_float;
  mnMaxX : spec_float; mnMaxY : spec_float;
  k1 : spec_float; k2 : spec_float; p1 : spec_float; p2 : spec_float;
  (** [mDistCoef.at<float>(4)] when [mDistCoef.total() == 5] *)
  k3 : option spec_float
}.

(** The reference arguments [kp], [u], [v] after the call, with the value
    returned. *)
Record Projected := mkProjected {
  ok : bool;
  kp : spec_float * spec_float;
  u : spec_float;
  v : spec_float
}.

(** [ProjectPointUnDistort] from the point [Pc] in camera coordinates on. *)
Definition ProjectPointUnDistort (cam : Camera)
    (Pc : spec_float * spec_float * spec_float)
    (kp0 : spec_float * spec_float) (u0 v0 : spec_float) : Projected :=
  let '(PcX, PcY, PcZ) := Pc in
  if F32.lt PcZ F32.zero then mkProjected false kp0 u0 v0
  else
    let invz := F32.div F32.one PcZ in
    let u := F32.add (F32.mul (F32.mul (fx cam) PcX) invz) (cx cam) in
    let v := F32.add (F32.mul (F32.mul (fy cam) PcY) invz) (cy cam) in
    if F32.lt u (mnMinX cam) || F32.gt u (mnMaxX cam) then mkProjected false kp0 u v
    else if F32.lt v (mnMinY cam) || F32.gt v (mnMaxY cam) then mkProjected false kp0 u v
    else mkProjected true (u, v) u v.

(** [ProjectPointDistort] from the point [Pc] in camera coordinates on. *)
Definition ProjectPointDistort (cam : Camera)
    (Pc : spec_float * spec_float * spec_float)
    (kp0 : spec_float * spec_float) (u0 v0 : spec_float) : Projected :=
  let '(PcX, PcY, PcZ) := Pc in
  if F32.lt PcZ F32.zero then mkProjected false kp0 u0 v0
  else
    let invz := F32.div F32.one PcZ in
    let u := F32.add (F32.mul (F32.mul (fx cam) PcX) invz) (cx cam) in
    let v := F32.add (F32.mul (F32.mul (fy cam) PcY) invz) (cy cam) in
    if F32.lt u (mnMinX cam) || F32.gt u (mnMaxX cam) then mkProjected false kp0 u v
    else if F32.lt v (mnMinY cam) || F32.gt v (mnMaxY cam) then mkProjected false kp0 u v
    else
      let x := F32.mul (F32.sub u (cx cam)) (invfx cam) in
      let y := F32.mul (F32.sub v (cy cam)) (invfy cam) in
      let r2 := F32.add (F32.mul x x) (F32.mul y y) in
      let k3 := default F32.zero (k3 cam) in
      let radial :=
        F32.add
          (F32.add (F32.add F32.one (F32.mul (k1 cam) r2))
                   (F32.mul (F32.mul (k2 cam) r2) r2))
          (F32.mul (F32.mul (F32.mul k3 r2) r2) r2) in
      let x_distort := F32.mul x radial in
      let y_distort := F32.mul y radial in
      let x_distort :=
        F32.add x_distort
          (F32.add (F32.mul (F32.mul (F32.mul F32.two (p1 cam)) x) y)
                   (F32.mul (p2 cam) (F32.add r2 (F32.mul (F32.mul F32.two x) x)))) in
      let y_distort :=
        F32.add y_distort
          (F32.add (F32.mul (p1 cam) (F32.add r2 (F32.mul (F32.mul F32.two y) y)))
                   (F32.mul (F32.mul (F32.mul F32.two (p2 cam)) x) y)) in
      let u_distort := F32.add (F32.mul x_distort (fx cam)) (cx cam) in
      let v_distort := F32.add (F32.mul y_distort (fy cam)) (cy cam) in
      mkProjected true (u_distort, v_distort) u_distort v_distort.

(** [IsInImage]. *)
Definition IsInImage (cam : Camera) (x y : spec_float) : bool :=
  SFleb (mnMinX cam) x && F32.lt x (mnMaxX cam) &&
  SFleb (mnMinY cam) y && F32.lt y (mnMaxY cam).

(** *** ComputeSceneMedianDepth *)

(** What a run of [ComputeSceneMedianDepth] ends in: the value returned,
    an index past the end of a vector, or an integer division by zero. *)
Inductive Outcome :=
| Value (d : spec_float)
| PastTheEnd
| DivisionByZero.

(** [a] does not come after [b] in the order of [operator<]. *)
Definition depth_le (a b : spec_float) : Prop := SFltb b a = false.
#[global] Instance depth_le_dec a b : Decision (depth_le a b).
Proof. unfold depth_le. apply _. Defined.

(** The loop over the first [n] slots from slot [i] on.  A slot is [None]
    for the null pointer and else holds the world position of its
    landmark; [Rcw2] is the third row of the rotation and [zcw] the third
    entry of the translation. *)
Fixpoint scene_depths (Rcw2 : spec_float * spec_float * spec_float) (zcw : spec_float)
    (slots : list (option (spec_float * spec_float * spec_float)))
    (i n : nat) (vDepths : list spec_float) : option (list spec_float) :=
  match n with
  | O => Some vDepths
  | S n' =>
      match slots !! i with
      | None => None
      | Some None => scene_depths Rcw2 zcw slots (S i) n' vDepths
      | Some (Some x3Dw) =>
          let '(r0, r1, r2) := Rcw2 in
          let '(x, y, z) := x3Dw in
          let dot := F32.add (F32.add (F32.mul r0 x) (F32.mul r1 y)) (F32.mul r2 z) in
          scene_depths Rcw2 zcw slots (S i) n' (vDepths ++ [F32.add dot zcw])
      end
  end.

(** [(vDepths.size()-1)/q] in [std::size_t] arithmetic, 64 bits wide. *)
Definition median_index (size : nat) (q : Z) : option Z :=
  let q' := q mod 2 ^ 64 in
  if decide (q' = 0) then None
  else Some (((Z.of_nat size - 1) mod 2 ^ 64) / q').

Definition ComputeSceneMedianDepth (N : Z)
    (slots : list (option (spec_float * spec_float * spec_float)))
    (Rcw2 : spec_float * spec_float * spec_float) (zcw : spec_float) (q : Z) : Outcome :=
  if decide (N = 0) then Value (F32.of_Z (-1))
  else
    match scene_depths Rcw2 zcw slots 0 (Z.to_nat N) [] with
    | None => PastTheEnd
    | Some vDepths =>
        let sorted := merge_sort depth_le vDepths in
        match median_index (length sorted) q with
        | None => DivisionByZero
        | Some idx =>
            match sorted !! Z.to_nat idx with
            | Some d => Value d
            | None => PastTheEnd
            end
        end
    end.

(** A 640 x 480 camera without distortion. *)
Definition vga : Camera :=
  mkCamera (F32.of_Z 500) (F32.of_Z 500) (F32.of_Z 320) (F32.of_Z 240)
    (F32.div F32.one (F32.of_Z 500)) (F32.div F32.one (F32.of_Z 500))
    F32.zero F32.zero (F32.of_Z 640) (F32.of_Z 480)
    F32.zero F32.zero F32.zero F32.zero None.

End Projection.

(** ** Rotation helpers and the pose vertex of G2oTypes.cc *)
Module G2o.

Record Vector3d := V3 { x : spec_float; y : spec_float; z : spec_float }.

Record Matrix3d := M3 {
  m00 : spec_float; m01 : spec_float; m02 : spec_float;
  m10 : spec_float; m11 : spec_float; m12 : spec_float;
  m20 : spec_float; m21 : spec_float; m22 : spec_float
}.

(** *** The Eigen expressions that the file uses

    Coefficient by coefficient; a sum of three terms is taken from left to
    right. *)
Definition sum3 (a b c : spec_float) : spec_float := F64.add (F64.add a b) c.

Definition dot3 (a0 a1 a2 b0 b1 b2 : spec_float) : spec_float :=
  sum3 (F64.mul a0 b0) (F64.mul a1 b1) (F64.mul a2 b2).

Definition vmap2 (f : spec_float → spec_float → spec_float) (a b : Vector3d) : Vector3d :=
  V3 (f (x a) (x b)) (f (y a) (y b)) (f (z a) (z b)).

Definition vmap (f : spec_float → spec_float) (a : Vector3d) : Vector3d :=
  V3 (f (x a)) (f (y a)) (f (z a)).

Definition mmap (f : spec_float → spec_float) (A : Matrix3d) : Matrix3d :=
  M3 (f (m00 A)) (f (m01 A)) (f (m02 A))
     (f (m10 A)) (f (m11 A)) (f (m12 A))
     (f (m20 A)) (f (m21 A)) (f (m22 A)).

Definition mmap2 (f : spec_float → spec_float → spec_float) (A B : Matrix3d) : Matrix3d :=
  M3 (f (m00 A) (m00 B)) (f (m01 A) (m01 B)) (f (m02 A) (m02 B))
     (f (m10 A) (m10 B)) (f (m11 A) (m11 B)) (f (m12 A) (m12 B))
     (f (m20 A) (m20 B)) (f (m21 A) (m21 B)) (f (m22 A) (m22 B)).

Definition vzero : Vector3d := V3 F64.zero F64.zero F64.zero.
Definition vadd : Vector3d → Vector3d → Vector3d := vmap2 F64.add.
Definition vsub : Vector3d → Vector3d → Vector3d := vmap2 F64.sub.
Definition vopp : Vector3d → Vector3d := vmap F64.opp.
Definition squaredNorm (a : Vector3d) : spec_float :=
  dot3 (x a) (y a) (z a) (x a) (y a) (z a).

Definition Identity : Matrix3d :=
  M3 F64.one F64.zero F64.zero
     F64.zero F64.one F64.zero
     F64.zero F64.zero F64.one.
Definition madd : Matrix3d → Matrix3d → Matrix3d := mmap2 F64.add.
Definition msub : Matrix3d → Matrix3d → Matrix3d := mmap2 F64.sub.
Definition mopp : Matrix3d → Matrix3d := mmap F64.opp.
(** [s * A] *)
Definition mscale (s : spec_float) : Matrix3d → Matrix3d := mmap (F64.mul s).
(** [A * s] *)
Definition mscale_r (A : Matrix3d) (s : spec_float) : Matrix3d := mmap (λ c, F64.mul c s) A.
(** [A / s] *)
Definition mdiv (A : Matrix3d) (s : spec_float) : Matrix3d := mmap (λ c, F64.div c s) A.

Definition transpose (A : Matrix3d) : Matrix3d :=
  M3 (m00 A) (m10 A) (m20 A)
     (m01 A) (m11 A) (m21 A)
     (m02 A) (m12 A) (m22 A).

Definition trace (A : Matrix3d) : spec_float := sum3 (m00 A) (m11 A) (m22 A).

Definition mmul (A B : Matrix3d) : Matrix3d :=
  M3 (dot3 (m00 A) (m01 A) (m02 A) (m00 B) (m10 B) (m20 B))
     (dot3 (m00 A) (m01 A) (m02 A) (m01 B) (m11 B) (m21 B))
     (dot3 (m00 A) (m01 A) (m02 A) (m02 B) (m12 B) (m22 B))
     (dot3 (m10 A) (m11 A) (m12 A) (m00 B) (m10 B) (m20 B))
     (dot3 (m10 A) (m11 A) (m12 A) (m01 B) (m11 B) (m21 B))
     (dot3 (m10 A) (m11 A) (m12 A) (m02 B) (m12 B) (m22 B))
     (dot3 (m20 A) (m21 A) (m22 A) (m00 B) (m10 B) (m20 B))
     (dot3 (m20 A) (m21 A) (m22 A) (m01 B) (m11 B) (m21 B))
     (dot3 (m20 A) (m21 A) (m22 A) (m02 B) (m12 B) (m22 B)).

Definition mvmul (A : Matrix3d) (b : Vector3d) : Vector3d :=
  V3 (dot3 (m00 A) (m01 A) (m02 A) (x b) (y b) (z b))
     (dot3 (m10 A) (m11 A) (m12 A) (x b) (y b) (z b))
     (dot3 (m20 A) (m21 A) (m22 A) (x b) (y b) (z b)).

(** *** Free functions *)

Definition skew (w : Vector3d) : Matrix3d :=
  M3 F64.zero          (F64.opp (z w))  (y w)
     (z w)             F64.zero         (F64.opp (x w))
     (F64.opp (y w))   (x w)            F64.zero.

Section Rotations.

(** [std::sin], [std::cos], [std::acos] of the C library, and the product
    [svd.matrixU() * svd.matrixV().transpose()] of Eigen's [JacobiSVD]. *)
Variables sin cos acos : spec_float → spec_float.
Variable JacobiSVD_UVt : Matrix3d → Matrix3d.

Definition normalizeRotation (R : Matrix3d) : Matrix3d := JacobiSVD_UVt R.

Definition expSO3 (w : Vector3d) : Matrix3d :=
  let theta_squared := squaredNorm w in
  let theta := F64.sqrt theta_squared in
  let W := skew w in
  if F64.lt theta F64.small then
    let R := madd (madd Identity W) (mmul (mscale F64.half W) W) in
    normalizeRotation R
  else
    let R :=
      madd (madd Identity (mdiv (mscale_r W (sin theta)) theta))
           (mdiv (mscale_r (mmul W W) (F64.sub F64.one (cos theta))) theta_squared) in
    normalizeRotation R.




Definition rightJacobianSO3 (w : Vector3d) : Matrix3d :=
  let theta_squared := squaredNorm w in
  let theta := F64.sqrt theta_squared in
  let W := skew w in
  if F64.lt theta F64.small then Identity
  else
    madd (msub Identity (mdiv (mscale_r W (F64.sub F64.one (cos theta))) theta_squared))
         (mdiv (mscale_r (mmul W W) (F64.sub theta (sin theta)))
               (F64.mul theta_squared theta)).

Definition inverseRightJacobianSO3 (w : Vector3d) : Matrix3d :=
  let theta_squared := squaredNorm w in
  let theta := F64.sqrt theta_squared in
  let W := skew w in
  if F64.lt theta F64.small then Identity
  else
    madd (madd Identity (mdiv W F64.two))
         (mscale_r (mmul W W)
            (F64.sub (F64.div F64.one theta_squared)
               (F64.div (F64.add F64.one (cos theta))
                        (F64.mul (F64.mul F64.two theta) (sin theta))))).

(** *** ImuCamPose *)

Record ImuCamPose := mkImuCamPose {
  twb : Vector3d;
  Rwb : Matrix3d;
  Rcw : list Matrix3d;
  tcw : list Vector3d;
  Rcb : list Matrix3d;
  tcb : list Vector3d;
  Rbc : list Matrix3d;
  tbc : list Vector3d;
  bf : spec_float;
  pCamera : list nat;
  Rwb0 : Matrix3d;
  DR : Matrix3d;
  its : Z
}.

Definition set_body (t : Vector3d) (R : Matrix3d) (n : Z) (p : ImuCamPose) : ImuCamPose :=
  mkImuCamPose t R (Rcw p) (tcw p) (Rcb p) (tcb p) (Rbc p) (tbc p) (bf p)
    (pCamera p) (Rwb0 p) (DR p) n.

Definition set_DR (D : Matrix3d) (p : ImuCamPose) : ImuCamPose :=
  mkImuCamPose (twb p) (Rwb p) (Rcw p) (tcw p) (Rcb p) (tcb p) (Rbc p) (tbc p) (bf p)
    (pCamera p) (Rwb0 p) D (its p).

Definition set_view (Rs : list Matrix3d) (ts : list Vector3d) (p : ImuCamPose) : ImuCamPose :=
  mkImuCamPose (twb p) (Rwb p) Rs ts (Rcb p) (tcb p) (Rbc p) (tbc p) (bf p)
    (pCamera p) (Rwb0 p) (DR p) (its p).

(** The fields that the loop over the cameras leaves alone. *)
Definition body (p : ImuCamPose) :=
  (twb p, Rwb p, Rcb p, tcb p, Rbc p, tbc p, bf p, pCamera p, Rwb0 p, DR p, its p).

(** One turn of the loop "Update camera poses"; an index past the end of
    one of the four vectors is [OutOfBounds]. *)
Definition update_camera (Rbw : Matrix3d) (tbw : Vector3d) (p : ImuCamPose) (i : nat)
    : Res ImuCamPose :=
  match Rcb p !! i, tcb p !! i, Rcw p !! i, tcw p !! i with
  | Some Rcb_i, Some tcb_i, Some _, Some _ =>
      Ok (set_view (<[i := mmul Rcb_i Rbw]> (Rcw p))
                   (<[i := vadd (mvmul Rcb_i tbw) tcb_i]> (tcw p)) p)
  | _, _, _, _ => Err OutOfBounds
  end.

Fixpoint update_cameras_loop (Rbw : Matrix3d) (tbw : Vector3d) (idx : list nat)
    (p : ImuCamPose) : Res ImuCamPose :=
  match idx with
  | [] => Ok p
  | i :: idx =>
      match update_camera Rbw tbw p i with
      | Ok p' => update_cameras_loop Rbw tbw idx p'
      | Err f => Err f
      end
  end.

Definition update_cameras (p : ImuCamPose) : Res ImuCamPose :=
  let Rbw := transpose (Rwb p) in
  let tbw := mvmul (mopp Rbw) (twb p) in
  update_cameras_loop Rbw tbw (seq 0 (length (pCamera p))) p.

(** [update] is [None] for the null pointer, else the six doubles read as
    [ur] and [ut]. *)
Definition Update (p : ImuCamPose) (update : option (Vector3d * Vector3d)) : Res ImuCamPose :=
  match update with
  | None => Ok p
  | Some (ur, ut) =>
      let twb' := vadd (twb p) (mvmul (Rwb p) ut) in
      let Rwb' := mmul (Rwb p) (expSO3 ur) in
      let its' := its p + 1 in
      let its' :=
        if bool_decide (its' >= 3) then
          (* the value of the call is not assigned *)
          let _ := normalizeRotation Rwb' in 0
        else its' in
      update_cameras (set_body twb' Rwb' its' p)
  end.

Definition zero_off_plane (D : Matrix3d) : Matrix3d :=
  M3 (m00 D) (m01 D) F64.zero
     (m10 D) (m11 D) F64.zero
     F64.zero F64.zero (m22 D).

Definition UpdateW (p : ImuCamPose) (update : option (Vector3d * Vector3d)) : Res ImuCamPose :=
  match update with
  | None => Ok p
  | Some (ur, ut) =>
      let DR' := mmul (expSO3 ur) (DR p) in
      let Rwb' := mmul DR' (Rwb0 p) in
      let twb' := vadd (twb p) ut in
      let its' := its p + 1 in
      let '(DR', its') :=
        if bool_decide (its' >= 5) then
          let DR' := zero_off_plane DR' in
          (* the value of the call is not assigned *)
          let _ := normalizeRotation DR' in (DR', 0)
        else (DR', its') in
      update_cameras (set_body twb' Rwb' its' (set_DR DR' p))
  end.

(** [SetParam]: the number of cameras is read from [Rbc] before the
    arguments are stored; [Rcb] and [tcb] are resized to it and filled from
    the new [Rbc] and [tbc]. *)
Definition SetParam_camera (_Rbc : list Matrix3d) (_tbc : list Vector3d) (i : nat)
    : option (Matrix3d * Vector3d) :=
  R ← _Rbc !! i;
  t ← _tbc !! i;
  Some (transpose R, mvmul (mopp (transpose R)) t).

Definition SetParam (p : ImuCamPose) (_Rcw : list Matrix3d) (_tcw : list Vector3d)
    (_Rbc : list Matrix3d) (_tbc : list Vector3d) (_bf : spec_float) : Res ImuCamPose :=
  let num_cams := length (Rbc p) in
  match mapM (SetParam_camera _Rbc _tbc) (seq 0 num_cams) with
  | None => Err OutOfBounds
  | Some cb =>
      match _Rcw !! 0%nat, _tcw !! 0%nat, cb !! 0%nat with
      | Some Rcw0, Some tcw0, Some (Rcb0, tcb0) =>
          Ok (mkImuCamPose
                (mvmul (transpose Rcw0) (vsub tcb0 tcw0))
                (mmul (transpose Rcw0) Rcb0)
                _Rcw _tcw cb.*1 cb.*2 _Rbc _tbc _bf
                (pCamera p) (Rwb0 p) (DR p) (its p))
      | _, _, _ => Err OutOfBounds
      end
  end.

Definition isDepthPositive (p : ImuCamPose) (pt : Vector3d) (cam_idx : nat) : Res bool :=
  match Rcw p !! cam_idx, tcw p !! cam_idx with
  | Some R, Some t =>
      let depth := F64.add (dot3 (m20 R) (m21 R) (m22 R) (x pt) (y pt) (z pt)) (z t) in
      Ok (F64.gt depth F64.zero)
  | _, _ => Err OutOfBounds
  end.

End Rotations.

(** A matrix close to the rotation by [2^-26] about the z axis whose
    diagonal has drifted above one: [1 + 2^-50] on the first two diagonal
    entries. *)
Definition tiny : spec_float := F64.div F64.one (F64.of_Z (2 ^ 26)).
Definition drifted : Matrix3d :=
  let d := F64.add F64.one (F64.div F64.one (F64.of_Z (2 ^ 50))) in
  M3 d               (F64.opp tiny)  F64.zero
     tiny            d               F64.zero
     F64.zero        F64.zero        F64.one.

(** A pose with one camera, everything at the identity. *)
Definition rest : ImuCamPose :=
  mkImuCamPose vzero Identity [Identity] [vzero] [Identity] [vzero] [Identity] [vzero]
    F64.zero [1%nat] Identity Identity 0.

(** The same pose before its third [Update], with the drifted rotation,
    and before its fifth [UpdateW]. *)
Definition third : ImuCamPose := set_body vzero drifted 2 rest.
Definition fifth : ImuCamPose := set_body vzero Identity 4 (set_DR drifted rest).

(** The pose [third] after its third [Update] by zero, and [fifth] after
    its fifth [UpdateW] by zero, with an SVD that is exact on the
    identity. *)
Definition third_after : ImuCamPose :=
  Eval vm_compute in
    match Update (λ a, a) (λ a, a) (λ R, R) third (Some (vzero, vzero)) with
    | Ok p => p
    | Err _ => third
    end.

Definition fifth_after : ImuCamPose :=
  Eval vm_compute in
    match UpdateW (λ a, a) (λ a, a) (λ R, R) fifth (Some (vzero, vzero)) with
    | Ok p => p
    | Err _ => fifth
    end.

(** [rest] after [SetParam] with a second camera. *)
Definition rest_two : ImuCamPose :=
  Eval vm_compute in
    match SetParam rest [Identity; Identity] [vzero; vzero]
            [Identity; Identity] [vzero; vzero] F64.one with
    | Ok p => p
    | Err _ => rest
    end.

End G2o.

(** * Predicates used in the statements *)

(** A valid pointer is non-null and names an object. *)
Definition valid (w : World) (p : nat) : Prop :=
  p ≠ NULL ∧ is_Some (keyframes w !! p).

(** Weights in non-increasing order. *)
Definition descending (l : list Z) : Prop := StronglySorted (flip Z.le) l.

(** A pointer to a keyframe that is not bad. *)
Definition is_live (w : World) (p : nat) : bool :=
  match keyframes w !! p with
  | Some kf => negb (mbBad (conn kf))
  | None => false
  end.

(** The pairs (weight, neighbour) that [UpdateBestCovisibles] caches for a
    weight map: the live neighbours, by descending weight. *)
Definition best_covisibles (w : World) (m : gmap nat Z) : list (Z * nat) :=
  reverse (filter (λ pr, is_live w pr.2)
             (std_sort ((λ it : nat * Z, (it.2, it.1)) <$> map_items m))).

Definition rebuild_ordering (w : World) (kf : KeyFrame) : KeyFrame :=
  let best := best_covisibles w (mConnectedKeyFrameWeights (conn kf)) in
  with_conn (λ c, set_orderedWeights best.*1 (set_orderedKFs best.*2 c)) kf.

(** The two cached vectors agree in length and the weights do not
    increase. *)
Definition ordering_ok (c : Connections) : Prop :=
  length (mvpOrderedConnectedKeyFrames c) = length (mvOrderedWeights c) ∧
  descending (mvOrderedWeights c).

Definition ordering_inv (w : World) : Prop :=
  map_Forall (λ _ kf, ordering_ok (conn kf)) (keyframes w).

#[global] Instance ordering_ok_dec c : Decision (ordering_ok c).
Proof. unfold ordering_ok, descending. apply _. Defined.

#[global] Instance ordering_inv_dec w : Decision (ordering_inv w).
Proof. unfold ordering_inv. apply _. Defined.

(** The cached neighbours whose cached weight is at least [wt], in cache
    order. *)
Definition cached_at_least (c : Connections) (wt : Z) : list nat :=
  (filter (λ pr : nat * Z, wt ≤ pr.2)
     (zip (mvpOrderedConnectedKeyFrames c) (mvOrderedWeights c))).*1.

(** The operations that rewrite the cached ordering. *)
Inductive OrderingOp :=
| OpAddConnection (this pKF : nat) (weight : Z)
| OpEraseConnection (this pKF : nat)
| OpUpdateConnections (this : nat) (upParent : bool)
| OpUpdateBestCovisibles (this : nat)
| OpPostLoad (this : nat) (mpKFid mpMPid mpCamId : gmap Z nat).

Definition run_ordering_op (o : OrderingOp) : Op unit :=
  match o with
  | OpAddConnection this pKF weight => AddConnection this pKF weight
  | OpEraseConnection this pKF => EraseConnection this pKF
  | OpUpdateConnections this upParent => UpdateConnections this upParent
  | OpUpdateBestCovisibles this => UpdateBestCovisibles this
  | OpPostLoad this mpKFid mpMPid mpCamId => PostLoad this mpKFid mpMPid mpCamId
  end.

(** The world after a guarded deletion request on [this], and after the
    guard has then been lifted. *)
Definition defer (this : nat) (kf : KeyFrame) (w : World) : World :=
  set_keyframes (<[this := with_conn (set_toBeErased true) kf]> (keyframes w)) w.

Definition lift_guard (this : nat) (kf : KeyFrame) (w : World) : World :=
  set_keyframes
    (<[this := with_conn (set_notErase false) (with_conn (set_toBeErased true) kf)]>
       (keyframes w)) w.

(** [m] keeps the property [I] of the world. *)
Definition preserves {A} (I : World → Prop) (m : Op A) : Prop :=
  ∀ w r w', I w → m w = Ok (r, w') → I w'.

(** The weight that [p] stores for [q], if [p] is an object and has one. *)
Definition weight_of (w : World) (p q : nat) : option Z :=
  kf ← keyframes w !! p; mConnectedKeyFrameWeights (conn kf) !! q.

(** What the covisibility queries read of a keyframe. *)
Definition cov_view (kf : KeyFrame) : Z * bool * gmap nat Z * list nat * list Z :=
  (mnId kf, mbBad (conn kf), mConnectedKeyFrameWeights (conn kf),
   mvpOrderedConnectedKeyFrames (conn kf), mvOrderedWeights (conn kf)).

(** Two worlds with the same objects, each looking the same through [f]. *)
Definition same_view {V} (f : KeyFrame → V) (w w' : World) : Prop :=
  ∀ p, f <$> keyframes w' !! p = f <$> keyframes w !! p.

(** Two worlds with the same objects and the same covisibility rows. *)
Definition same_cov : World → World → Prop := same_view cov_view.

(** The weight map and the cached list of a keyframe. *)
Definition rows_view (kf : KeyFrame) : gmap nat Z * list nat :=
  (mConnectedKeyFrameWeights (conn kf), mvpOrderedConnectedKeyFrames (conn kf)).

Definition same_rows : World → World → Prop := same_view rows_view.


(** Every completed run of [m] relates its start to its end by [R]. *)
Definition stays {A} (R : World → World → Prop) (m : Op A) : Prop :=
  ∀ w r w', m w = Ok (r, w') → R w w'.

(** A keyframe that is bad in [w] is still there and bad in [w']. *)
Definition bad_mono (w w' : World) : Prop :=
  ∀ p kf, keyframes w !! p = Some kf → mbBad (conn kf) = true →
    ∃ kf', keyframes w' !! p = Some kf' ∧ mbBad (conn kf') = true.

(** The cached list of a keyframe names only keys of its weight map. *)
Definition cache_in_keys (kf : KeyFrame) : Prop :=
  Forall (λ x, is_Some (mConnectedKeyFrameWeights (conn kf) !! x))
    (mvpOrderedConnectedKeyFrames (conn kf)).

(** The operations of the keyframe graph that write to the world. *)
Inductive GraphOp :=
| OpAddConnection' (this pKF : nat) (weight : Z)
| OpEraseConnection' (this pKF : nat)
| OpUpdateBestCovisibles' (this : nat)
| OpUpdateConnections' (this : nat) (upParent : bool)
| OpAddChild (this pKF : nat)
| OpEraseChild (this pKF : nat)
| OpChangeParent (this pKF : nat)
| OpSetFirstConnection (this : nat) (bFirst : bool)
| OpAddLoopEdge (this pKF : nat)
| OpAddMergeEdge (this pKF : nat)
| OpSetNotErase (this : nat)
| OpSetErase (this : nat)
| OpSetBadFlag (this : nat)
| OpUpdateMap (this pMap : nat)
| OpAddMapPoint (this pMP : nat) (idx : nat)
| OpEraseMapPointMatch (this : nat) (idx : nat)
| OpPreSave (this : nat) (spKF spMP spCam : gset nat)
| OpPostLoad' (this : nat) (mpKFid mpMPid mpCamId : gmap Z nat).

Definition run_graph_op (o : GraphOp) : Op unit :=
  match o with
  | OpAddConnection' this pKF weight => AddConnection this pKF weight
  | OpEraseConnection' this pKF => EraseConnection this pKF
  | OpUpdateBestCovisibles' this => UpdateBestCovisibles this
  | OpUpdateConnections' this upParent => UpdateConnections this upParent
  | OpAddChild this pKF => AddChild this pKF
  | OpEraseChild this pKF => EraseChild this pKF
  | OpChangeParent this pKF => ChangeParent this pKF
  | OpSetFirstConnection this bFirst => SetFirstConnection this bFirst
  | OpAddLoopEdge this pKF => AddLoopEdge this pKF
  | OpAddMergeEdge this pKF => AddMergeEdge this pKF
  | OpSetNotErase this => SetNotErase this
  | OpSetErase this => SetErase this
  | OpSetBadFlag this => SetBadFlag this
  | OpUpdateMap this pMap => UpdateMap this pMap
  | OpAddMapPoint this pMP idx => AddMapPoint this pMP idx
  | OpEraseMapPointMatch this idx => EraseMapPointMatch this idx
  | OpPreSave this spKF spMP spCam => PreSave this spKF spMP spCam
  | OpPostLoad' this mpKFid mpMPid mpCamId => PostLoad this mpKFid mpMPid mpCamId
  end.

(** [SetBadFlag] goes past its two guards on [this]. *)
Definition deletes (w : World) (this : nat) : Prop :=
  ∃ kf m, keyframes w !! this = Some kf ∧ maps w !! mpMap kf = Some m ∧
    mnId kf ≠ mnInitKFid m ∧ mbNotErase (conn kf) = false.

(** ** The spanning tree under culling *)

Definition parent_of (w : World) (p : nat) : option nat :=
  (λ kf, mpParent (conn kf)) <$> keyframes w !! p.

Definition children_of (w : World) (p : nat) : gset nat :=
  default ∅ ((λ kf, mspChildrens (conn kf)) <$> keyframes w !! p).

Definition ordered_of (w : World) (p : nat) : list nat :=
  default [] ((λ kf, mvpOrderedConnectedKeyFrames (conn kf)) <$> keyframes w !! p).

(** [c] is an object whose parent pointer is not null. *)
Definition has_parent (w : World) (c : nat) : Prop :=
  ∃ p, parent_of w c = Some p ∧ p ≠ NULL.

(** The spanning-tree side of a keyframe, with its identity and liveness. *)
Definition tree_view (kf : KeyFrame) : Z * bool * nat * gset nat :=
  (mnId kf, mbBad (conn kf), mpParent (conn kf), mspChildrens (conn kf)).

Definition same_tree : World → World → Prop := same_view tree_view.

(** No keyframe of [w'] has an edge that it did not have in [w]. *)
Definition weights_within (w w' : World) : Prop :=
  ∀ q kf', keyframes w' !! q = Some kf' →
    ∃ kf, keyframes w !! q = Some kf ∧
      mConnectedKeyFrameWeights (conn kf') ⊆ mConnectedKeyFrameWeights (conn kf).

(** The weight of the covisibility link from [c] to [p], as [GetWeight]
    reads it. *)
Definition link_weight (w : World) (c p : nat) : Z :=
  default 0 (weight_of w c p).

(** A covisibility link from child [c] to a parent candidate: [c]'s ordered
    covisible list names [p], and [p] is a candidate. *)
Definition link (w : World) (cands : gset nat) (c p : nat) : Prop :=
  p ∈ ordered_of w c ∧ p ∈ cands.

(** The reattachment as the specification words it: while some
    not-yet-reassigned child has a link to a candidate, a (child,
    candidate) pair of maximal weight is reparented and the child becomes a
    candidate; [trace] lists the pairs in order, [rest] are the children
    left without a link to any of the final candidates. *)
Inductive Greedy (w : World) :
    gset nat → gset nat → list (nat * nat) → gset nat → gset nat → Prop :=
| Greedy_stop cands children :
    (∀ c p, c ∈ children → ¬ link w cands c p) →
    Greedy w cands children [] cands children
| Greedy_step cands children c p trace cands' rest :
    c ∈ children →
    link w cands c p →
    (∀ c' p', c' ∈ children → link w cands c' p' →
              link_weight w c' p' ≤ link_weight w c p) →
    Greedy w (cands ∪ {[c]}) (children ∖ {[c]}) trace cands' rest →
    Greedy w cands children ((c, p) :: trace) cands' rest.

(** The candidate set before the first pass. *)
Definition initial_candidates (kf : KeyFrame) : gset nat :=
  if decide (mpParent (conn kf) = NULL) then ∅ else {[mpParent (conn kf)]}.

(** Ids are unique among the keyframes. *)
Definition ids_unique (w : World) : Prop :=
  ∀ p q kp kq, keyframes w !! p = Some kp → keyframes w !! q = Some kq →
    mnId kp = mnId kq → p = q.

(** Weights count shared landmarks: none is negative. *)
Definition weights_nonneg (w : World) : Prop :=
  ∀ p kf q c, keyframes w !! p = Some kf →
    mConnectedKeyFrameWeights (conn kf) !! q = Some c → 0 ≤ c.

(** The graph around a keyframe about to be culled is well formed: ids are
    unique, weights are counts, the keyframe is not its own child, and none
    of its children is bad. *)
Definition cull_wf (w : World) (this : nat) : Prop :=
  ids_unique w ∧ weights_nonneg w ∧
  (this ∉ children_of w this) ∧
  (∀ c, c ∈ children_of w this → is_live w c = true).

(** The locals of a pass of the reattachment loop describe the pairs [Q]
    seen so far: [bContinue] tells whether there is one, and then
    [(pC, pP)] is one of maximal weight [max]. *)
Definition best_ok (w : World) (Q : nat → nat → Prop) (b : Best) : Prop :=
  (bContinue b = true →
     Q (best_pC b) (best_pP b) ∧
     link_weight w (best_pC b) (best_pP b) = best_max b) ∧
  (bContinue b = false → best_max b = -1 ∧ ∀ c p, ¬ Q c p) ∧
  (∀ c p, Q c p → link_weight w c p ≤ best_max b).

(** Two worlds with the same objects and parent pointers. *)
Definition parent_view (kf : KeyFrame) : nat := mpParent (conn kf).
Definition same_parents : World → World → Prop := same_view parent_view.

(** A keyframe that has a parent in [w] has one in [w']. *)
Definition parent_kept (w w' : World) : Prop :=
  ∀ c, has_parent w c → has_parent w' c.

(** ** Save and restore *)

(** Every keyframe that [kf] refers to in its graph state is saved. *)
Definition refs_saved (kf : KeyFrame) (spKF : gset nat) : Prop :=
  dom (mConnectedKeyFrameWeights (conn kf)) ⊆ spKF ∧
  (mpParent (conn kf) ≠ NULL → mpParent (conn kf) ∈ spKF) ∧
  mspChildrens (conn kf) ⊆ spKF ∧
  mspLoopEdges (conn kf) ⊆ spKF ∧
  mspMergeEdges (conn kf) ⊆ spKF.

(** The dictionary sends the id of every saved keyframe back to that
    keyframe; ids are unsigned. *)
Definition dict_inverts (w : World) (spKF : gset nat) (mpKFid : gmap Z nat) : Prop :=
  ∀ p, p ∈ spKF →
    ∃ k, keyframes w !! p = Some k ∧ 0 ≤ mnId k ∧ mpKFid !! mnId k = Some p.

(** Modelled from the spec: the archive itself ([serialize], declared in
    KeyFrame.h, which is not among the sources) carries the id-indexed form
    of every cross-reference.  The object on which [PostLoad] runs holds the
    backup fields that [PreSave] wrote, and its parent pointer is null, as
    the default constructor leaves it, or still the pointer it had. *)
Definition restored_from (saved loaded : KeyFrame) : Prop :=
  backup loaded = backup saved ∧
  (mpParent (conn loaded) = NULL ∨ mpParent (conn loaded) = mpParent (conn saved)).

(** The id of the keyframe at an address. *)
Definition idof (w : World) (p : nat) : Z :=
  default 0 (mnId <$> keyframes w !! p).

(** ** Small worlds on which the statements are evaluated *)

Module Fixture.

Definition conn0 : Connections :=
  mkConnections ∅ [] [] true NULL ∅ ∅ ∅ false false false.

Definition backup0 : Backup :=
  mkBackup [] ∅ (-1) [] [] [] (-1) (-1) (-1) (-1).

(** A freshly admitted keyframe of map 1 with the given landmark slots. *)
Definition fresh (id : Z) (slots : list nat) : KeyFrame :=
  mkKeyFrame id (Z.of_nat (length slots)) 1%nat 1%nat slots NULL NULL NULL NULL
    conn0 backup0.

Definition seen_by (kfs : list nat) : gmap nat (Z * Z) :=
  list_to_map ((λ k, (k, (0, -1))) <$> kfs).

(** Keyframes 1 (the root), 2 and 3.  Landmarks 1..20 are seen by 1 and
    2; landmark 20 is also seen by 3. *)
Definition covis : World :=
  mkWorld
    (list_to_map [(1%nat, fresh 0 (seq 1 20)); (2%nat, fresh 1 (seq 1 20));
                  (3%nat, fresh 2 [20%nat])])
    (list_to_map
       ((λ i, (i, mkMapPoint (Z.of_nat i) false
                    (seen_by (if decide (i = 20%nat) then [1; 2; 3] else [1; 2])%nat)))
          <$> seq 1 20))
    {[ 1%nat := mkMap 0 ]} ∅ [].

(** The world in which a run ends; the starting world if it faults. *)
Definition after {A} (m : Op A) (w : World) : World :=
  match m w with
  | Ok (_, w') => w'
  | Err _ => w
  end.

(** [covis] after every keyframe has run UpdateConnections: 1 is the parent
    of 2 and 3. *)
Definition linked : World :=
  after (UpdateConnections 1%nat true ;; UpdateConnections 2%nat true ;;
         UpdateConnections 3%nat true) covis.

(** The keyframe at an address (a fresh one if there is none). *)
Definition at_ (w : World) (p : nat) : KeyFrame :=
  default (fresh 0 []) (keyframes w !! p).

(** [linked] after keyframe 2 became a loop-closure candidate under
    verification ([SetNotErase]). *)
Definition guarded : World := after (SetNotErase 2%nat) linked.

(** [linked] after keyframe 2 got a loop edge to keyframe 3. *)
Definition looped : World := after (AddLoopEdge 2%nat 3%nat) linked.

(** All three keyframes are saved; the dictionary inverts their ids. *)
Definition saved : gset nat := {[ 1%nat; 2%nat; 3%nat ]}.
Definition by_id : gmap Z nat := {[ 0 := 1%nat; 1 := 2%nat; 2 := 3%nat ]}.
Definition presaved : World := after (PreSave 2%nat saved ∅ ∅) linked.
Definition postloaded : World := after (PostLoad 2%nat by_id ∅ ∅) presaved.

(** [linked] after keyframe 2 lost its slot for landmark 20 and updated its
    connections again: keyframe 3 still stores a weight for keyframe 2,
    keyframe 2 stores none for keyframe 3.  Keyframe 3 has then rebuilt its
    cache. *)
Definition stale : World :=
  after (EraseMapPointMatch 2%nat 19%nat ;; UpdateConnections 2%nat true ;;
         UpdateBestCovisibles 3%nat) linked.

(** [stale] after keyframe 2 was culled. *)
Definition culled : World := after (SetBadFlag 2%nat) stale.

(** The scenario of the specification: keyframe 3 has parent 1 and
    children 4 and 5; keyframe 4 shares weight 10 with 1, keyframe 5 shares
    nothing with 1 and weight 8 with 4. *)
Definition node (id : Z) (ws : list (nat * Z)) (ordered : list nat)
    (ows : list Z) (parent : nat) (children : list nat) : KeyFrame :=
  mkKeyFrame id 0 1%nat 1%nat [] NULL NULL NULL NULL
    (mkConnections (list_to_map ws) ordered ows false parent
       (list_to_set children) ∅ ∅ false false false)
    backup0.

Definition tree : World :=
  mkWorld
    (list_to_map
       [(1%nat, node 0 [(3%nat, 20); (4%nat, 10)] [3; 4]%nat [20; 10] NULL [3%nat]);
        (3%nat, node 3 [(1%nat, 20); (4%nat, 30); (5%nat, 25)] [4; 5; 1]%nat
                  [30; 25; 20] 1%nat [4; 5]%nat);
        (4%nat, node 4 [(3%nat, 30); (1%nat, 10); (5%nat, 8)] [3; 1; 5]%nat
                  [30; 10; 8] 3%nat []);
        (5%nat, node 5 [(3%nat, 25); (4%nat, 8)] [3; 4]%nat [25; 8] 3%nat [])])
    ∅ {[ 1%nat := mkMap 0 ]} ∅ [].

Definition tree_culled : World := after (SetBadFlag 3%nat) tree.

End Fixture.

(** ** Tallies *)

(** [K] is counted by [UpdateConnections] of [kf]: another keyframe (by id)
    of the same map that is not bad. *)
Definition countable_for (w : World) (kf : KeyFrame) (K : nat) : Prop :=
  K ≠ NULL ∧ ∃ ko, keyframes w !! K = Some ko ∧ mnId ko ≠ mnId kf ∧
    mbBad (conn ko) = false ∧ mpMap ko = mpMap kf.

Definition tally_ok (w : World) (kf : KeyFrame) (m : gmap nat Z) : Prop :=
  ∀ K c, m !! K = Some c → 1 ≤ c ∧ countable_for w kf K.

(** The landmark in a slot is counted for [B]: the slot is not null, the
    landmark is not bad, and its observation table has an entry for [B]. *)
Definition slot_counts (w : World) (B pMP : nat) : bool :=
  bool_decide (pMP ≠ NULL) &&
  match mappoints w !! pMP with
  | Some mp => negb (mp_mbBad mp) && bool_decide (is_Some (mObservations mp !! B))
  | None => false
  end.

(** [countable_for] as a test. *)
Definition counted (w : World) (kf : KeyFrame) (K : nat) : bool :=
  bool_decide (K ≠ NULL) &&
  match keyframes w !! K with
  | Some ko =>
      bool_decide (mnId ko ≠ mnId kf) && negb (mbBad (conn ko)) &&
      bool_decide (mpMap ko = mpMap kf)
  | None => false
  end.

(** The tally of [B] for the keyframe [kf]: the number of slots of [kf]
    whose landmark is counted for [B].  A landmark that sits in two slots
    is counted twice. *)
Definition slot_tally (w : World) (kf : KeyFrame) (B : nat) : Z :=
  if counted w kf B
  then Z.of_nat (length (filter (λ pMP, slot_counts w B pMP = true) (mvpMapPoints kf)))
  else 0.

(** * Further predicates *)

(** The members of a keyframe outside its connection state. *)
Definition outer_view (kf : KeyFrame) :=
  (mnId kf, N kf, mpMap kf, mpKeyFrameDB kf, mvpMapPoints kf,
   mpCamera kf, mpCamera2 kf, mPrevKF kf, mNextKF kf, backup kf).

Definition same_outer : World → World → Prop := same_view outer_view.

(** The weight map of a keyframe with both cached vectors. *)
Definition cache_view (kf : KeyFrame) : gmap nat Z * list nat * list Z :=
  (mConnectedKeyFrameWeights (conn kf), mvpOrderedConnectedKeyFrames (conn kf),
   mvOrderedWeights (conn kf)).

Definition same_cache : World → World → Prop := same_view cache_view.

(** No call to a collaborator is made. *)
Definition same_events (w w' : World) : Prop := events w' = events w.

(** The calls [EraseObservation(this)] on the landmarks of the slots, in
    slot order. *)
Definition erase_observations (this : nat) (slots : list nat) : list Event :=
  (λ pMP, EvEraseObservation pMP this) <$> filter (λ pMP, pMP ≠ NULL) slots.

(** The erase guard of a keyframe, with its loop edges and its bad flag. *)
Definition guard_view (kf : KeyFrame) : gset nat * bool * bool :=
  (mspLoopEdges (conn kf), mbNotErase (conn kf), mbBad (conn kf)).

Definition same_guard : World → World → Prop := same_view guard_view.

(** The keyframe has a loop edge, is under the guard and is not bad. *)
Definition held (w : World) (p : nat) : Prop :=
  ∃ kf, keyframes w !! p = Some kf ∧
    mspLoopEdges (conn kf) ≠ ∅ ∧ mbNotErase (conn kf) = true ∧ mbBad (conn kf) = false.

Definition held_stays (p : nat) (w w' : World) : Prop := held w p → held w' p.

(** The connection state keeps what [held] asks of it. *)
Definition keeps_hold (f : Connections → Connections) : Prop :=
  ∀ c, mspLoopEdges c ≠ ∅ → mbNotErase c = true → mbBad c = false →
    mspLoopEdges (f c) ≠ ∅ ∧ mbNotErase (f c) = true ∧ mbBad (f c) = false.

(** [PostLoad] on [p] replaces the loop edges of [p] by the saved ones. *)
Definition reloads (o : GraphOp) (p : nat) : Prop :=
  match o with
  | OpPostLoad' this _ _ _ => this = p
  | _ => False
  end.

(** ** Landmark slots, continued *)

(** [GetNumberMPs]: the loop over the slots counts the non-null ones. *)
Definition GetNumberMPs (this : nat) : Op Z :=
  kf ← kf_get this;
  mret (foldl (λ numberMPs pMP, if decide (pMP = NULL) then numberMPs else numberMPs + 1)
          0 (mvpMapPoints kf)).

(** [GetMapPoints]: the landmarks of the non-null slots that are not
    bad. *)
Definition GetMapPoints (this : nat) : Op (gset nat) :=
  kf ← kf_get this;
  fold_each (mvpMapPoints kf)
    (λ s pMP, if decide (pMP = NULL) then mret s
              else (mp ← mp_get pMP;
                    mret (if mp_mbBad mp then s else s ∪ {[pMP]})))
    (∅ : gset nat).

Definition GetMapPoint (this : nat) (idx : nat) : Op nat :=
  kf ← kf_get this;
  match mvpMapPoints kf !! idx with
  | Some pMP => mret pMP
  | None => fail OutOfBounds
  end.

(** ** More small worlds *)
Module Partial.

(** Keyframes 1 and 2 of [Fixture.linked] are saved, keyframe 3 is not. *)
Definition saved : gset nat := {[ 1%nat; 2%nat ]}.
Definition by_id : gmap Z nat := {[ 0 := 1%nat; 1 := 2%nat ]}.
Definition presaved : World := Fixture.after (PreSave 1%nat saved ∅ ∅) Fixture.linked.
Definition postloaded : World := Fixture.after (PostLoad 1%nat by_id ∅ ∅) presaved.

(** The tally of keyframe 2 in [Fixture.covis]. *)
Definition tally_of_2 : gmap nat Z :=
  match count_covisible 2%nat Fixture.covis with
  | Ok (m, _) => m
  | Err _ => ∅
  end.

End Partial.

(** Every keyframe's cached list names only keys of its weight map. *)
Definition cache_inv (w : World) : Prop :=
  map_Forall (λ _ kf, cache_in_keys kf) (keyframes w).

#[global] Instance cache_in_keys_dec kf : Decision (cache_in_keys kf).
Proof. unfold cache_in_keys. apply _. Defined.

#[global] Instance cache_inv_dec w : Decision (cache_inv w).
Proof. unfold cache_inv. apply _. Defined.

(** The spanning-tree side of a keyframe with what the first-connection
    rule reads. *)
Definition first_view (kf : KeyFrame) :=
  (tree_view kf, mbFirstConnection (conn kf), mpMap kf).

Definition same_first : World → World → Prop := same_view first_view.

(** The run does not end by exhausting the bound on the passes of a
    loop. *)
Definition never_fuel {A} (m : Op A) : Prop := ∀ w, m w ≠ Err OutOfFuel.

(** The world after the backup of one keyframe was written. *)
Definition resaved (w : World) (this : nat) (kf : KeyFrame) (b : Backup) : World :=
  set_keyframes (<[this := set_backup b kf]> (keyframes w)) w.

(** A run that only reads, and reads the same before and after the backup
    of [this] was written. *)
Definition transfers (w : World) (this : nat) (kf : KeyFrame) (b : Backup)
    {A} (m : Op A) : Prop :=
  ∀ r w', m w = Ok (r, w') → w' = w ∧ m (resaved w this kf b) = Ok (r, resaved w this kf b).

(** * Reasoning about runs *)

#[local] Set Warnings "-clear-no-such-hyp".

Lemma bind_Ok {A B} (m : Op A) (k : A → Op B) w r :
  (m ≫= k) w = Ok r ↔ ∃ a w1, m w = Ok (a, w1) ∧ k a w1 = Ok r.
Proof.
  unfold mbind, Op_bind. split.
  - destruct (m w) as [[a w1]|f]; [eauto|discriminate].
  - intros (a & w1 & -> & Hk). done.
Qed.

Lemma ret_Ok {A} (a : A) w r : mret (M:=Op) a w = Ok r ↔ r = (a, w).
Proof. unfold mret, Op_ret. split; [by intros [= <-]|by intros ->]. Qed.

Lemma fail_Ok {A} f w (r : A * World) : fail f w = Ok r ↔ False.
Proof. unfold fail. split; [discriminate|done]. Qed.

Lemma emit_Ok e w r : emit e w = Ok r ↔ r = (tt, add_event e w).
Proof. unfold emit. split; [by intros [= <-]|by intros ->]. Qed.

Lemma kf_get_Ok p w r :
  kf_get p w = Ok r ↔ p ≠ NULL ∧ ∃ kf, keyframes w !! p = Some kf ∧ r = (kf, w).
Proof.
  unfold kf_get. destruct (decide (p = NULL)); [naive_solver|].
  destruct (keyframes w !! p); naive_solver.
Qed.

Lemma kf_get_valid p w kf :
  p ≠ NULL → keyframes w !! p = Some kf → kf_get p w = Ok (kf, w).
Proof. intros. apply kf_get_Ok. eauto. Qed.

Lemma kf_put_Ok p kf w r :
  kf_put p kf w = Ok r ↔ r = (tt, set_keyframes (<[p := kf]> (keyframes w)) w).
Proof. unfold kf_put. split; [by intros [= <-]|by intros ->]. Qed.

Lemma kf_modify_Ok p f w r :
  kf_modify p f w = Ok r ↔
  p ≠ NULL ∧ ∃ kf, keyframes w !! p = Some kf ∧
    r = (tt, set_keyframes (<[p := with_conn f kf]> (keyframes w)) w).
Proof.
  unfold kf_modify. rewrite bind_Ok. setoid_rewrite kf_get_Ok.
  setoid_rewrite kf_put_Ok. naive_solver.
Qed.

Lemma map_get_Ok p w r :
  map_get p w = Ok r ↔ p ≠ NULL ∧ ∃ m, maps w !! p = Some m ∧ r = (m, w).
Proof.
  unfold map_get. destruct (decide (p = NULL)); [naive_solver|].
  destruct (maps w !! p); naive_solver.
Qed.

Lemma mp_get_Ok p w r :
  mp_get p w = Ok r ↔ p ≠ NULL ∧ ∃ m, mappoints w !! p = Some m ∧ r = (m, w).
Proof.
  unfold mp_get. destruct (decide (p = NULL)); [naive_solver|].
  destruct (mappoints w !! p); naive_solver.
Qed.

Lemma cam_get_Ok p w r :
  cam_get p w = Ok r ↔ p ≠ NULL ∧ ∃ m, cameras w !! p = Some m ∧ r = (m, w).
Proof.
  unfold cam_get. destruct (decide (p = NULL)); [naive_solver|].
  destruct (cameras w !! p); naive_solver.
Qed.

(** Inversion of a successful run, one constructor of the monad at a time. *)
Ltac op_inv1 H :=
  match type of H with
  | (_ ≫= _) _ = Ok _ =>
      let a := fresh "a" in let w := fresh "w" in
      let H1 := fresh "Hrun" in let H2 := fresh "Hrun" in
      apply bind_Ok in H; destruct H as (a & w & H1 & H2);
      op_inv1 H1; op_inv1 H2
  | mret _ _ = Ok _ => apply ret_Ok in H; simplify_eq
  | fail _ _ = Ok _ => apply fail_Ok in H; destruct H
  | emit _ _ = Ok _ => apply emit_Ok in H; simplify_eq
  | kf_get _ _ = Ok _ =>
      let kf := fresh "kf" in let Hn := fresh "Hnn" in let Hl := fresh "Hkf" in
      apply kf_get_Ok in H; destruct H as (Hn & kf & Hl & ?); simplify_eq
  | kf_put _ _ _ = Ok _ => apply kf_put_Ok in H; simplify_eq
  | kf_modify _ _ _ = Ok _ =>
      let kf := fresh "kf" in let Hn := fresh "Hnn" in let Hl := fresh "Hkf" in
      apply kf_modify_Ok in H; destruct H as (Hn & kf & Hl & ?); simplify_eq
  | map_get _ _ = Ok _ =>
      let m := fresh "m" in let Hn := fresh "Hnn" in let Hl := fresh "Hmap" in
      apply map_get_Ok in H; destruct H as (Hn & m & Hl & ?); simplify_eq
  | mp_get _ _ = Ok _ =>
      let m := fresh "mp" in let Hn := fresh "Hnn" in let Hl := fresh "Hmp" in
      apply mp_get_Ok in H; destruct H as (Hn & m & Hl & ?); simplify_eq
  | cam_get _ _ = Ok _ =>
      let m := fresh "cam" in let Hn := fresh "Hnn" in let Hl := fresh "Hcam" in
      apply cam_get_Ok in H; destruct H as (Hn & m & Hl & ?); simplify_eq
  | _ => idtac
  end.

Ltac op_inv H := op_inv1 H; simpl in *.

(** Inversion of a bind whose first action is a dereference, keeping the
    names chosen for the object and the facts about it. *)
Tactic Notation "bind_get" hyp(H) "as" ident(kf) ident(Hnn) ident(Hkf) :=
  let w1 := fresh "w" in
  let Hget := fresh "Hget" in
  apply bind_Ok in H as (kf & w1 & Hget & H);
  apply kf_get_Ok in Hget as (Hnn & ? & Hkf & [= <- ->]).

(** Decides a closed decidable proposition by evaluation. *)
Ltac by_compute :=
  match goal with
  | |- ?P => apply (bool_decide_unpack P); vm_compute; exact I
  end.

(** A property of the world that a loop body keeps is kept by the loop. *)
Lemma fold_each_preserves {A S} (I : World → Prop) (body : S → A → Op S) l :
  (∀ a x w r w', I w → body a x w = Ok (r, w') → I w') →
  ∀ acc w r w', I w → fold_each l body acc w = Ok (r, w') → I w'.
Proof.
  intros Hbody. induction l as [|x l IH]; intros acc w r w' HI Hrun; simpl in Hrun.
  - op_inv Hrun. done.
  - apply bind_Ok in Hrun as (a & w1 & H1 & H2). eauto.
Qed.

Lemma for_each_preserves {A} (I : World → Prop) (body : A → Op unit) l :
  (∀ x w r w', I w → body x w = Ok (r, w') → I w') →
  ∀ w r w', I w → for_each l body w = Ok (r, w') → I w'.
Proof.
  intros Hbody. induction l as [|x l IH]; intros w r w' HI Hrun; simpl in Hrun.
  - op_inv Hrun. done.
  - apply bind_Ok in Hrun as (a & w1 & H1 & H2). eauto.
Qed.

(** A loop whose body only reads the world. *)
Lemma fold_each_readonly {A S} (body : S → A → Op S) l :
  (∀ a x w r w', body a x w = Ok (r, w') → w' = w) →
  ∀ acc w r w', fold_each l body acc w = Ok (r, w') → w' = w.
Proof.
  intros Hbody acc w r w' Hrun.
  apply (fold_each_preserves (λ w0, w0 = w) body l) in Hrun; [done| |done].
  intros a x w0 r0 w0' -> H0. eauto.
Qed.

(** ** Order facts *)

#[global] Instance pair_le_total : Total pair_le.
Proof. intros [a1 a2] [b1 b2]. unfold pair_le. simpl. lia. Qed.

#[global] Instance pair_le_trans : Transitive pair_le.
Proof. intros [a1 a2] [b1 b2] [c1 c2]. unfold pair_le. simpl. lia. Qed.

#[global] Instance pair_le_antisymm : AntiSymm (=) pair_le.
Proof.
  intros [a1 a2] [b1 b2]. unfold pair_le. simpl. intros ??.
  f_equal; lia.
Qed.

#[global] Instance key_le_total {V} : Total (@key_le V).
Proof. intros [a1 a2] [b1 b2]. unfold key_le. simpl. lia. Qed.

#[global] Instance key_le_trans {V} : Transitive (@key_le V).
Proof. intros [a1 a2] [b1 b2] [c1 c2]. unfold key_le. simpl. lia. Qed.

#[global] Instance id_le_total {V} : Total (@id_le V).
Proof. intros [a1 a2] [b1 b2]. unfold id_le. simpl. lia. Qed.

#[global] Instance id_le_trans {V} : Transitive (@id_le V).
Proof. intros [a1 a2] [b1 b2] [c1 c2]. unfold id_le. simpl. lia. Qed.

Lemma elem_of_map_items {V} (m : gmap nat V) k v :
  (k, v) ∈ map_items m ↔ m !! k = Some v.
Proof.
  unfold map_items. rewrite merge_sort_Permutation. apply elem_of_map_to_list.
Qed.

Lemma NoDup_map_items_keys {V} (m : gmap nat V) : NoDup (map_items m).*1.
Proof.
  unfold map_items.
  assert (Hp : (merge_sort key_le (map_to_list m)).*1 ≡ₚ (map_to_list m).*1)
    by (by rewrite merge_sort_Permutation).
  rewrite Hp. apply NoDup_fst_map_to_list.
Qed.

Lemma elem_of_idmap_items {V} (m : gmap Z V) k v :
  (k, v) ∈ idmap_items m ↔ m !! k = Some v.
Proof.
  unfold idmap_items. rewrite merge_sort_Permutation. apply elem_of_map_to_list.
Qed.

Lemma elem_of_set_items (s : gset nat) k : k ∈ set_items s ↔ k ∈ s.
Proof. unfold set_items. rewrite merge_sort_Permutation. apply elem_of_elements. Qed.

Lemma NoDup_set_items (s : gset nat) : NoDup (set_items s).
Proof. unfold set_items. rewrite merge_sort_Permutation. apply NoDup_elements. Qed.

Lemma elem_of_std_sort v pr : pr ∈ std_sort v ↔ pr ∈ v.
Proof. unfold std_sort. by rewrite merge_sort_Permutation. Qed.

Lemma StronglySorted_std_sort v : StronglySorted pair_le (std_sort v).
Proof. apply StronglySorted_merge_sort; apply _. Qed.

Lemma StronglySorted_filter {A} (R : relation A) (P : A → Prop)
    `{∀ x, Decision (P x)} l :
  StronglySorted R l → StronglySorted R (filter P l).
Proof.
  induction 1 as [|x l Hl IH Hx]; [constructor|].
  rewrite filter_cons. case_decide; [|done].
  constructor; [done|]. rewrite Forall_forall in Hx |- *.
  intros y [_ Hy]%list_elem_of_filter. auto.
Qed.

Lemma StronglySorted_reverse {A} (R : relation A) l :
  StronglySorted R l → StronglySorted (flip R) (reverse l).
Proof.
  induction 1 as [|x l Hl IH Hx]; [constructor|].
  rewrite reverse_cons. apply StronglySorted_app_2; [|done|repeat constructor].
  intros y z Hy ->%list_elem_of_singleton. unfold flip.
  rewrite Forall_forall in Hx. apply Hx. by apply elem_of_reverse.
Qed.

Lemma descending_lookup l i j x y :
  descending l → (i ≤ j)%nat → l !! i = Some x → l !! j = Some y → y ≤ x.
Proof.
  intros Hl. revert i j. induction Hl as [|a l Hl IH Ha]; intros i j Hij Hi Hj.
  - done.
  - destruct i as [|i], j as [|j]; simpl in *; simplify_eq; try lia.
    + rewrite Forall_forall in Ha. apply Ha. by eapply list_elem_of_lookup_2.
    + eapply IH; [|done..]. lia.
Qed.

(** * The cached ordering *)

Lemma isBad_Ok p w r :
  isBad p w = Ok r ↔
  p ≠ NULL ∧ ∃ kf, keyframes w !! p = Some kf ∧ r = (mbBad (conn kf), w).
Proof.
  unfold isBad. rewrite bind_Ok. setoid_rewrite kf_get_Ok.
  setoid_rewrite ret_Ok. naive_solver.
Qed.

Lemma is_live_lookup w p kf :
  keyframes w !! p = Some kf → is_live w p = negb (mbBad (conn kf)).
Proof. unfold is_live. by intros ->. Qed.

Lemma fold_push_live vPairs acc w r w' :
  fold_each vPairs push_live acc w = Ok (r, w') →
  w' = w ∧
  r = ((reverse (filter (λ pr, is_live w pr.2) vPairs)).*2 ++ acc.1,
       (reverse (filter (λ pr, is_live w pr.2) vPairs)).*1 ++ acc.2).
Proof.
  revert acc. induction vPairs as [|pr l IH]; intros acc Hrun; simpl in Hrun.
  - op_inv Hrun. by destruct acc.
  - apply bind_Ok in Hrun as (a & w1 & H1 & H2).
    unfold push_live in H1. apply bind_Ok in H1 as (b & w2 & Hb & Hr).
    apply isBad_Ok in Hb as (Hnn & kf & Hkf & ?). simplify_eq. op_inv Hr.
    apply IH in H2 as [-> ->]. split; [done|].
    rewrite filter_cons, (is_live_lookup _ _ _ Hkf).
    destruct (mbBad (conn kf)); simpl; [done|].
    rewrite reverse_cons, !fmap_app. simpl. by rewrite <-!app_assoc.
Qed.

Lemma UpdateBestCovisibles_Ok this w w' :
  UpdateBestCovisibles this w = Ok (tt, w') →
  this ≠ NULL ∧ ∃ kf, keyframes w !! this = Some kf ∧
    w' = set_keyframes (<[this := rebuild_ordering w kf]> (keyframes w)) w.
Proof.
  unfold UpdateBestCovisibles. intros Hrun.
  apply bind_Ok in Hrun as (kf & w1 & Hget & Hrun). op_inv Hget.
  apply bind_Ok in Hrun as (ls & w2 & Hfold & Hmod).
  apply fold_push_live in Hfold as [-> ->]. op_inv Hmod.
  split; [done|]. eexists; split; [done|].
  unfold rebuild_ordering, best_covisibles. by rewrite !app_nil_r.
Qed.

Lemma descending_best w m : descending (best_covisibles w m).*1.
Proof.
  unfold descending, best_covisibles.
  eapply (StronglySorted_fmap _ (flip pair_le)).
  - intros [a1 a2] [b1 b2]. unfold flip, pair_le. simpl. lia.
  - apply StronglySorted_reverse, StronglySorted_filter, StronglySorted_std_sort.
Qed.

Lemma ordering_ok_rebuild w kf : ordering_ok (conn (rebuild_ordering w kf)).
Proof.
  unfold ordering_ok, rebuild_ordering. simpl.
  split; [by rewrite !length_fmap|apply descending_best].
Qed.

Lemma ordering_inv_insert w p kf :
  ordering_inv w → ordering_ok (conn kf) →
  ordering_inv (set_keyframes (<[p := kf]> (keyframes w)) w).
Proof.
  intros Hinv Hok. unfold ordering_inv. simpl. by apply map_Forall_insert_2.
Qed.

Lemma preserves_bind {A B} I (m : Op A) (k : A → Op B) :
  preserves I m → (∀ a, preserves I (k a)) → preserves I (m ≫= k).
Proof.
  intros Hm Hk w r w' HI Hrun. apply bind_Ok in Hrun as (a & w1 & H1 & H2).
  eapply Hk; [|done]. eapply Hm; done.
Qed.

Lemma preserves_ret {A} I (a : A) : preserves I (mret a).
Proof. intros w r w' HI Hrun. by op_inv Hrun. Qed.

Lemma preserves_fail {A} I f : preserves I (fail (A:=A) f).
Proof. intros w r w' HI Hrun. by op_inv Hrun. Qed.

Lemma preserves_kf_get I p : preserves I (kf_get p).
Proof. intros w r w' HI Hrun. by op_inv Hrun. Qed.

Lemma preserves_map_get I p : preserves I (map_get p).
Proof. intros w r w' HI Hrun. by op_inv Hrun. Qed.

Lemma preserves_mp_get I p : preserves I (mp_get p).
Proof. intros w r w' HI Hrun. by op_inv Hrun. Qed.

Lemma preserves_fold_each {A S} I (body : S → A → Op S) l acc :
  (∀ a x, preserves I (body a x)) → preserves I (fold_each l body acc).
Proof. intros Hb w r w' HI Hrun. eapply fold_each_preserves; [|done..]. intros. by eapply Hb. Qed.

Lemma preserves_for_each {A} I (body : A → Op unit) l :
  (∀ x, preserves I (body x)) → preserves I (for_each l body).
Proof. intros Hb w r w' HI Hrun. eapply for_each_preserves; [|done..]. intros. by eapply Hb. Qed.

Lemma preserves_kf_modify_ordering p f :
  (∀ c, ordering_ok c → ordering_ok (f c)) →
  preserves ordering_inv (kf_modify p f).
Proof.
  intros Hf w r w' HI Hrun. op_inv Hrun.
  apply ordering_inv_insert; [done|]. simpl. apply Hf. by eapply (HI p).
Qed.

Lemma preserves_UpdateBestCovisibles this :
  preserves ordering_inv (UpdateBestCovisibles this).
Proof.
  intros w [] w' HI Hrun.
  apply UpdateBestCovisibles_Ok in Hrun as (_ & kf & Hkf & ->).
  apply ordering_inv_insert; [done|]. apply ordering_ok_rebuild.
Qed.

(** Steps through the control structure of an operation. *)
Ltac preserves_step :=
  match goal with
  | |- preserves _ (_ ≫= _) => apply preserves_bind; [|intros ?]
  | |- preserves _ (mret _) => apply preserves_ret
  | |- preserves _ (fail _) => apply preserves_fail
  | |- preserves _ (kf_get _) => apply preserves_kf_get
  | |- preserves _ (map_get _) => apply preserves_map_get
  | |- preserves _ (mp_get _) => apply preserves_mp_get
  | |- preserves _ (fold_each _ _ _) => apply preserves_fold_each; intros ??
  | |- preserves _ (for_each _ _) => apply preserves_for_each; intros ?
  | |- preserves _ (if ?b then _ else _) => destruct b
  | |- preserves _ (match ?x with _ => _ end) => destruct x
  | |- preserves _ (let _ := _ in _) => simpl
  end.

Lemma preserves_AddConnection this pKF weight :
  preserves ordering_inv (AddConnection this pKF weight).
Proof.
  unfold AddConnection.
  repeat (preserves_step
          || apply preserves_UpdateBestCovisibles
          || (apply preserves_kf_modify_ordering; intros c Hc; exact Hc)).
Qed.

Lemma preserves_EraseConnection this pKF :
  preserves ordering_inv (EraseConnection this pKF).
Proof.
  unfold EraseConnection.
  repeat (preserves_step
          || apply preserves_UpdateBestCovisibles
          || (apply preserves_kf_modify_ordering; intros c Hc; exact Hc)).
Qed.

Lemma ordering_ok_sorted v c :
  ordering_ok
    (set_orderedWeights (reverse ((std_sort v).*1))
       (set_orderedKFs (reverse ((std_sort v).*2)) c)).
Proof.
  unfold ordering_ok. simpl. split.
  - by rewrite !length_reverse, !length_fmap.
  - unfold descending. apply StronglySorted_reverse.
    eapply (StronglySorted_fmap _ pair_le); [|apply StronglySorted_std_sort].
    intros [a1 a2] [b1 b2]. unfold pair_le. simpl. lia.
Qed.

Lemma preserves_count_covisible I this : preserves I (count_covisible this).
Proof.
  unfold count_covisible, count_mappoint, count_observation.
  repeat preserves_step.
Qed.

Lemma preserves_UpdateConnections this upParent :
  preserves ordering_inv (UpdateConnections this upParent).
Proof.
  unfold UpdateConnections, first_connection, promote, AddChild, GetInitKFid.
  repeat (preserves_step
          || apply preserves_count_covisible
          || apply preserves_AddConnection
          || (apply preserves_kf_modify_ordering; intros c Hc;
              first [exact Hc | apply ordering_ok_sorted])).
Qed.

Lemma restore_mappoint_readonly b mpMPid acc i w r w' :
  restore_mappoint b mpMPid acc i w = Ok (r, w') → w' = w.
Proof.
  unfold restore_mappoint. destruct (_ !! _); intros H0; by op_inv H0.
Qed.

Lemma preserves_PostLoad this mpKFid mpMPid mpCamId :
  preserves ordering_inv (PostLoad this mpKFid mpMPid mpCamId).
Proof.
  unfold PostLoad. intros w r w' HI Hrun.
  apply bind_Ok in Hrun as (kf & w0 & Hget & Hrun). op_inv Hget.
  apply bind_Ok in Hrun as (mps & w1 & Hfold & Hrun).
  apply fold_each_readonly in Hfold as ->;
    [|intros *; apply restore_mappoint_readonly].
  apply bind_Ok in Hrun as ([] & w2 & Hput & Hrun). op_inv Hput.
  eapply preserves_UpdateBestCovisibles; [|done].
  apply ordering_inv_insert; [done|]. simpl. by eapply (HI this).
Qed.

(** ** The bisection of [GetCovisiblesByWeight] *)

Lemma upper_bound_loop_spec v val fuel first len :
  descending v →
  (len ≤ fuel)%nat → (first + len ≤ length v)%nat →
  (∀ i x, (i < first)%nat → v !! i = Some x → val ≤ x) →
  (∀ i x, (first + len ≤ i)%nat → v !! i = Some x → x < val) →
  let r := upper_bound_loop fuel v weightComp val first len in
  (first ≤ r ≤ first + len)%nat ∧
  (∀ i x, (i < r)%nat → v !! i = Some x → val ≤ x) ∧
  (∀ i x, (r ≤ i)%nat → v !! i = Some x → x < val).
Proof.
  intros Hv. revert first len.
  induction fuel as [|fuel IH]; intros first len Hfuel Hlen Hlo Hhi;
    cbn [upper_bound_loop].
  - assert (len = 0)%nat as -> by lia.
    split; [lia|]. split; [done|]. intros i x Hi. apply Hhi. lia.
  - destruct (decide (len = 0)%nat) as [->|Hne].
    { split; [lia|]. split; [done|]. intros i x Hi. apply Hhi. lia. }
    assert (Hhalf : (len / 2 < len)%nat) by (apply Nat.div_lt; lia).
    destruct (lookup_lt_is_Some_2 v (first + len / 2)) as [m Hm]; [lia|].
    rewrite Hm. cbn [default from_option id].
    destruct (weightComp val m) eqn:Hcmp; unfold weightComp in Hcmp;
      [apply bool_decide_eq_true in Hcmp|apply bool_decide_eq_false in Hcmp].
    + destruct (IH first (len / 2)%nat) as (Hr & H1 & H2); [lia|lia|done| |].
      { intros i x Hi Hx. pose proof (descending_lookup _ _ _ _ _ Hv Hi Hm Hx). lia. }
      split; [lia|]. done.
    + destruct (IH (S (first + len / 2)) (len - len / 2 - 1)%nat)
        as (Hr & H1 & H2); [lia|lia| | |].
      { intros i x Hi Hx.
        assert (Hle : (i ≤ first + len / 2)%nat) by lia.
        pose proof (descending_lookup _ _ _ _ _ Hv Hle Hx Hm). lia. }
      { intros i x Hi. apply Hhi. lia. }
      split; [lia|]. done.
Qed.

Lemma upper_bound_spec v val :
  descending v →
  let r := upper_bound v val weightComp in
  (r ≤ length v)%nat ∧
  (∀ i x, (i < r)%nat → v !! i = Some x → val ≤ x) ∧
  (∀ i x, (r ≤ i)%nat → v !! i = Some x → x < val).
Proof.
  intros Hv. unfold upper_bound.
  destruct (upper_bound_loop_spec v val (length v) 0 (length v))
    as (Hr & H1 & H2); [done|lia|lia|lia| |].
  - intros i x Hi Hx. apply lookup_lt_Some in Hx. simpl in Hi. lia.
  - split; [simpl in Hr; lia|]. done.
Qed.

Lemma filter_prefix {A} (P : A → Prop) `{∀ x, Decision (P x)} (l : list A) r :
  (∀ i x, (i < r)%nat → l !! i = Some x → P x) →
  (∀ i x, (r ≤ i)%nat → l !! i = Some x → ¬ P x) →
  filter P l = take r l.
Proof.
  revert r. induction l as [|a l IH]; intros r Hlo Hhi.
  - by destruct r.
  - destruct r as [|r].
    + rewrite filter_cons_False by (apply (Hhi 0%nat); [lia|done]).
      rewrite (IH 0%nat); [by destruct l|intros; lia|].
      intros i x _ Hx. apply (Hhi (S i)); [lia|done].
    + rewrite filter_cons_True by (apply (Hlo 0%nat); [lia|done]).
      simpl. f_equal. apply IH.
      * intros i x Hi Hx. apply (Hlo (S i)); [lia|done].
      * intros i x Hi Hx. apply (Hhi (S i)); [lia|done].
Qed.

Lemma cached_at_least_take c wt :
  ordering_ok c →
  cached_at_least c wt =
  take (upper_bound (mvOrderedWeights c) wt weightComp) (mvpOrderedConnectedKeyFrames c).
Proof.
  intros [Hlen Hdesc]. unfold cached_at_least.
  destruct (upper_bound_spec _ wt Hdesc) as (Hr & Hlo & Hhi).
  rewrite (filter_prefix _ _ (upper_bound (mvOrderedWeights c) wt weightComp)).
  - rewrite fmap_take, fst_zip; [done|lia].
  - intros i [k x] Hi Hx. simpl.
    apply lookup_zip_with_Some in Hx as (k' & x' & [= <- <-] & _ & Hx). eauto.
  - intros i [k x] Hi Hx. simpl.
    apply lookup_zip_with_Some in Hx as (k' & x' & [= <- <-] & _ & Hx).
    specialize (Hhi _ _ Hi Hx). lia.
Qed.

Lemma GetCovisiblesByWeight_exact p wt w kf :
  p ≠ NULL → keyframes w !! p = Some kf → ordering_ok (conn kf) →
  GetCovisiblesByWeight p wt w = Ok (cached_at_least (conn kf) wt, w).
Proof.
  intros Hp Hkf Hok. unfold GetCovisiblesByWeight.
  apply bind_Ok. exists kf, w. split; [by apply kf_get_valid|].
  rewrite (cached_at_least_take _ _ Hok). destruct Hok as [Hlen Hdesc].
  destruct (upper_bound_spec _ wt Hdesc) as (Hr & Hlo & Hhi).
  set (r := upper_bound (mvOrderedWeights (conn kf)) wt weightComp) in *.
  case_decide as Hnil.
  { by rewrite Hnil, take_nil. }
  assert (Hr' : (r ≤ length (mvpOrderedConnectedKeyFrames (conn kf)))%nat) by lia.
  case_decide as Hend.
  - destruct (last (mvOrderedWeights (conn kf))) as [back|] eqn:Hlast.
    + rewrite last_lookup in Hlast.
      assert (wt ≤ back).
      { eapply Hlo; [|done].
        destruct (mvpOrderedConnectedKeyFrames (conn kf)); [done|].
        simpl in Hlen. lia. }
      rewrite decide_False by lia. by rewrite decide_True by done.
    + apply last_None in Hlast. rewrite Hlast in Hlen.
      by destruct (mvpOrderedConnectedKeyFrames (conn kf)).
  - by rewrite decide_True by done.
Qed.

(** C10: every operation that rewrites the cached covisibility ordering
    (AddConnection, EraseConnection, UpdateConnections, UpdateBestCovisibles,
    PostLoad) keeps, for every keyframe, the ordered-keyframe vector and the
    ordered-weight vector of equal length with the weights in non-increasing
    order; and under that invariant GetCovisiblesByWeight returns exactly the
    cached neighbours whose cached weight is at least the threshold. *)
Theorem ordering_ops_keep_cache_sorted (o : OrderingOp) (w w' : World) :
  ordering_inv w →
  run_ordering_op o w = Ok (tt, w') →
  ordering_inv w' ∧
  ∀ p kf wt, p ≠ NULL → keyframes w' !! p = Some kf →
    GetCovisiblesByWeight p wt w' = Ok (cached_at_least (conn kf) wt, w').
Proof.
  intros Hinv Hrun.
  assert (Hinv' : ordering_inv w').
  { destruct o; simpl in Hrun;
      [eapply preserves_AddConnection|eapply preserves_EraseConnection
      |eapply preserves_UpdateConnections|eapply preserves_UpdateBestCovisibles
      |eapply preserves_PostLoad]; done. }
  split; [done|]. intros p kf wt Hp Hkf.
  apply GetCovisiblesByWeight_exact; [done..|]. by eapply (Hinv' p).
Qed.

Lemma ordering_ops_keep_cache_sorted_witness :
  let w' := Fixture.after (UpdateConnections 1%nat true) Fixture.covis in
  ordering_inv w' ∧
  ∀ p kf wt, p ≠ NULL → keyframes w' !! p = Some kf →
    GetCovisiblesByWeight p wt w' = Ok (cached_at_least (conn kf) wt, w').
Proof.
  apply (ordering_ops_keep_cache_sorted (OpUpdateConnections 1%nat true) Fixture.covis).
  - by_compute.
  - vm_compute. reflexivity.
Defined.

(** * The guards of SetBadFlag *)

Lemma GetInitKFid_Ok p w r :
  GetInitKFid p w = Ok r ↔
  p ≠ NULL ∧ ∃ m, maps w !! p = Some m ∧ r = (mnInitKFid m, w).
Proof.
  unfold GetInitKFid. rewrite bind_Ok. setoid_rewrite map_get_Ok.
  setoid_rewrite ret_Ok. naive_solver.
Qed.

(** The three ways [SetBadFlag] can go, decided by its first block. *)
Lemma SetBadFlag_unfold this w kf m :
  this ≠ NULL → keyframes w !! this = Some kf →
  mpMap kf ≠ NULL → maps w !! mpMap kf = Some m →
  SetBadFlag this w =
    if decide (mnId kf = mnInitKFid m) then Ok (tt, w)
    else if mbNotErase (conn kf) then
      Ok (tt, set_keyframes
                (<[this := with_conn (set_toBeErased true) kf]> (keyframes w)) w)
    else SetBadFlag_delete this w.
Proof.
  intros Hnn Hkf Hmn Hm. unfold SetBadFlag.
  unfold mbind at 1, Op_bind at 1. rewrite (kf_get_valid _ _ _ Hnn Hkf).
  unfold mbind at 1, Op_bind at 1.
  assert (GetInitKFid (mpMap kf) w = Ok (mnInitKFid m, w)) as ->
    by (apply GetInitKFid_Ok; eauto).
  case_decide; [done|]. destruct (mbNotErase (conn kf)); [|done].
  unfold kf_modify, mbind, Op_bind. by rewrite (kf_get_valid _ _ _ Hnn Hkf).
Qed.

(** C9: SetBadFlag on the keyframe whose id is its map's initial-keyframe
    id returns at once and leaves the whole world as it was: no keyframe
    record changes (bad flag, weight map, ordered list, parent, children,
    landmark slots, to-be-erased flag), and the log of calls to neighbours'
    collaborators, landmarks, map and database gets no entry. *)
Theorem SetBadFlag_root_is_noop this w kf m :
  this ≠ NULL → keyframes w !! this = Some kf →
  mpMap kf ≠ NULL → maps w !! mpMap kf = Some m →
  mnId kf = mnInitKFid m →
  SetBadFlag this w = Ok (tt, w).
Proof.
  intros Hnn Hkf Hmn Hm Hroot.
  rewrite (SetBadFlag_unfold _ _ _ _ Hnn Hkf Hmn Hm). by rewrite decide_True.
Qed.

Lemma SetBadFlag_root_is_noop_witness :
  SetBadFlag 1%nat Fixture.linked = Ok (tt, Fixture.linked).
Proof.
  apply (SetBadFlag_root_is_noop 1%nat Fixture.linked
           (Fixture.at_ Fixture.linked 1%nat) (mkMap 0));
    vm_compute; congruence.
Defined.

(** ** Deferred deletion *)

Lemma kf_modify_valid p f w kf :
  p ≠ NULL → keyframes w !! p = Some kf →
  kf_modify p f w = Ok (tt, set_keyframes (<[p := with_conn f kf]> (keyframes w)) w).
Proof. intros. apply kf_modify_Ok. eauto. Qed.

Lemma set_keyframes_twice h1 h2 w :
  set_keyframes h2 (set_keyframes h1 w) = set_keyframes h2 w.
Proof. done. Qed.

Lemma bad_after_kf_modify_set_bad this w w' :
  kf_modify this (set_bad true) w = Ok (tt, w') →
  ∃ kf', keyframes w' !! this = Some kf' ∧ mbBad (conn kf') = true.
Proof.
  intros Hrun. op_inv Hrun. eexists. split; [apply lookup_insert_eq|done].
Qed.

Lemma SetBadFlag_reattach_bad this w w' :
  SetBadFlag_reattach this w = Ok (tt, w') →
  ∃ kf', keyframes w' !! this = Some kf' ∧ mbBad (conn kf') = true.
Proof.
  unfold SetBadFlag_reattach. intros Hrun.
  do 5 (apply bind_Ok in Hrun as (? & ? & _ & Hrun)).
  by eapply bad_after_kf_modify_set_bad.
Qed.

Lemma SetBadFlag_delete_bad this w w' :
  SetBadFlag_delete this w = Ok (tt, w') →
  ∃ kf', keyframes w' !! this = Some kf' ∧ mbBad (conn kf') = true.
Proof.
  unfold SetBadFlag_delete. intros Hrun.
  apply bind_Ok in Hrun as (? & w1 & _ & Hrun).
  apply bind_Ok in Hrun as ([] & w2 & Hre & Hrun).
  apply SetBadFlag_reattach_bad in Hre as (kf' & Hkf' & Hbad).
  apply bind_Ok in Hrun as (kf2 & w3 & Hget & Hrun). op_inv Hget.
  apply bind_Ok in Hrun as (? & w4 & Hget & Hrun). op_inv Hget.
  apply bind_Ok in Hrun as (? & w5 & Hem & Hrun). op_inv Hem.
  case_decide; op_inv Hrun. eauto.
Qed.

(** C3: a deletion request on a non-root keyframe under the not-erase guard
    deletes nothing: the only change to the world is that keyframe's
    to-be-erased flag, now set.  A later SetErase leaves the guard (and the
    world) as it is while the loop-edge set is non-empty; once that set is
    empty it clears the guard and, the flag being set, runs the deletion
    itself, whose every completed run ends with the keyframe bad. *)
Theorem guarded_deletion_is_deferred this w kf m :
  this ≠ NULL → keyframes w !! this = Some kf →
  mpMap kf ≠ NULL → maps w !! mpMap kf = Some m →
  mnId kf ≠ mnInitKFid m →
  mbNotErase (conn kf) = true →
  SetBadFlag this w = Ok (tt, defer this kf w) ∧
  mbBad (conn (with_conn (set_toBeErased true) kf)) = mbBad (conn kf) ∧
  (mspLoopEdges (conn kf) ≠ ∅ →
     SetErase this (defer this kf w) = Ok (tt, defer this kf w)) ∧
  (mspLoopEdges (conn kf) = ∅ →
     SetErase this (defer this kf w) = SetBadFlag_delete this (lift_guard this kf w) ∧
     ∀ w', SetErase this (defer this kf w) = Ok (tt, w') →
       ∃ kf', keyframes w' !! this = Some kf' ∧ mbBad (conn kf') = true).
Proof.
  intros Hnn Hkf Hmn Hm Hroot Hguard.
  set (kf1 := with_conn (set_toBeErased true) kf).
  assert (Hkf1 : keyframes (defer this kf w) !! this = Some kf1)
    by apply lookup_insert_eq.
  split; [|split; [done|]].
  { rewrite (SetBadFlag_unfold _ _ _ _ Hnn Hkf Hmn Hm).
    rewrite decide_False by done. by rewrite Hguard. }
  assert (Hl : ∀ (k : KeyFrame → Op unit),
             (kf_get this ≫= k) (defer this kf w) = k kf1 (defer this kf w)).
  { intros k. unfold mbind, Op_bind. by rewrite (kf_get_valid _ _ _ Hnn Hkf1). }
  split.
  - intros Hloop. unfold SetErase. rewrite Hl. simpl.
    rewrite decide_False by done.
    unfold mbind at 1, Op_bind at 1. unfold mret at 1, Op_ret at 1.
    rewrite Hl. simpl.
    rewrite (SetBadFlag_unfold _ _ kf1 m Hnn Hkf1 Hmn Hm). simpl.
    rewrite decide_False by done. rewrite Hguard.
    unfold defer. simpl. by rewrite insert_insert_eq.
  - intros Hloop.
    assert (Herase : SetErase this (defer this kf w)
                     = SetBadFlag_delete this (lift_guard this kf w)).
    { unfold SetErase. rewrite Hl. simpl. rewrite decide_True by done.
      unfold mbind at 1, Op_bind at 1.
      rewrite (kf_modify_valid _ _ _ _ Hnn Hkf1).
      assert (Hkf2 : keyframes (lift_guard this kf w) !! this
                     = Some (with_conn (set_notErase false) kf1))
        by apply lookup_insert_eq.
      assert (set_keyframes
                (<[this := with_conn (set_notErase false) kf1]>
                   (keyframes (defer this kf w))) (defer this kf w)
              = lift_guard this kf w) as ->.
      { unfold defer, lift_guard. simpl. by rewrite insert_insert_eq. }
      unfold mbind at 1, Op_bind at 1. rewrite (kf_get_valid _ _ _ Hnn Hkf2).
      simpl.
      rewrite (SetBadFlag_unfold _ _ _ m Hnn Hkf2 Hmn Hm). simpl.
      by rewrite decide_False by done. }
    split; [done|]. intros w' Hrun. rewrite Herase in Hrun.
    by apply SetBadFlag_delete_bad in Hrun.
Qed.


Lemma guarded_deletion_is_deferred_witness :
  let w := Fixture.guarded in
  let kf := Fixture.at_ w 2%nat in
  SetBadFlag 2%nat w = Ok (tt, defer 2%nat kf w) ∧
  mbBad (conn (with_conn (set_toBeErased true) kf)) = mbBad (conn kf) ∧
  (mspLoopEdges (conn kf) ≠ ∅ →
     SetErase 2%nat (defer 2%nat kf w) = Ok (tt, defer 2%nat kf w)) ∧
  (mspLoopEdges (conn kf) = ∅ →
     SetErase 2%nat (defer 2%nat kf w) = SetBadFlag_delete 2%nat (lift_guard 2%nat kf w) ∧
     ∀ w', SetErase 2%nat (defer 2%nat kf w) = Ok (tt, w') →
       ∃ kf', keyframes w' !! 2%nat = Some kf' ∧ mbBad (conn kf') = true).
Proof.
  apply (guarded_deletion_is_deferred 2%nat Fixture.guarded
           (Fixture.at_ Fixture.guarded 2%nat) (mkMap 0));
    vm_compute; congruence.
Defined.

(** The scenario of the specification: keyframe 2 is under the guard when
    its deletion is requested and stays; when the guard is lifted with no
    loop edge the deletion goes through, and with a loop edge it does not. *)
Example deferred_deletion_goes_through :
  let w1 := Fixture.after (SetBadFlag 2%nat) Fixture.guarded in
  let w2 := Fixture.after (SetErase 2%nat) w1 in
  SetBadFlag 2%nat Fixture.guarded = Ok (tt, w1) ∧
  mbBad (conn (Fixture.at_ w1 2%nat)) = false ∧
  mbToBeErased (conn (Fixture.at_ w1 2%nat)) = true ∧
  SetErase 2%nat w1 = Ok (tt, w2) ∧
  mbBad (conn (Fixture.at_ w2 2%nat)) = true.
Proof. vm_compute. done. Qed.

Example deferred_deletion_held_by_loop_edge :
  let w1 := Fixture.after (SetBadFlag 2%nat) Fixture.looped in
  SetBadFlag 2%nat Fixture.looped = Ok (tt, w1) ∧
  SetErase 2%nat w1 = Ok (tt, w1) ∧
  mbBad (conn (Fixture.at_ w1 2%nat)) = false ∧
  mbNotErase (conn (Fixture.at_ w1 2%nat)) = true.
Proof. vm_compute. done. Qed.

(** * Weights on both sides of an edge *)

Lemma fold_each_acc {A S} (J : S → Prop) (body : S → A → Op S) l w :
  (∀ a x r w', x ∈ l → J a → body a x w = Ok (r, w') → w' = w ∧ J r) →
  ∀ acc r w', J acc → fold_each l body acc w = Ok (r, w') → w' = w ∧ J r.
Proof.
  induction l as [|x l IH]; intros Hbody acc r w' HJ Hrun; simpl in Hrun.
  - op_inv Hrun. done.
  - apply bind_Ok in Hrun as (a & w1 & H1 & H2).
    apply Hbody in H1 as [-> HJ1]; [|left|done].
    eapply IH; [|done..]. intros a0 x0 r0 w0 Hx0. apply Hbody. by right.
Qed.

Lemma count_observation_ok kf w acc it r w' :
  tally_ok w kf acc →
  count_observation kf acc it w = Ok (r, w') → w' = w ∧ tally_ok w kf r.
Proof.
  intros Hacc Hrun. unfold count_observation in Hrun.
  bind_get Hrun as ko Hnn Hko.
  case_decide as Hid; [by op_inv Hrun|].
  destruct (mbBad (conn ko)) eqn:Hbad; [by op_inv Hrun|].
  case_decide as Hmap; [by op_inv Hrun|]. op_inv Hrun.
  split; [done|]. intros K c. rewrite lookup_insert. case_decide as HK.
  - intros [= <-]. subst K. split.
    + destruct (acc !! it.1) as [c0|] eqn:Hc0; simpl; [|lia].
      destruct (Hacc _ _ Hc0). lia.
    + split; [done|]. exists ko. split_and!; [done..|].
      by destruct (decide (mpMap ko = mpMap kf)).
  - apply Hacc.
Qed.

Lemma count_mappoint_ok kf w acc pMP r w' :
  tally_ok w kf acc →
  count_mappoint kf acc pMP w = Ok (r, w') → w' = w ∧ tally_ok w kf r.
Proof.
  intros Hacc Hrun. unfold count_mappoint in Hrun.
  case_decide; [by op_inv Hrun|].
  apply bind_Ok in Hrun as (mp & w1 & Hget & Hrun).
  apply mp_get_Ok in Hget as (_ & ? & _ & [= <- ->]).
  destruct (mp_mbBad mp); [by op_inv Hrun|].
  eapply (fold_each_acc (tally_ok w kf)); [|done..].
  intros a x r0 w0 _ Ha. by apply count_observation_ok.
Qed.

Lemma count_covisible_Ok this w KFcounter w' :
  count_covisible this w = Ok (KFcounter, w') →
  w' = w ∧ this ≠ NULL ∧ ∃ kf, keyframes w !! this = Some kf ∧ tally_ok w kf KFcounter.
Proof.
  unfold count_covisible. intros Hrun.
  bind_get Hrun as kf Hnn Hkf.
  apply (fold_each_acc (tally_ok w kf)) in Hrun as [-> Hok].
  - eauto.
  - intros a x r w0 _ Ha. by apply count_mappoint_ok.
  - intros K c. by rewrite lookup_empty.
Qed.

(** ** What the tally counts *)

Lemma count_observation_tally kf w acc it r w' :
  count_observation kf acc it w = Ok (r, w') →
  w' = w ∧ ∀ B, default 0 (r !! B)
    = default 0 (acc !! B)
      + (if bool_decide (B = it.1) && counted w kf B then 1 else 0).
Proof.
  intros Hrun. unfold count_observation in Hrun.
  bind_get Hrun as ko Hnn Hko.
  assert (Hcounted : counted w kf it.1
    = bool_decide (mnId ko ≠ mnId kf) && negb (mbBad (conn ko)) &&
      bool_decide (mpMap ko = mpMap kf)).
  { unfold counted. rewrite Hko. by rewrite bool_decide_eq_true_2. }
  assert (Hskip : counted w kf it.1 = false → ∀ B,
    default 0 (acc !! B)
    = default 0 (acc !! B)
      + (if bool_decide (B = it.1) && counted w kf B then 1 else 0)).
  { intros Hc B. destruct (decide (B = it.1)) as [->|Hne].
    - rewrite Hc, andb_false_r. lia.
    - rewrite (bool_decide_eq_false_2 _ Hne). simpl. lia. }
  case_decide as Hid.
  { op_inv Hrun. split; [done|]. apply Hskip. rewrite Hcounted.
    by rewrite (bool_decide_eq_false_2 (mnId ko ≠ mnId kf)) by naive_solver. }
  destruct (mbBad (conn ko)) eqn:Hbad.
  { op_inv Hrun. split; [done|]. apply Hskip. rewrite Hcounted.
    by rewrite andb_false_r. }
  case_decide as Hmap.
  { op_inv Hrun. split; [done|]. apply Hskip. rewrite Hcounted.
    rewrite (bool_decide_eq_false_2 (mpMap ko = mpMap kf)) by done.
    by rewrite andb_false_r. }
  op_inv Hrun. split; [done|]. intros B.
  destruct (decide (B = it.1)) as [->|Hne].
  - rewrite lookup_insert_eq, Hcounted. simpl.
    rewrite (bool_decide_eq_true_2 (it.1 = it.1)) by done.
    rewrite (bool_decide_eq_true_2 (mnId ko ≠ mnId kf)) by done.
    rewrite (bool_decide_eq_true_2 (mpMap ko = mpMap kf)) by naive_solver.
    done.
  - rewrite lookup_insert_ne by done.
    rewrite (bool_decide_eq_false_2 _ Hne). simpl. lia.
Qed.

Lemma count_observations_tally kf w l :
  NoDup l.*1 →
  ∀ acc r w', fold_each l (count_observation kf) acc w = Ok (r, w') →
  ∀ B, default 0 (r !! B)
    = default 0 (acc !! B)
      + (if bool_decide (B ∈ l.*1) && counted w kf B then 1 else 0).
Proof.
  induction l as [|it l IH]; intros Hnd acc r w' Hrun B; simpl in Hrun.
  - apply ret_Ok in Hrun as [= -> ->]. rewrite fmap_nil.
    rewrite (bool_decide_eq_false_2 (B ∈ [])) by apply not_elem_of_nil.
    simpl. lia.
  - rewrite fmap_cons in Hnd. apply NoDup_cons in Hnd as [Hnin Hnd].
    apply bind_Ok in Hrun as (a & w1 & Hstep & Hrun).
    apply count_observation_tally in Hstep as [-> Ha].
    rewrite (IH Hnd _ _ _ Hrun B), Ha, fmap_cons.
    destruct (decide (B = it.1)) as [->|Hne].
    + rewrite (bool_decide_eq_true_2 (it.1 = it.1)) by done.
      rewrite (bool_decide_eq_false_2 (it.1 ∈ l.*1)) by done.
      rewrite (bool_decide_eq_true_2 (it.1 ∈ it.1 :: l.*1)) by left.
      simpl. lia.
    + rewrite (bool_decide_eq_false_2 _ Hne). simpl.
      rewrite (bool_decide_ext (B ∈ it.1 :: l.*1) (B ∈ l.*1)).
      * lia.
      * rewrite elem_of_cons. naive_solver.
Qed.

Lemma count_mappoint_tally kf w acc pMP r w' :
  count_mappoint kf acc pMP w = Ok (r, w') →
  w' = w ∧ ∀ B, default 0 (r !! B)
    = default 0 (acc !! B)
      + (if slot_counts w B pMP && counted w kf B then 1 else 0).
Proof.
  intros Hrun. unfold count_mappoint in Hrun. unfold slot_counts.
  case_decide as Hnull.
  { apply ret_Ok in Hrun as [= -> ->]. split; [done|]. intros B.
    rewrite (bool_decide_eq_false_2 (pMP ≠ NULL)) by naive_solver. simpl. lia. }
  apply bind_Ok in Hrun as (mp & w1 & Hget & Hrun).
  apply mp_get_Ok in Hget as (_ & ? & Hmp & [= <- ->]).
  rewrite Hmp. rewrite (bool_decide_eq_true_2 (pMP ≠ NULL)) by done.
  destruct (mp_mbBad mp).
  { op_inv Hrun. split; [done|]. intros B. simpl. lia. }
  split.
  { revert Hrun. apply fold_each_readonly. intros a x w0 r0 w0' H0.
    by apply count_observation_tally in H0 as [-> _]. }
  intros B.
  rewrite (count_observations_tally _ _ _ (NoDup_map_items_keys _) _ _ _ Hrun B).
  simpl. f_equal.
  rewrite (bool_decide_ext (B ∈ (map_items (mObservations mp)).*1)
             (is_Some (mObservations mp !! B))); [done|].
  split.
  - intros ([B' c] & -> & Hc%elem_of_map_items)%list_elem_of_fmap. eauto.
  - intros [c Hc]. apply list_elem_of_fmap. exists (B, c).
    split; [done|]. by apply elem_of_map_items.
Qed.

Lemma count_mappoints_tally kf w l :
  ∀ acc r w', fold_each l (count_mappoint kf) acc w = Ok (r, w') →
  ∀ B, default 0 (r !! B)
    = default 0 (acc !! B)
      + (if counted w kf B
         then Z.of_nat (length (filter (λ pMP, slot_counts w B pMP = true) l))
         else 0).
Proof.
  induction l as [|pMP l IH]; intros acc r w' Hrun B; simpl in Hrun.
  - op_inv Hrun. destruct (counted w kf B); simpl; lia.
  - apply bind_Ok in Hrun as (a & w1 & Hstep & Hrun).
    apply count_mappoint_tally in Hstep as [-> Ha].
    rewrite (IH _ _ _ Hrun B), Ha, filter_cons.
    destruct (slot_counts w B pMP) eqn:Hs, (counted w kf B); simpl;
      try rewrite decide_True by done; try rewrite decide_False by done;
      simpl; lia.
Qed.

Lemma count_covisible_tally this w KFcounter w' kf :
  count_covisible this w = Ok (KFcounter, w') →
  keyframes w !! this = Some kf →
  ∀ B, default 0 (KFcounter !! B) = slot_tally w kf B.
Proof.
  unfold count_covisible. intros Hrun Hkf B.
  bind_get Hrun as kf0 Hnn Hkf0. rewrite Hkf in Hkf0. injection Hkf0 as <-.
  rewrite (count_mappoints_tally _ _ _ _ _ _ Hrun B), lookup_empty.
  unfold slot_tally. simpl. done.
Qed.

(** What [UpdateBestCovisibles] and the edge updates leave alone. *)
Lemma weight_of_rebuild w p kf a b :
  weight_of (set_keyframes (<[p := rebuild_ordering w kf]> (keyframes w)) w) a b
  = weight_of (set_keyframes (<[p := kf]> (keyframes w)) w) a b.
Proof.
  unfold weight_of. simpl. rewrite !lookup_insert. by case_decide.
Qed.

Lemma weight_of_insert_id w p kf a b :
  keyframes w !! p = Some kf →
  weight_of (set_keyframes (<[p := kf]> (keyframes w)) w) a b = weight_of w a b.
Proof. intros Hkf. unfold weight_of. simpl. by rewrite insert_id. Qed.

Lemma AddConnection_Ok this pKF weight w w' :
  AddConnection this pKF weight w = Ok (tt, w') →
  this ≠ NULL ∧ ∃ kf kf',
    keyframes w !! this = Some kf ∧
    w' = set_keyframes (<[this := kf']> (keyframes w)) w ∧
    mConnectedKeyFrameWeights (conn kf')
      = <[pKF := weight]> (mConnectedKeyFrameWeights (conn kf)) ∧
    mnId kf' = mnId kf ∧ mpMap kf' = mpMap kf ∧ mbBad (conn kf') = mbBad (conn kf) ∧
    mpParent (conn kf') = mpParent (conn kf) ∧
    mspChildrens (conn kf') = mspChildrens (conn kf).
Proof.
  unfold AddConnection. intros Hrun.
  bind_get Hrun as kf Hnn Hkf.
  split; [done|]. exists kf.
  assert (Hupd : ∀ w',
    (kf_modify this (set_weights (<[pKF:=weight]> (mConnectedKeyFrameWeights (conn kf)))) ;;
     UpdateBestCovisibles this) w = Ok (tt, w') →
    ∃ kf', keyframes w !! this = Some kf ∧
      w' = set_keyframes (<[this := kf']> (keyframes w)) w ∧
      mConnectedKeyFrameWeights (conn kf')
        = <[pKF := weight]> (mConnectedKeyFrameWeights (conn kf)) ∧
      mnId kf' = mnId kf ∧ mpMap kf' = mpMap kf ∧ mbBad (conn kf') = mbBad (conn kf) ∧
      mpParent (conn kf') = mpParent (conn kf) ∧
      mspChildrens (conn kf') = mspChildrens (conn kf)).
  { clear Hrun. intros w'' Hrun.
    apply bind_Ok in Hrun as ([] & w2 & Hmod & Hupd). op_inv Hmod.
    apply UpdateBestCovisibles_Ok in Hupd as (_ & kf2 & Hkf2 & ->).
    simpl in Hkf2. rewrite lookup_insert_eq in Hkf2. simplify_eq.
    eexists. split; [done|]. split.
    { simpl. by rewrite insert_insert_eq. }
    done. }
  destruct (mConnectedKeyFrameWeights (conn kf) !! pKF) as [w0|] eqn:Hw0.
  - case_decide as Hne; [by apply Hupd|]. op_inv Hrun.
    exists kf. split; [done|]. split.
    { destruct w as [h ? ? ? ?]. unfold set_keyframes. simpl in *.
      f_equal. by rewrite insert_id. }
    split; [|done]. symmetry. by apply insert_id.
  - by apply Hupd.
Qed.

Lemma weight_of_modify w p kf f a b :
  keyframes w !! p = Some kf →
  mConnectedKeyFrameWeights (f (conn kf)) = mConnectedKeyFrameWeights (conn kf) →
  weight_of (set_keyframes (<[p := with_conn f kf]> (keyframes w)) w) a b
  = weight_of w a b.
Proof.
  intros Hkf Hf. unfold weight_of. simpl. rewrite lookup_insert.
  case_decide; [subst; rewrite Hkf; simpl; by rewrite Hf|done].
Qed.

Lemma weight_of_insert_ne w p kf a b :
  a ≠ p →
  weight_of (set_keyframes (<[p := kf]> (keyframes w)) w) a b = weight_of w a b.
Proof. intros Hne. unfold weight_of. simpl. by rewrite lookup_insert_ne. Qed.

Lemma AddConnection_weight_of this pKF weight w w' a b :
  AddConnection this pKF weight w = Ok (tt, w') →
  weight_of w' a b =
    if decide (a = this ∧ b = pKF) then Some weight else weight_of w a b.
Proof.
  intros (Hnn & kf & kf' & Hkf & -> & Hw & _)%AddConnection_Ok.
  unfold weight_of. simpl. rewrite lookup_insert. case_decide as Ha.
  - subst a. simpl. rewrite Hw, Hkf. simpl. rewrite lookup_insert.
    case_decide; case_decide; naive_solver.
  - case_decide; naive_solver.
Qed.

Lemma AddConnection_frame this pKF weight w w' q :
  AddConnection this pKF weight w = Ok (tt, w') → q ≠ this →
  keyframes w' !! q = keyframes w !! q.
Proof.
  intros (Hnn & kf & kf' & Hkf & -> & _)%AddConnection_Ok Hq.
  simpl. by rewrite lookup_insert_ne.
Qed.

Lemma GetWeight_Ok p q w r :
  GetWeight p q w = Ok r ↔
  p ≠ NULL ∧ ∃ kf, keyframes w !! p = Some kf ∧
    r = (default 0 (mConnectedKeyFrameWeights (conn kf) !! q), w).
Proof.
  unfold GetWeight. rewrite bind_Ok. setoid_rewrite kf_get_Ok.
  setoid_rewrite ret_Ok. naive_solver.
Qed.

Lemma GetWeight_weight_of p q w c :
  p ≠ NULL → weight_of w p q = Some c → GetWeight p q w = Ok (c, w).
Proof.
  intros Hp Hw. unfold weight_of in Hw.
  destruct (keyframes w !! p) as [kf|] eqn:Hkf; [|done]. simpl in Hw.
  apply GetWeight_Ok. split; [done|]. exists kf. by rewrite Hw.
Qed.

(** The promotion loop over a part [l] of the tally. *)
Lemma promote_loop this (KFcounter : gmap nat Z) l :
  (∀ B c, (B, c) ∈ l → KFcounter !! B = Some c ∧ B ≠ this ∧ 1 ≤ c) →
  ∀ a w a' w',
    fold_each l (promote this) a w = Ok (a', w') →
    keyframes w' !! this = keyframes w !! this ∧
    (∀ c B, (c, B) ∈ vPairs a' ↔ (c, B) ∈ vPairs a ∨ ((B, c) ∈ l ∧ th ≤ c)) ∧
    (∀ B c, KFcounter !! B = Some c → weight_of w B this = Some c →
            weight_of w' B this = Some c) ∧
    (∀ B c, (B, c) ∈ l → th ≤ c → weight_of w' B this = Some c) ∧
    (KFcounter !! pKFmax a = Some (nmax a) ∨ (nmax a = 0 ∧ l ≠ []) →
     KFcounter !! pKFmax a' = Some (nmax a')) ∧
    (l = [] → a' = a) ∧
    nmax a ≤ nmax a' ∧ (∀ B c, (B, c) ∈ l → c ≤ nmax a').
Proof.
  induction l as [|[B c] l IH]; intros Hl a w a' w' Hrun; simpl in Hrun.
  - op_inv Hrun. split_and!; try done.
    + intros c B. rewrite elem_of_nil. naive_solver.
    + intros B c []%elem_of_nil.
    + naive_solver.
    + intros B c []%elem_of_nil.
  - apply bind_Ok in Hrun as (a1 & w1 & Hstep & Hrun).
    destruct (Hl B c) as (HB & HBthis & Hc1); [left|].
    apply IH in Hrun as (Hfr & Hvp & Hst & Hpr & Hmax & _ & Hle & Hub).
    2:{ intros B' c' HB'. apply Hl. by right. }
    unfold promote in Hstep. simpl in Hstep.
    set (a0 := if decide (c > nmax a) then mkPromo c B (vPairs a) else a) in *.
    assert (Ha0vp : vPairs a0 = vPairs a) by (unfold a0; by destruct (decide _)).
    assert (Ha0max : KFcounter !! pKFmax a = Some (nmax a) ∨ nmax a = 0 →
                     KFcounter !! pKFmax a0 = Some (nmax a0)).
    { unfold a0. destruct (decide _); simpl; [done|]. intros [?|?]; [done|lia]. }
    assert (Ha0le : nmax a ≤ nmax a0 ∧ c ≤ nmax a0).
    { unfold a0. destruct (decide _); simpl; lia. }
    assert (Hcases :
      (th ≤ c ∧ AddConnection B this c w = Ok (tt, w1) ∧
       a1 = mkPromo (nmax a0) (pKFmax a0) (vPairs a0 ++ [(c, B)])) ∨
      (c < th ∧ w1 = w ∧ a1 = a0)).
    { case_decide as Hth.
      - left. apply bind_Ok in Hstep as ([] & w2 & Hadd & Hret). op_inv Hret.
        split; [unfold th in *; lia|]. done.
      - right. op_inv Hstep. split; [unfold th in *; lia|]. done. }
    clear Hstep.
    destruct Hcases as [(Hth & Hadd & ->)|(Hth & -> & ->)]; simpl in *.
    + split_and!.
      * rewrite Hfr. by eapply AddConnection_frame.
      * intros c' B'. rewrite Hvp, Ha0vp, elem_of_app, list_elem_of_singleton,
          elem_of_cons. naive_solver.
      * intros B' c' HB' Hw. apply Hst; [done|].
        rewrite (AddConnection_weight_of _ _ _ _ _ _ _ Hadd).
        case_decide as Heq; [|done]. destruct Heq as [-> _]. congruence.
      * intros B' c' [[= -> ->]|Hin]%elem_of_cons Hth'; [|by apply Hpr].
        apply Hst; [done|].
        rewrite (AddConnection_weight_of _ _ _ _ _ _ _ Hadd).
        by rewrite decide_True.
      * intros Hm. apply Hmax. left. apply Ha0max.
        destruct Hm as [?|[? _]]; [by left|by right].
      * done.
      * lia.
      * intros B' c' [[= -> ->]|Hin]%elem_of_cons; [lia|by eapply Hub].
    + split_and!.
      * done.
      * intros c' B'. rewrite Hvp, Ha0vp, elem_of_cons. split.
        -- naive_solver.
        -- intros [?|[[[= -> ->]|?] ?]]; [by left|lia|by right].
      * done.
      * intros B' c' [[= -> ->]|Hin]%elem_of_cons Hth'; [lia|by apply Hpr].
      * intros Hm. apply Hmax. left. apply Ha0max.
        destruct Hm as [?|[? _]]; [by left|by right].
      * done.
      * lia.
      * intros B' c' [[= -> ->]|Hin]%elem_of_cons; [lia|by eapply Hub].
Qed.

(** ** Runs that keep the covisibility rows *)

#[global] Instance same_view_preorder {V} (f : KeyFrame → V) :
  PreOrder (same_view f).
Proof.
  split; [by intros w p|].
  intros w1 w2 w3 H12 H23 p. by rewrite H23, H12.
Qed.

#[global] Instance same_cov_preorder : PreOrder same_cov.
Proof. unfold same_cov. apply _. Qed.

#[global] Instance same_rows_preorder : PreOrder same_rows.
Proof. unfold same_rows. apply _. Qed.

Lemma stays_bind {A B} R `{!PreOrder R} (m : Op A) (k : A → Op B) :
  stays R m → (∀ a, stays R (k a)) → stays R (m ≫= k).
Proof.
  intros Hm Hk w r w' Hrun. apply bind_Ok in Hrun as (a & w1 & H1 & H2).
  etrans; [by eapply Hm|by eapply Hk].
Qed.

Lemma stays_readonly {A} R `{!Reflexive R} (m : Op A) :
  (∀ w r w', m w = Ok (r, w') → w' = w) → stays R m.
Proof. intros Hm w r w' Hrun. by apply Hm in Hrun as ->. Qed.

Lemma stays_ret {A} R `{!Reflexive R} (a : A) : stays R (mret a).
Proof. apply stays_readonly; [done|]. intros w r w' Hrun. by op_inv Hrun. Qed.

Lemma stays_fail {A} R f : stays R (fail (A:=A) f).
Proof. intros w r w' Hrun. by op_inv Hrun. Qed.

Lemma stays_kf_get R `{!Reflexive R} p : stays R (kf_get p).
Proof. apply stays_readonly; [done|]. intros w r w' Hrun. by op_inv Hrun. Qed.

Lemma stays_map_get R `{!Reflexive R} p : stays R (map_get p).
Proof. apply stays_readonly; [done|]. intros w r w' Hrun. by op_inv Hrun. Qed.

Lemma stays_fold_each {A S} R `{!PreOrder R} (body : S → A → Op S) l acc :
  (∀ a x, stays R (body a x)) → stays R (fold_each l body acc).
Proof.
  intros Hb. revert acc. induction l as [|x l IH]; intros acc.
  - change (stays R (mret (M:=Op) acc)). apply stays_ret, _.
  - change (stays R (body acc x ≫= λ a, fold_each l body a)).
    apply stays_bind; [done|apply Hb|]. intros a. apply IH.
Qed.

Lemma stays_for_each {A} R `{!PreOrder R} (body : A → Op unit) l :
  (∀ x, stays R (body x)) → stays R (for_each l body).
Proof.
  intros Hb. induction l as [|x l IH].
  - change (stays R (mret (M:=Op) tt)). apply stays_ret, _.
  - change (stays R (body x ≫= λ _, for_each l body)).
    apply stays_bind; [done|apply Hb|]. intros a. apply IH.
Qed.

Lemma same_view_insert {V} (f : KeyFrame → V) w p kf kf' :
  keyframes w !! p = Some kf → f kf' = f kf →
  same_view f w (set_keyframes (<[p := kf']> (keyframes w)) w).
Proof.
  intros Hkf Hv q. simpl. rewrite lookup_insert.
  case_decide; [subst; rewrite Hkf; simpl; by rewrite Hv|done].
Qed.

Lemma stays_kf_modify_view {V} (f : KeyFrame → V) p g :
  (∀ kf, f (with_conn g kf) = f kf) →
  stays (same_view f) (kf_modify p g).
Proof. intros Hf w r w' Hrun. op_inv Hrun. by eapply same_view_insert. Qed.

Lemma stays_emit R `{!Reflexive R} e :
  (∀ w, R w (add_event e w)) → stays R (emit e).
Proof. intros He w r w' Hrun. op_inv Hrun. apply He. Qed.

Lemma same_view_add_event {V} (f : KeyFrame → V) e w :
  same_view f w (add_event e w).
Proof. by intros p. Qed.

Lemma stays_mp_get R `{!Reflexive R} p : stays R (mp_get p).
Proof. apply stays_readonly; [done|]. intros w r w' Hrun. by op_inv Hrun. Qed.


Ltac stays_step :=
  match goal with
  | |- stays _ (_ ≫= _) => apply stays_bind; [apply _| |intros ?]
  | |- stays _ (mret _) => apply stays_ret; apply _
  | |- stays _ (fail _) => apply stays_fail
  | |- stays _ (kf_get _) => apply stays_kf_get; apply _
  | |- stays _ (map_get _) => apply stays_map_get; apply _
  | |- stays _ (fold_each _ _ _) => apply stays_fold_each; [apply _|intros ??]
  | |- stays _ (for_each _ _) => apply stays_for_each; [apply _|intros ?]
  | |- stays _ (mp_get _) => apply stays_mp_get; apply _
  | |- stays same_cov (kf_modify _ _) =>
      apply (stays_kf_modify_view cov_view); by intros []
  | |- stays same_rows (kf_modify _ _) =>
      apply (stays_kf_modify_view rows_view); by intros []
  | |- stays same_cov (emit _) =>
      apply stays_emit; [apply _|apply same_view_add_event]
  | |- stays same_rows (emit _) =>
      apply stays_emit; [apply _|apply same_view_add_event]
  | |- stays _ (if ?b then _ else _) => destruct b
  | |- stays _ (match ?x with _ => _ end) => destruct x
  end.

Lemma stays_AddChild this pKF : stays same_cov (AddChild this pKF).
Proof. unfold AddChild. stays_step. Qed.

Lemma stays_EraseChild this pKF : stays same_cov (EraseChild this pKF).
Proof. unfold EraseChild. stays_step. Qed.

Lemma stays_ChangeParent this pKF : stays same_cov (ChangeParent this pKF).
Proof. unfold ChangeParent, AddChild. repeat stays_step. Qed.

Lemma stays_first_connection this : stays same_cov (first_connection this).
Proof. unfold first_connection, GetInitKFid, AddChild. repeat stays_step. Qed.

Lemma same_cov_weight_of w w' a b :
  same_cov w w' → weight_of w' a b = weight_of w a b.
Proof.
  intros H. specialize (H a). unfold weight_of. simpl in H.
  destruct (keyframes w' !! a) as [k'|], (keyframes w !! a) as [k|];
    simpl in *; try done.
  unfold cov_view in H. injection H as _ _ Hw _ _. by rewrite Hw.
Qed.

Lemma elem_of_reverse_snd_sort v B :
  B ∈ reverse (std_sort v).*2 ↔ ∃ c, (c, B) ∈ v.
Proof.
  rewrite elem_of_reverse, list_elem_of_fmap. split.
  - intros ([c B'] & -> & Hin). exists c. by apply elem_of_std_sort.
  - intros [c Hin]. exists (c, B). split; [done|]. by apply elem_of_std_sort.
Qed.

Lemma promote_loop_frame this l : ∀ a w a' w',
  fold_each l (promote this) a w = Ok (a', w') →
  ∀ q, (∀ c, (q, c) ∈ l → c < th) → keyframes w' !! q = keyframes w !! q.
Proof.
  induction l as [|[B c] l IH]; intros a w a' w' Hrun q Hq; simpl in Hrun.
  - by apply ret_Ok in Hrun as [= -> ->].
  - apply bind_Ok in Hrun as (a1 & w1 & Hstep & Hrun).
    rewrite (IH _ _ _ _ Hrun q) by (intros c' Hin; apply Hq; by right).
    unfold promote in Hstep. simpl in Hstep. case_decide as Hth.
    + apply bind_Ok in Hstep as ([] & w2 & Hadd & Hret).
      apply ret_Ok in Hret as [= -> ->].
      eapply AddConnection_frame; [done|]. intros ->.
      assert (c < th) by (apply Hq; by left). lia.
    + by apply ret_Ok in Hstep as [= -> ->].
Qed.

Lemma first_connection_frame this w w' kf :
  first_connection this w = Ok (tt, w') → keyframes w !! this = Some kf →
  ∀ q, q ≠ this → q ∉ mvpOrderedConnectedKeyFrames (conn kf) →
  keyframes w' !! q = keyframes w !! q.
Proof.
  unfold first_connection. intros Hrun Hkf q Hq Hnin.
  bind_get Hrun as kf0 Hnn Hkf0. rewrite Hkf in Hkf0. injection Hkf0 as <-.
  destruct (mbFirstConnection (conn kf)); [|by apply ret_Ok in Hrun as [= ->]].
  apply bind_Ok in Hrun as (init & w1 & Hinit & Hrun).
  apply GetInitKFid_Ok in Hinit as (_ & m & _ & [= -> ->]).
  case_decide; [|by apply ret_Ok in Hrun as [= ->]].
  destruct (mvpOrderedConnectedKeyFrames (conn kf)) as [|front rest] eqn:Hl;
    [by op_inv Hrun|].
  apply not_elem_of_cons in Hnin as [Hfront _].
  unfold AddChild in Hrun. op_inv Hrun.
  by rewrite !lookup_insert_ne by done.
Qed.

Lemma std_sort_singleton x : std_sort [x] = [x].
Proof.
  apply Permutation_singleton_r. unfold std_sort.
  by rewrite merge_sort_Permutation.
Qed.

(** C1 (amended): a call UpdateConnections(A) that completes computes, for
    every keyframe B, the tally of B: the number of slots of A whose
    landmark is not null, not bad and has an observation by B, for B
    another keyframe (by id) of the same map that is not bad, and 0
    otherwise; a landmark held in two slots counts twice.  When some tally
    is positive, A's weight map becomes the whole tally and A's cached list
    holds exactly the promoted keyframes: every one whose tally is at least
    15, or, when there is none, exactly one keyframe, of maximal tally.  For
    every promoted B the weight stored on A's side for B and the weight
    stored on B's side for A are both the tally of B.  Every other keyframe
    than A that is not promoted is left as it was: nothing is written on
    its side. *)
Theorem UpdateConnections_symmetric_on_promoted this upParent w w' :
  UpdateConnections this upParent w = Ok (tt, w') →
  ∃ kf KFcounter,
    keyframes w !! this = Some kf ∧
    count_covisible this w = Ok (KFcounter, w) ∧
    (∀ B, default 0 (KFcounter !! B) = slot_tally w kf B) ∧
    (∀ B c, KFcounter !! B = Some c → 1 ≤ c) ∧
    (KFcounter = ∅ → w' = w) ∧
    (KFcounter ≠ ∅ →
     ∃ kf', keyframes w' !! this = Some kf' ∧
       mConnectedKeyFrameWeights (conn kf') = KFcounter ∧
       mvpOrderedConnectedKeyFrames (conn kf') ≠ [] ∧
       (∀ B c, KFcounter !! B = Some c → th ≤ c →
               B ∈ mvpOrderedConnectedKeyFrames (conn kf')) ∧
       (∀ B, B ∈ mvpOrderedConnectedKeyFrames (conn kf') →
         ∃ c, KFcounter !! B = Some c ∧ c = slot_tally w kf B ∧
              (th ≤ c ∨
               (mvpOrderedConnectedKeyFrames (conn kf') = [B] ∧
                ∀ B' c', KFcounter !! B' = Some c' → c' ≤ c)) ∧
              GetWeight this B w' = Ok (c, w') ∧
              GetWeight B this w' = Ok (c, w')) ∧
       (∀ B, B ≠ this → B ∉ mvpOrderedConnectedKeyFrames (conn kf') →
             keyframes w' !! B = keyframes w !! B)).
Proof.
  unfold UpdateConnections. intros Hrun.
  apply bind_Ok in Hrun as (KFcounter & w1 & Hcount & Hrun).
  pose proof Hcount as Hc.
  apply count_covisible_Ok in Hc as (-> & Hnn & kf & Hkf & Htally).
  pose proof (count_covisible_tally _ _ _ _ _ Hcount Hkf) as Hslots.
  exists kf, KFcounter. split; [done|]. split; [done|]. split; [done|].
  split; [intros B c HB; by destruct (Htally _ _ HB)|].
  case_decide as Hemp.
  { op_inv Hrun. split; [done|]. by intros []. }
  split; [done|]. intros _.
  apply bind_Ok in Hrun as (a & w2 & Hloop & Hrun).
  assert (Hitems : ∀ B c, (B, c) ∈ map_items KFcounter →
                          KFcounter !! B = Some c ∧ B ≠ this ∧ 1 ≤ c).
  { intros B c HB%elem_of_map_items. split; [done|].
    destruct (Htally _ _ HB) as (Hc1 & _ & ko & Hko & Hid & _).
    split; [|done]. intros ->. congruence. }
  assert (Hne : map_items KFcounter ≠ []).
  { destruct (map_choose _ Hemp) as (B & c & HB).
    apply elem_of_map_items in HB. intros Hnil. rewrite Hnil in HB.
    by apply elem_of_nil in HB. }
  pose proof (promote_loop_frame _ _ _ _ _ _ Hloop) as Hframe2.
  eapply promote_loop in Hloop
    as (Hfr & Hvp & _ & Hpr & Hmax & _ & _ & Hub); [|done].
  simpl in Hvp, Hmax.
  specialize (Hmax (or_intror (conj eq_refl Hne))).
  apply bind_Ok in Hrun as (vp & w3 & Hvps & Hrun).
  assert (Hafter :
    keyframes w3 !! this = Some kf ∧ vp ≠ [] ∧
    (∀ B c, KFcounter !! B = Some c → th ≤ c → (c, B) ∈ vp) ∧
    (∀ c B, (c, B) ∈ vp →
      KFcounter !! B = Some c ∧ weight_of w3 B this = Some c ∧
      (th ≤ c ∨
       (vp = [(c, B)] ∧ ∀ B' c', KFcounter !! B' = Some c' → c' ≤ c))) ∧
    (∀ q, (∀ c, (c, q) ∉ vp) → keyframes w3 !! q = keyframes w !! q)).
  { case_decide as Hnil.
    - apply bind_Ok in Hvps as ([] & w4 & Hadd & Hret). op_inv Hret.
      assert (pKFmax a ≠ this).
      { destruct (Htally _ _ Hmax) as (_ & _ & ko & Hko & Hid & _).
        intros Heq. rewrite Heq in Hko. congruence. }
      assert (Hbelow : ∀ B c, KFcounter !! B = Some c → c < th).
      { intros B c HB. destruct (decide (th ≤ c)) as [Hth|]; [|lia].
        assert ((c, B) ∈ vPairs a) as Hin.
        { apply Hvp. right. split; [|done]. by apply elem_of_map_items. }
        rewrite Hnil in Hin. by apply elem_of_nil in Hin. }
      split_and!.
      + rewrite (AddConnection_frame _ _ _ _ _ this Hadd) by done. congruence.
      + done.
      + intros B c HB Hth. specialize (Hbelow _ _ HB). lia.
      + intros c B [= -> ->]%list_elem_of_singleton. split_and!; [done| |].
        * rewrite (AddConnection_weight_of _ _ _ _ _ _ _ Hadd).
          by rewrite decide_True.
        * right. split; [done|]. intros B' c' HB'. apply (Hub B').
          by apply elem_of_map_items.
      + intros q Hq.
        rewrite (AddConnection_frame _ _ _ _ _ q Hadd).
        * apply Hframe2. intros c Hc%elem_of_map_items. by eapply Hbelow.
        * intros ->. apply (Hq (nmax a)). by left.
    - op_inv Hvps. split_and!.
      + congruence.
      + done.
      + intros B c HB Hth. apply Hvp. right. split; [|done].
        by apply elem_of_map_items.
      + intros c B Hin. apply Hvp in Hin as [[]%elem_of_nil|[HB Hth]].
        split_and!; [by apply elem_of_map_items|by apply Hpr|by left].
      + intros q Hq. apply Hframe2. intros c Hc.
        destruct (decide (th ≤ c)) as [Hth|]; [|lia].
        exfalso. apply (Hq c). apply Hvp. by right. }
  clear Hvps Hvp Hpr Hmax Hub Hfr Hframe2.
  destruct Hafter as (Hthis3 & Hvpne & Hall & Hvp & Hframe3).
  apply bind_Ok in Hrun as ([] & w4 & Hmod & Htail).
  apply kf_modify_Ok in Hmod as (_ & kf3 & Hkf3 & [= ->]).
  rewrite Hthis3 in Hkf3. injection Hkf3 as <-.
  pose proof (first_connection_frame _ _ _ _ Htail (lookup_insert_eq _ _ _))
    as Hframe4.
  apply stays_first_connection in Htail.
  set (kf4 := with_conn _ kf) in *.
  pose proof (Htail this) as Hview. simpl in Hview.
  rewrite lookup_insert_eq in Hview.
  destruct (keyframes w' !! this) as [kf'|] eqn:Hkf'; [|done].
  simpl in Hview. unfold cov_view in Hview.
  injection Hview as _ _ Hweights Hordered _. simpl in Hweights, Hordered.
  exists kf'. split; [done|]. split; [done|]. rewrite Hordered.
  split_and!.
  - intros Hnil. apply (f_equal length) in Hnil.
    rewrite length_reverse, length_fmap in Hnil.
    assert (Hlen : length (std_sort vp) = length vp)
      by (unfold std_sort; by rewrite merge_sort_Permutation).
    destruct vp; [done|]. simpl in *. lia.
  - intros B c HB Hth. apply elem_of_reverse_snd_sort. eauto.
  - intros B [c Hin]%elem_of_reverse_snd_sort.
    destruct (Hvp _ _ Hin) as (HB & Hw & Hmaxc).
    destruct (Htally _ _ HB) as (_ & HBnn & _).
    exists c. split_and!; [done| | | |].
    + by rewrite <- Hslots, HB.
    + destruct Hmaxc as [?|[-> Hmaxc]]; [by left|right]. split; [|done].
      by rewrite std_sort_singleton.
    + apply GetWeight_Ok. split; [done|]. exists kf'. split; [done|].
      by rewrite Hweights, HB.
    + apply GetWeight_weight_of; [done|].
      rewrite (same_cov_weight_of _ _ _ _ Htail).
      rewrite weight_of_insert_ne; [done|].
      destruct (Htally _ _ HB) as (_ & _ & ko & Hko & Hid & _).
      intros ->. congruence.
  - intros B HB Hnin. rewrite Hframe4; [|done|].
    + simpl. rewrite lookup_insert_ne by done. apply Hframe3.
      intros c Hin. apply Hnin, elem_of_reverse_snd_sort. eauto.
    + done.
Qed.

(** C1 as stated fails: after UpdateConnections(1), keyframe 1 stores weight
    1 for keyframe 3 (one shared landmark, below the threshold while
    keyframe 2 reaches it), and keyframe 3 stores nothing for keyframe 1. *)
Lemma UpdateConnections_asymmetric_below_threshold :
  let w' := Fixture.after (UpdateConnections 1%nat true) Fixture.covis in
  UpdateConnections 1%nat true Fixture.covis = Ok (tt, w') ∧
  GetWeight 1%nat 3%nat w' = Ok (1, w') ∧
  GetWeight 3%nat 1%nat w' = Ok (0, w').
Proof. vm_compute. done. Qed.

Lemma UpdateConnections_symmetric_on_promoted_witness :
  let w := Fixture.covis in
  let w' := Fixture.after (UpdateConnections 1%nat true) w in
  ∃ kf KFcounter,
    keyframes w !! 1%nat = Some kf ∧
    count_covisible 1%nat w = Ok (KFcounter, w) ∧
    (∀ B, default 0 (KFcounter !! B) = slot_tally w kf B) ∧
    (∀ B c, KFcounter !! B = Some c → 1 ≤ c) ∧
    (KFcounter = ∅ → w' = w) ∧
    (KFcounter ≠ ∅ →
     ∃ kf', keyframes w' !! 1%nat = Some kf' ∧
       mConnectedKeyFrameWeights (conn kf') = KFcounter ∧
       mvpOrderedConnectedKeyFrames (conn kf') ≠ [] ∧
       (∀ B c, KFcounter !! B = Some c → th ≤ c →
               B ∈ mvpOrderedConnectedKeyFrames (conn kf')) ∧
       (∀ B, B ∈ mvpOrderedConnectedKeyFrames (conn kf') →
         ∃ c, KFcounter !! B = Some c ∧ c = slot_tally w kf B ∧
              (th ≤ c ∨
               (mvpOrderedConnectedKeyFrames (conn kf') = [B] ∧
                ∀ B' c', KFcounter !! B' = Some c' → c' ≤ c)) ∧
              GetWeight 1%nat B w' = Ok (c, w') ∧
              GetWeight B 1%nat w' = Ok (c, w')) ∧
       (∀ B, B ≠ 1%nat → B ∉ mvpOrderedConnectedKeyFrames (conn kf') →
             keyframes w' !! B = keyframes w !! B)).
Proof.
  apply (UpdateConnections_symmetric_on_promoted 1%nat true Fixture.covis).
  vm_compute. reflexivity.
Defined.

(** * The bad flag *)

#[global] Instance bad_mono_preorder : PreOrder bad_mono.
Proof.
  split; [intros w p kf; eauto|].
  intros w1 w2 w3 H12 H23 p kf Hkf Hbad.
  destruct (H12 _ _ Hkf Hbad) as (kf2 & Hkf2 & Hbad2). eauto.
Qed.











Lemma scan_candidate_readonly pKF pConn b spc w r w' :
  scan_candidate pKF pConn b spc w = Ok (r, w') → w' = w.
Proof.
  unfold scan_candidate. intros Hrun.
  bind_get Hrun as kc Hnn1 Hkc. bind_get Hrun as ks Hnn2 Hks.
  case_decide; [|by op_inv Hrun].
  apply bind_Ok in Hrun as (wt & w2 & Hwt & Hrun).
  apply GetWeight_Ok in Hwt as (_ & ? & _ & [= -> ->]). by op_inv Hrun.
Qed.

Lemma scan_connected_readonly pKF cands b pConn w r w' :
  scan_connected pKF cands b pConn w = Ok (r, w') → w' = w.
Proof.
  unfold scan_connected. apply fold_each_readonly.
  intros *. apply scan_candidate_readonly.
Qed.

Lemma scan_child_readonly cands b pKF w r w' :
  scan_child cands b pKF w = Ok (r, w') → w' = w.
Proof.
  unfold scan_child. intros Hrun.
  apply bind_Ok in Hrun as (bad & w1 & Hbad & Hrun).
  apply isBad_Ok in Hbad as (_ & kfx & _ & [= -> ->]).
  destruct (mbBad (conn kfx)); [by op_inv Hrun|].
  apply bind_Ok in Hrun as (vp & w2 & Hvp & Hrun).
  unfold GetVectorCovisibleKeyFrames in Hvp. op_inv Hvp.
  revert Hrun. apply fold_each_readonly.
  intros *. apply scan_connected_readonly.
Qed.

Lemma scan_children_readonly this cands w r w' :
  scan_children this cands w = Ok (r, w') → w' = w.
Proof.
  unfold scan_children. intros Hrun. bind_get Hrun as kf Hnn Hkf.
  revert Hrun. apply fold_each_readonly.
  intros *. apply scan_child_readonly.
Qed.




(** * Save and restore *)

Lemma backup_mappoint_readonly kf spMP acc i w r w' :
  backup_mappoint kf spMP acc i w = Ok (r, w') → w' = w.
Proof.
  unfold backup_mappoint. destruct (_ !! _); intros Hrun; [|by op_inv Hrun].
  case_decide; [|by op_inv Hrun].
  apply bind_Ok in Hrun as (mp & w1 & Hget & Hrun).
  apply mp_get_Ok in Hget as (_ & ? & _ & [= -> ->]). by op_inv Hrun.
Qed.

Lemma backup_weight_readonly spKF acc it w r w' :
  backup_weight spKF acc it w = Ok (r, w') → w' = w.
Proof.
  unfold backup_weight. intros Hrun. case_decide; [|by op_inv Hrun].
  bind_get Hrun as k Hnn Hk. by op_inv Hrun.
Qed.

Lemma backup_id_Ok p (spKF : gset nat) w r w' :
  backup_id p spKF w = Ok (r, w') →
  w' = w ∧
  ((p ≠ NULL ∧ p ∈ spKF ∧ ∃ k, keyframes w !! p = Some k ∧ r = mnId k) ∨
   (¬ (p ≠ NULL ∧ p ∈ spKF) ∧ r = -1)).
Proof.
  unfold backup_id. intros Hrun. case_decide as Hp.
  - bind_get Hrun as k Hnn Hk. op_inv Hrun. split; [done|]. left.
    destruct Hp. eauto.
  - op_inv Hrun. split; [done|]. by right.
Qed.

Lemma backup_cam_id_readonly p spCam w r w' :
  backup_cam_id p spCam w = Ok (r, w') → w' = w.
Proof.
  unfold backup_cam_id. intros Hrun. case_decide; by op_inv Hrun.
Qed.

(** The ids pushed for the saved members of a list of pointers. *)
Lemma backup_ids_fold (spKF : gset nat) l acc w r w' :
  fold_each l
    (λ acc pKFi, if decide (pKFi ∈ spKF)
                 then (k ← kf_get pKFi; mret (acc ++ [mnId k]))
                 else mret acc) acc w = Ok (r, w') →
  w' = w ∧
  Forall2 (λ p id, ∃ k, keyframes w !! p = Some k ∧ id = mnId k)
    (filter (λ p, p ∈ spKF) l) (drop (length acc) r) ∧
  take (length acc) r = acc.
Proof.
  revert acc. induction l as [|p l IH]; intros acc Hrun; simpl in Hrun.
  - op_inv Hrun. rewrite drop_all, take_ge by done. by split_and!.
  - apply bind_Ok in Hrun as (a & w1 & Hstep & Hrun). rewrite filter_cons.
    destruct (decide (p ∈ spKF)) as [Hin|Hnin].
    + bind_get Hstep as k Hnn Hk. op_inv Hstep.
      apply IH in Hrun as (-> & Hall & Htake). split; [done|].
      rewrite length_app in Hall, Htake. simpl in *.
      assert (Hr : r = acc ++ mnId k :: drop (length acc + 1) r).
      { rewrite <-(take_drop (length acc + 1) r) at 1. rewrite Htake.
        by rewrite <-app_assoc. }
      split.
      * rewrite Hr at 1. rewrite drop_app_length. constructor; [eauto|done].
      * rewrite Hr. by rewrite take_app_length.
    + op_inv Hstep. by apply IH in Hrun.
Qed.

Lemma backup_ids_Ok s (spKF : gset nat) w r w' :
  backup_ids s spKF w = Ok (r, w') →
  w' = w ∧
  Forall2 (λ p id, ∃ k, keyframes w !! p = Some k ∧ id = mnId k)
    (filter (λ p, p ∈ spKF) (set_items s)) r.
Proof.
  unfold backup_ids. intros (-> & Hall & _)%backup_ids_fold. by split.
Qed.

(** The state in which [PreSave] leaves the keyframe. *)
Lemma PreSave_Ok this spKF spMP spCam w w' :
  PreSave this spKF spMP spCam w = Ok (tt, w') →
  this ≠ NULL ∧ ∃ kf b,
    keyframes w !! this = Some kf ∧
    w' = set_keyframes (<[this := set_backup b kf]> (keyframes w)) w ∧
    fold_each (map_items (mConnectedKeyFrameWeights (conn kf)))
      (backup_weight spKF) ∅ w = Ok (mBackupConnectedKeyFrameIdWeights b, w) ∧
    backup_id (mpParent (conn kf)) spKF w = Ok (mBackupParentId b, w) ∧
    backup_ids (mspChildrens (conn kf)) spKF w = Ok (mvBackupChildrensId b, w) ∧
    backup_ids (mspLoopEdges (conn kf)) spKF w = Ok (mvBackupLoopEdgesId b, w) ∧
    backup_ids (mspMergeEdges (conn kf)) spKF w = Ok (mvBackupMergeEdgesId b, w).
Proof.
  unfold PreSave. intros Hrun. bind_get Hrun as kf Hnn Hkf.
  apply bind_Ok in Hrun as (mpids & w1 & H1 & Hrun).
  apply fold_each_readonly in H1 as ->;
    [|intros *; apply backup_mappoint_readonly].
  apply bind_Ok in Hrun as (ws & w2 & H2 & Hrun).
  pose proof H2 as H2'. apply fold_each_readonly in H2' as ->;
    [|intros *; apply backup_weight_readonly].
  apply bind_Ok in Hrun as (parent & w3 & H3 & Hrun).
  pose proof H3 as H3'. apply backup_id_Ok in H3' as [-> _].
  apply bind_Ok in Hrun as (childs & w4 & H4 & Hrun).
  pose proof H4 as H4'. apply backup_ids_Ok in H4' as [-> _].
  apply bind_Ok in Hrun as (loops & w5 & H5 & Hrun).
  pose proof H5 as H5'. apply backup_ids_Ok in H5' as [-> _].
  apply bind_Ok in Hrun as (merges & w6 & H6 & Hrun).
  pose proof H6 as H6'. apply backup_ids_Ok in H6' as [-> _].
  apply bind_Ok in Hrun as (cam & w7 & H7 & Hrun).
  apply backup_cam_id_readonly in H7 as ->.
  apply bind_Ok in Hrun as (cam2 & w8 & H8 & Hrun).
  apply backup_cam_id_readonly in H8 as ->.
  apply bind_Ok in Hrun as (prev & w9 & H9 & Hrun).
  apply backup_id_Ok in H9 as [-> _].
  apply bind_Ok in Hrun as (next & w10 & H10 & Hrun).
  apply backup_id_Ok in H10 as [-> _].
  op_inv Hrun. split; [done|]. eexists kf, _. split; [done|].
  split; [done|]. simpl. by split_and!.
Qed.

(** ** Maps and sets rebuilt by folds *)

Lemma foldl_insert_lookup {K V K'} `{Countable K'} (f : K → K')
    (l : list (K * V)) j v :
  NoDup (f <$> l.*1) →
  foldl (λ (acc : gmap K' V) it, <[f it.1 := it.2]> acc) ∅ l !! j = Some v ↔
  ∃ k, (k, v) ∈ l ∧ f k = j.
Proof.
  induction l as [|[k0 v0] l IH] using rev_ind; intros Hnd.
  - simpl. rewrite lookup_empty. split; [done|]. by intros (? & []%elem_of_nil & _).
  - rewrite foldl_snoc. simpl. rewrite fmap_app, fmap_app in Hnd. simpl in Hnd.
    apply NoDup_app in Hnd as (Hnd & Hdisj & _).
    rewrite lookup_insert. case_decide as Hj.
    + subst j. split.
      * intros [= <-]. exists k0. split; [|done]. apply elem_of_app. right. by left.
      * intros (k & [Hin|Hin%list_elem_of_singleton]%elem_of_app & Hf).
        -- exfalso. apply (Hdisj (f k0)); [|by left].
           rewrite <-Hf. apply list_elem_of_fmap. exists k. split; [done|].
           apply list_elem_of_fmap. by exists (k, v).
        -- by injection Hin as -> ->.
    + rewrite IH by done. split.
      * intros (k & Hin & Hf). exists k. split; [|done]. apply elem_of_app. by left.
      * intros (k & [Hin|Hin%list_elem_of_singleton]%elem_of_app & Hf); [eauto|].
        injection Hin as -> ->. done.
Qed.

Lemma elem_of_foldl_union {A} `{Countable B} (f : A → B) (l : list A) q :
  q ∈ foldl (λ (acc : gset B) x, acc ∪ {[f x]}) ∅ l ↔ ∃ x, x ∈ l ∧ f x = q.
Proof.
  induction l as [|x0 l IH] using rev_ind.
  - simpl. split; [set_solver|]. by intros (? & []%elem_of_nil & _).
  - rewrite foldl_snoc, elem_of_union, IH, elem_of_singleton. split.
    + intros [Hx|Hq].
      * destruct Hx as (x & Hin & Hf).
        exists x. split; [|done]. apply elem_of_app. by left.
      * exists x0. split; [|done]. apply elem_of_app. right. by left.
    + intros (x & [Hin | ->%list_elem_of_singleton]%elem_of_app & Hf); eauto.
Qed.

Lemma elem_of_fst_exists {A B} (l : list (A * B)) a :
  a ∈ l.*1 → ∃ b, (a, b) ∈ l.
Proof. intros ([a' b] & -> & Hin)%list_elem_of_fmap. eauto. Qed.

Lemma idof_lookup w p k : keyframes w !! p = Some k → idof w p = mnId k.
Proof. unfold idof. by intros ->. Qed.

Lemma dict_inverts_idof w spKF mpKFid p :
  dict_inverts w spKF mpKFid → p ∈ spKF →
  dict_at mpKFid (idof w p) = p ∧ 0 ≤ idof w p.
Proof.
  intros Hd Hp. destruct (Hd _ Hp) as (k & Hk & Hpos & Hdict).
  rewrite (idof_lookup _ _ _ Hk). unfold dict_at. by rewrite Hdict.
Qed.

Lemma dict_inverts_inj w spKF mpKFid p q :
  dict_inverts w spKF mpKFid → p ∈ spKF → q ∈ spKF →
  idof w p = idof w q → p = q.
Proof.
  intros Hd Hp Hq Heq.
  destruct (dict_inverts_idof _ _ _ _ Hd Hp) as [<- _].
  destruct (dict_inverts_idof _ _ _ _ Hd Hq) as [<- _]. by rewrite Heq.
Qed.

(** The backup of the weight map, as a pure fold. *)
Lemma backup_weight_fold (spKF : gset nat) l acc w r w' :
  Forall (λ it : nat * Z, it.1 ∈ spKF) l →
  fold_each l (backup_weight spKF) acc w = Ok (r, w') →
  r = foldl (λ acc it, <[idof w it.1 := it.2]> acc) acc l.
Proof.
  revert acc. induction l as [|it l IH]; intros acc Hall Hrun; simpl in Hrun.
  - by op_inv Hrun.
  - apply Forall_cons in Hall as [Hit Hall].
    apply bind_Ok in Hrun as (a & w1 & Hstep & Hrun).
    unfold backup_weight in Hstep. rewrite decide_True in Hstep by done.
    bind_get Hstep as k Hnn Hk. op_inv Hstep.
    apply IH in Hrun; [|done]. simpl. by rewrite (idof_lookup _ _ _ Hk).
Qed.

Lemma restore_weights_roundtrip w (spKF : gset nat) mpKFid (m : gmap nat Z) bw :
  dict_inverts w spKF mpKFid → dom m ⊆ spKF →
  fold_each (map_items m) (backup_weight spKF) ∅ w = Ok (bw, w) →
  restore_weights mpKFid bw = m.
Proof.
  intros Hd Hdom Hrun.
  assert (Hkeys : ∀ p v, (p, v) ∈ map_items m → p ∈ spKF).
  { intros p v Hin%elem_of_map_items. apply Hdom, elem_of_dom. eauto. }
  apply backup_weight_fold in Hrun.
  2:{ apply Forall_forall. intros [p v] Hin. simpl. eauto. }
  assert (Hbw : ∀ j v, bw !! j = Some v ↔ ∃ p, m !! p = Some v ∧ idof w p = j).
  { intros j v. rewrite Hrun, foldl_insert_lookup.
    - by setoid_rewrite elem_of_map_items.
    - apply NoDup_fmap_2_strong; [|apply NoDup_map_items_keys].
      intros p q [vp Hp]%elem_of_fst_exists
                 [vq Hq]%elem_of_fst_exists Heq.
      eapply dict_inverts_inj; eauto. }
  apply map_eq. intros q. apply option_eq. intros v.
  unfold restore_weights. rewrite foldl_insert_lookup.
  - setoid_rewrite elem_of_idmap_items. setoid_rewrite Hbw. split.
    + intros (j & (p & Hp & <-) & Hq).
      destruct (dict_inverts_idof w spKF mpKFid p Hd) as [Hinv _].
      { apply Hdom, elem_of_dom. eauto. }
      congruence.
    + intros Hq. exists (idof w q). split; [eauto|].
      apply (dict_inverts_idof w spKF mpKFid q Hd). apply Hdom, elem_of_dom. eauto.
  - apply NoDup_fmap_2_strong.
    2:{ unfold idmap_items.
        assert (Hp : (merge_sort id_le (map_to_list bw)).*1 ≡ₚ (map_to_list bw).*1)
          by (by rewrite merge_sort_Permutation).
        rewrite Hp. apply NoDup_fst_map_to_list. }
    intros i j [vi Hi]%elem_of_fst_exists
               [vj Hj]%elem_of_fst_exists Heq.
    apply elem_of_idmap_items, Hbw in Hi as (p1 & Hp1 & <-).
    apply elem_of_idmap_items, Hbw in Hj as (p2 & Hp2 & <-).
    destruct (dict_inverts_idof w spKF mpKFid p1 Hd) as [Hip _].
    { apply Hdom, elem_of_dom. eauto. }
    destruct (dict_inverts_idof w spKF mpKFid p2 Hd) as [Hiq _].
    { apply Hdom, elem_of_dom. eauto. }
    congruence.
Qed.

Lemma filter_Forall_id {A} (P : A → Prop) `{∀ x, Decision (P x)} l :
  Forall P l → filter P l = l.
Proof.
  induction 1 as [|x l Hx Hl IH]; [done|]. by rewrite filter_cons_True, IH.
Qed.

Lemma restore_set_roundtrip w (spKF : gset nat) mpKFid (s : gset nat) ids :
  dict_inverts w spKF mpKFid → s ⊆ spKF →
  backup_ids s spKF w = Ok (ids, w) →
  restore_set mpKFid ids = s.
Proof.
  intros Hd Hs (_ & Hall)%backup_ids_Ok.
  assert (Hfilter : filter (λ p, p ∈ spKF) (set_items s) = set_items s).
  { apply filter_Forall_id, Forall_forall. intros x Hx%elem_of_set_items. auto. }
  rewrite Hfilter in Hall.
  assert (Hids : ids = idof w <$> set_items s).
  { clear Hfilter. induction Hall as [|p id l ids' (k & Hk & ->) Hall IH]; [done|].
    simpl. rewrite (idof_lookup _ _ _ Hk). by f_equal. }
  apply set_eq. intros q. unfold restore_set.
  rewrite (elem_of_foldl_union (dict_at mpKFid)). subst ids. split.
  - intros (id & (p & -> & Hp%elem_of_set_items)%list_elem_of_fmap & <-).
    destruct (dict_inverts_idof w spKF mpKFid p Hd) as [-> _]; [by apply Hs|done].
  - intros Hq. exists (idof w q). split.
    + apply list_elem_of_fmap. exists q. split; [done|]. by apply elem_of_set_items.
    + by apply (dict_inverts_idof w spKF mpKFid q Hd), Hs.
Qed.

Lemma is_live_insert_same_bad w p kf kf' q :
  keyframes w !! p = Some kf → mbBad (conn kf') = mbBad (conn kf) →
  is_live (set_keyframes (<[p := kf']> (keyframes w)) w) q = is_live w q.
Proof.
  intros Hkf Hbad. unfold is_live. simpl. rewrite lookup_insert.
  case_decide; [subst; by rewrite Hkf, Hbad|done].
Qed.

Lemma best_covisibles_ext w w' m :
  (∀ q, is_live w' q = is_live w q) →
  best_covisibles w' m = best_covisibles w m.
Proof.
  intros Hlive. unfold best_covisibles. f_equal.
  apply list_filter_iff. intros [c q]. simpl. by rewrite Hlive.
Qed.

(** The state in which [PostLoad] leaves the graph fields of the keyframe. *)
Lemma PostLoad_Ok this mpKFid mpMPid mpCamId w w' :
  PostLoad this mpKFid mpMPid mpCamId w = Ok (tt, w') →
  ∃ kf kf',
    keyframes w !! this = Some kf ∧ keyframes w' !! this = Some kf' ∧
    (∀ q, q ≠ this → keyframes w' !! q = keyframes w !! q) ∧
    mConnectedKeyFrameWeights (conn kf')
      = restore_weights mpKFid (mBackupConnectedKeyFrameIdWeights (backup kf)) ∧
    mpParent (conn kf')
      = (if decide (mBackupParentId (backup kf) >= 0)
         then dict_at mpKFid (mBackupParentId (backup kf))
         else mpParent (conn kf)) ∧
    mspChildrens (conn kf') = restore_set mpKFid (mvBackupChildrensId (backup kf)) ∧
    mspLoopEdges (conn kf') = restore_set mpKFid (mvBackupLoopEdgesId (backup kf)) ∧
    mspMergeEdges (conn kf') = restore_set mpKFid (mvBackupMergeEdgesId (backup kf)) ∧
    mbBad (conn kf') = mbBad (conn kf) ∧
    mvpOrderedConnectedKeyFrames (conn kf')
      = (best_covisibles w (mConnectedKeyFrameWeights (conn kf'))).*2 ∧
    mvOrderedWeights (conn kf')
      = (best_covisibles w (mConnectedKeyFrameWeights (conn kf'))).*1.
Proof.
  unfold PostLoad. intros Hrun. bind_get Hrun as kf Hnn Hkf.
  apply bind_Ok in Hrun as (mps & w1 & Hfold & Hrun).
  apply fold_each_readonly in Hfold as ->;
    [|intros *; apply restore_mappoint_readonly].
  apply bind_Ok in Hrun as ([] & w2 & Hput & Hrun). op_inv Hput.
  apply UpdateBestCovisibles_Ok in Hrun as (_ & kf2 & Hkf2 & ->).
  simpl in Hkf2. rewrite lookup_insert_eq in Hkf2. injection Hkf2 as <-.
  eexists kf, _. split; [done|]. split; [simpl; apply lookup_insert_eq|].
  split.
  { intros q Hq. simpl. by rewrite !lookup_insert_ne. }
  simpl. split_and!; try done.
  - f_equal. apply best_covisibles_ext. intros q.
    by eapply is_live_insert_same_bad.
  - f_equal. apply best_covisibles_ext. intros q.
    by eapply is_live_insert_same_bad.
Qed.

(** C8: let every keyframe that a keyframe refers to be in the saved set,
    and let the dictionary send each saved keyframe's id back to it.  Then
    PreSave followed by PostLoad (on the object holding the saved id-indexed
    form) gives back the covisibility weight map, the parent, the children
    set, the loop-edge set and the merge-edge set, and leaves as cached
    ordering the one rebuilt from the restored weight map. *)
Theorem save_restore_roundtrip this spKF spMP spCam mpKFid mpMPid mpCamId
    w w1 kf kf1 wL kfL wR :
  keyframes w !! this = Some kf →
  refs_saved kf spKF →
  dict_inverts w spKF mpKFid →
  PreSave this spKF spMP spCam w = Ok (tt, w1) →
  keyframes w1 !! this = Some kf1 →
  keyframes wL !! this = Some kfL →
  restored_from kf1 kfL →
  PostLoad this mpKFid mpMPid mpCamId wL = Ok (tt, wR) →
  ∃ kfR, keyframes wR !! this = Some kfR ∧
    mConnectedKeyFrameWeights (conn kfR) = mConnectedKeyFrameWeights (conn kf) ∧
    mpParent (conn kfR) = mpParent (conn kf) ∧
    mspChildrens (conn kfR) = mspChildrens (conn kf) ∧
    mspLoopEdges (conn kfR) = mspLoopEdges (conn kf) ∧
    mspMergeEdges (conn kfR) = mspMergeEdges (conn kf) ∧
    mvpOrderedConnectedKeyFrames (conn kfR)
      = (best_covisibles wL (mConnectedKeyFrameWeights (conn kf))).*2 ∧
    mvOrderedWeights (conn kfR)
      = (best_covisibles wL (mConnectedKeyFrameWeights (conn kf))).*1.
Proof.
  intros Hkf (Hws & Hpar & Hch & Hlo & Hme) Hd Hsave Hkf1 HkfL [Hbk HparL] Hload.
  apply PreSave_Ok in Hsave
    as (Hnn & kf0 & b & Hkf0 & -> & Hbw & Hbp & Hbc & Hbl & Hbm).
  rewrite Hkf in Hkf0. injection Hkf0 as <-.
  simpl in Hkf1. rewrite lookup_insert_eq in Hkf1. injection Hkf1 as <-.
  simpl in Hbk, HparL.
  apply PostLoad_Ok in Hload
    as (kfL' & kfR & HkfL' & HkfR & _ & Hw & Hp & Hc & Hl & Hm & _ & Ho & Hov).
  rewrite HkfL in HkfL'. injection HkfL' as <-.
  rewrite Hbk in Hw, Hp, Hc, Hl, Hm.
  assert (HwR : mConnectedKeyFrameWeights (conn kfR)
                = mConnectedKeyFrameWeights (conn kf)).
  { rewrite Hw. by eapply restore_weights_roundtrip. }
  exists kfR. split; [done|]. split; [done|]. rewrite <-HwR.
  split_and!; [|by rewrite Hc; eapply restore_set_roundtrip
               |by rewrite Hl; eapply restore_set_roundtrip
               |by rewrite Hm; eapply restore_set_roundtrip|done|done].
  rewrite Hp.
  apply backup_id_Ok in Hbp as [_ [(Hpn & Hpin & k & Hk & Hid)|[Hno Hid]]].
  - destruct (dict_inverts_idof w spKF mpKFid _ Hd Hpin) as [Hinv Hpos].
    rewrite (idof_lookup _ _ _ Hk) in Hinv, Hpos.
    rewrite Hid. rewrite decide_True by lia. done.
  - rewrite Hid. rewrite decide_False by lia.
    assert (mpParent (conn kf) = NULL) as Hnull.
    { destruct (decide (mpParent (conn kf) = NULL)); [done|]. exfalso. auto. }
    destruct HparL; congruence.
Qed.

Lemma save_restore_roundtrip_witness :
  ∃ kfR, keyframes Fixture.postloaded !! 2%nat = Some kfR ∧
    mConnectedKeyFrameWeights (conn kfR)
      = mConnectedKeyFrameWeights (conn (Fixture.at_ Fixture.linked 2%nat)) ∧
    mpParent (conn kfR) = mpParent (conn (Fixture.at_ Fixture.linked 2%nat)) ∧
    mspChildrens (conn kfR) = mspChildrens (conn (Fixture.at_ Fixture.linked 2%nat)) ∧
    mspLoopEdges (conn kfR) = mspLoopEdges (conn (Fixture.at_ Fixture.linked 2%nat)) ∧
    mspMergeEdges (conn kfR) = mspMergeEdges (conn (Fixture.at_ Fixture.linked 2%nat)) ∧
    mvpOrderedConnectedKeyFrames (conn kfR)
      = (best_covisibles Fixture.presaved
           (mConnectedKeyFrameWeights (conn (Fixture.at_ Fixture.linked 2%nat)))).*2 ∧
    mvOrderedWeights (conn kfR)
      = (best_covisibles Fixture.presaved
           (mConnectedKeyFrameWeights (conn (Fixture.at_ Fixture.linked 2%nat)))).*1.
Proof.
  apply (save_restore_roundtrip 2%nat Fixture.saved ∅ ∅ Fixture.by_id ∅ ∅
           Fixture.linked Fixture.presaved (Fixture.at_ Fixture.linked 2%nat)
           (Fixture.at_ Fixture.presaved 2%nat)
           Fixture.presaved (Fixture.at_ Fixture.presaved 2%nat)
           Fixture.postloaded).
  - vm_compute. reflexivity.
  - unfold refs_saved. split_and!.
    + by_compute.
    + intros _. by_compute.
    + by_compute.
    + by_compute.
    + by_compute.
  - intros p Hp. unfold Fixture.saved in Hp.
    apply elem_of_union in Hp as [Hp|Hp%elem_of_singleton];
      [apply elem_of_union in Hp as [Hp%elem_of_singleton|Hp%elem_of_singleton]|];
      subst p; eexists; (split; [vm_compute; reflexivity|]); vm_compute;
      (split; [congruence|reflexivity]).
  - vm_compute. reflexivity.
  - vm_compute. reflexivity.
  - vm_compute. reflexivity.
  - split; [reflexivity|by right].
  - vm_compute. reflexivity.
Defined.

(** * Culling: what the neighbours keep *)







(** ** What a rebuilt cache lists *)

Lemma elem_of_best_covisibles w m c q :
  (c, q) ∈ best_covisibles w m ↔ m !! q = Some c ∧ is_live w q = true.
Proof.
  unfold best_covisibles.
  rewrite elem_of_reverse, list_elem_of_filter, elem_of_std_sort, list_elem_of_fmap.
  simpl. split.
  - intros (Hlive & [q' c'] & [= -> ->] & Hin%elem_of_map_items).
    split; [done|]. by apply Is_true_true.
  - intros [Hm Hlive]. split; [by apply Is_true_true|].
    exists (q, c). split; [done|]. by apply elem_of_map_items.
Qed.

Lemma elem_of_rebuilt_list w kf q :
  q ∈ mvpOrderedConnectedKeyFrames (conn (rebuild_ordering w kf)) ↔
  is_Some (mConnectedKeyFrameWeights (conn kf) !! q) ∧ is_live w q = true.
Proof.
  unfold rebuild_ordering. simpl. rewrite list_elem_of_fmap. split.
  - intros ([c q'] & -> & [Hm Hl]%elem_of_best_covisibles). eauto.
  - intros [[c Hc] Hl]. exists (c, q). split; [done|].
    by apply elem_of_best_covisibles.
Qed.

Lemma cache_in_keys_rebuild w kf : cache_in_keys (rebuild_ordering w kf).
Proof. apply Forall_forall. intros x [Hx _]%elem_of_rebuilt_list. done. Qed.

(** ** EraseConnection *)

Lemma EraseConnection_Ok q this w w' :
  EraseConnection q this w = Ok (tt, w') →
  q ≠ NULL ∧ ∃ kf kf',
    keyframes w !! q = Some kf ∧
    w' = set_keyframes (<[q := kf']> (keyframes w)) w ∧
    mConnectedKeyFrameWeights (conn kf')
      = delete this (mConnectedKeyFrameWeights (conn kf)) ∧
    (cache_in_keys kf → cache_in_keys kf') ∧
    (cache_in_keys kf → this ∉ mvpOrderedConnectedKeyFrames (conn kf')).
Proof.
  unfold EraseConnection. intros Hrun. bind_get Hrun as kf Hnn Hkf.
  split; [done|]. exists kf.
  destruct (mConnectedKeyFrameWeights (conn kf) !! this) as [c|] eqn:Hc.
  - apply bind_Ok in Hrun as ([] & w1 & Hmod & Hupd). op_inv Hmod.
    apply UpdateBestCovisibles_Ok in Hupd as (_ & kf2 & Hkf2 & ->).
    simpl in Hkf2. rewrite lookup_insert_eq in Hkf2. injection Hkf2 as <-.
    eexists. split; [done|]. split.
    { simpl. by rewrite insert_insert_eq. }
    split; [done|]. split.
    + intros _. apply cache_in_keys_rebuild.
    + intros _ [Hin _]%elem_of_rebuilt_list. simpl in Hin.
      rewrite lookup_delete_eq in Hin. by destruct Hin.
  - op_inv Hrun. exists kf. split; [done|]. split.
    { destruct w as [h ? ? ? ?]. unfold set_keyframes. simpl in *.
      f_equal. by rewrite insert_id. }
    split; [by rewrite delete_id|]. split; [done|].
    intros Hcache Hin. unfold cache_in_keys in Hcache.
    rewrite Forall_forall in Hcache. apply Hcache in Hin as [c Hc']. congruence.
Qed.










(** ** What a keyframe that is not told keeps *)



(** ** The queries on the cached list *)







(** * Culling: the spanning tree *)

#[global] Instance same_tree_preorder : PreOrder same_tree.
Proof. unfold same_tree. apply _. Qed.

#[global] Instance weights_within_preorder : PreOrder weights_within.
Proof.
  split.
  - intros w q kf Hkf. eauto.
  - intros w1 w2 w3 H12 H23 q kf3 Hkf3.
    destruct (H23 _ _ Hkf3) as (kf2 & Hkf2 & Hsub2).
    destruct (H12 _ _ Hkf2) as (kf1 & Hkf1 & Hsub1).
    exists kf1. split; [done|]. by etrans.
Qed.

Lemma weights_within_insert w p kf kf' :
  keyframes w !! p = Some kf →
  mConnectedKeyFrameWeights (conn kf') ⊆ mConnectedKeyFrameWeights (conn kf) →
  weights_within w (set_keyframes (<[p := kf']> (keyframes w)) w).
Proof.
  intros Hkf Hsub q kfq. simpl. rewrite lookup_insert. case_decide.
  - intros [= <-]. subst. eauto.
  - eauto.
Qed.

Lemma stays_tree_UpdateBestCovisibles this :
  stays same_tree (UpdateBestCovisibles this).
Proof.
  intros w [] w' (_ & kf & Hkf & ->)%UpdateBestCovisibles_Ok.
  by eapply same_view_insert.
Qed.

Ltac stays_tree_step :=
  match goal with
  | |- stays same_tree (kf_modify _ _) =>
      apply (stays_kf_modify_view tree_view); by intros []
  | |- stays same_tree (emit _) =>
      apply stays_emit; [apply _|apply same_view_add_event]
  | |- stays same_tree (UpdateBestCovisibles _) =>
      apply stays_tree_UpdateBestCovisibles
  | _ => stays_step
  end.

Lemma stays_tree_EraseConnection q this : stays same_tree (EraseConnection q this).
Proof. unfold EraseConnection. repeat stays_tree_step. Qed.

Lemma stays_tree_detach this : stays same_tree (SetBadFlag_detach this).
Proof.
  unfold SetBadFlag_detach.
  repeat (stays_tree_step || apply stays_tree_EraseConnection).
Qed.

Lemma stays_within_EraseConnection q this :
  stays weights_within (EraseConnection q this).
Proof.
  intros w [] w' (_ & kf & kf' & Hkf & -> & Hw & _)%EraseConnection_Ok.
  eapply weights_within_insert; [done|]. rewrite Hw. apply delete_subseteq.
Qed.

Lemma stays_within_detach this : stays weights_within (SetBadFlag_detach this).
Proof.
  unfold SetBadFlag_detach.
  apply stays_bind; [apply _|apply stays_kf_get, _|intros kf].
  apply stays_bind; [apply _| |intros []].
  { apply stays_for_each; [apply _|]. intros it. destruct (decide _).
    - apply stays_fail.
    - apply stays_within_EraseConnection. }
  apply stays_bind; [apply _|apply stays_kf_get, _|intros kf1].
  apply stays_bind; [apply _| |intros []].
  { apply stays_for_each; [apply _|]. intros pMP. destruct (decide _).
    - apply stays_ret, _.
    - apply stays_bind; [apply _|apply stays_mp_get, _|intros ?].
      apply stays_emit; [apply _|]. intros w q kfq Hq. eauto. }
  intros w r w' Hrun. op_inv Hrun. eapply weights_within_insert; [done|].
  simpl. apply map_empty_subseteq.
Qed.

Lemma weights_nonneg_within w w' :
  weights_within w w' → weights_nonneg w → weights_nonneg w'.
Proof.
  intros Hin Hnn p kf' q c Hkf' Hc.
  destruct (Hin _ _ Hkf') as (kf & Hkf & Hsub).
  eapply Hnn; [done|]. by eapply lookup_weaken.
Qed.

Lemma ids_unique_same_tree w w' :
  same_tree w w' → ids_unique w → ids_unique w'.
Proof.
  intros Ht Hu p q kp kq Hp Hq Hid.
  pose proof (Ht p) as Htp. pose proof (Ht q) as Htq. simpl in Htp, Htq.
  rewrite Hp in Htp. rewrite Hq in Htq.
  destruct (keyframes w !! p) as [kp0|] eqn:Hp0; [|done].
  destruct (keyframes w !! q) as [kq0|] eqn:Hq0; [|done].
  simpl in Htp, Htq. unfold tree_view in Htp, Htq.
  injection Htp as Hi1 _ _ _. injection Htq as Hi2 _ _ _.
  eapply Hu; [done..|]. congruence.
Qed.

Lemma same_tree_children_of w w' p :
  same_tree w w' → children_of w' p = children_of w p.
Proof.
  intros Ht. specialize (Ht p). simpl in Ht. unfold children_of.
  destruct (keyframes w' !! p) as [k'|], (keyframes w !! p) as [k|];
    simpl in *; try done.
  unfold tree_view in Ht. by injection Ht as _ _ _ ->.
Qed.

Lemma same_tree_parent_of w w' p :
  same_tree w w' → parent_of w' p = parent_of w p.
Proof.
  intros Ht. specialize (Ht p). simpl in Ht. unfold parent_of.
  destruct (keyframes w' !! p) as [k'|], (keyframes w !! p) as [k|];
    simpl in *; try done.
  unfold tree_view in Ht. by injection Ht as _ _ -> _.
Qed.

Lemma same_tree_is_live w w' p :
  same_tree w w' → is_live w' p = is_live w p.
Proof.
  intros Ht. specialize (Ht p). simpl in Ht. unfold is_live.
  destruct (keyframes w' !! p) as [k'|], (keyframes w !! p) as [k|];
    simpl in *; try done.
  unfold tree_view in Ht. by injection Ht as _ -> _ _.
Qed.

Lemma cull_wf_detach this w w1 :
  SetBadFlag_detach this w = Ok (tt, w1) → cull_wf w this → cull_wf w1 this.
Proof.
  intros Hrun (Hids & Hnn & Hself & Hlive).
  pose proof (stays_tree_detach _ _ _ _ Hrun) as Ht.
  pose proof (stays_within_detach _ _ _ _ Hrun) as Hw.
  split_and!.
  - by eapply ids_unique_same_tree.
  - by eapply weights_nonneg_within.
  - by rewrite (same_tree_children_of _ _ _ Ht).
  - intros c. rewrite (same_tree_children_of _ _ _ Ht),
      (same_tree_is_live _ _ _ Ht). apply Hlive.
Qed.

(** ** One pass over the children *)

Lemma best_ok_iff w Q Q' b :
  (∀ c p, Q c p ↔ Q' c p) → best_ok w Q b → best_ok w Q' b.
Proof.
  intros HQ (H1 & H2 & H3). split_and!.
  - intros Hb. destruct (H1 Hb). split; [by apply HQ|done].
  - intros Hb. destruct (H2 Hb) as [? Hno]. split; [done|].
    intros c p Hq%HQ. by eapply Hno.
  - intros c p Hq%HQ. by apply H3.
Qed.

Lemma best_ok_add w Q b c p :
  best_ok w Q b → 0 ≤ link_weight w c p →
  best_ok w (λ c' p', Q c' p' ∨ (c' = c ∧ p' = p))
    (if decide (link_weight w c p > best_max b)
     then mkBest (link_weight w c p) c p true else b).
Proof.
  intros (H1 & H2 & H3) Hpos. case_decide as Hgt; simpl.
  - split_and!; simpl.
    + intros _. split; [by right|done].
    + done.
    + intros c' p' [Hq|[-> ->]]; [|lia]. specialize (H3 _ _ Hq). lia.
  - destruct (bContinue b) eqn:Hb.
    + destruct (H1 eq_refl) as [Hq Hw]. split_and!.
      * intros _. split; [by left|done].
      * intros Hf. congruence.
      * intros c' p' [Hq'|[-> ->]]; [by apply H3|lia].
    + destruct (H2 eq_refl) as [Hm _]. lia.
Qed.

Lemma fold_each_seen {A} (body : Best → A → Op Best)
    (E : A → nat → nat → Prop) w l :
  (∀ Q b x b' w', x ∈ l → best_ok w Q b → body b x w = Ok (b', w') →
     w' = w ∧ best_ok w (λ c p, Q c p ∨ E x c p) b') →
  ∀ Q b b' w', best_ok w Q b → fold_each l body b w = Ok (b', w') →
    w' = w ∧ best_ok w (λ c p, Q c p ∨ ∃ x, x ∈ l ∧ E x c p) b'.
Proof.
  induction l as [|x l IH]; intros Hbody Q b b' w' Hok Hrun; simpl in Hrun.
  - op_inv Hrun. split; [done|]. eapply best_ok_iff; [|done].
    intros c p. split; [by left|]. intros [?|(? & []%elem_of_nil & _)]. done.
  - apply bind_Ok in Hrun as (b1 & w1 & Hstep & Hrun).
    eapply Hbody in Hstep as [-> Hok1]; [|by left|done].
    eapply IH in Hrun as [-> Hok2]; [| |done].
    2:{ intros Q0 b0 x0 b0' w0 Hx0. apply Hbody. by right. }
    split; [done|]. eapply best_ok_iff; [|done].
    intros c p. simpl. split.
    + intros [[?|?]|(x0 & Hx0 & ?)]; [by left| |].
      * right. exists x. split; [by left|done].
      * right. exists x0. split; [by right|done].
    + intros [?|(x0 & [->|Hx0]%elem_of_cons & ?)].
      * by left; left.
      * by left; right.
      * right. eauto.
Qed.

Lemma link_weight_nonneg w c p : weights_nonneg w → 0 ≤ link_weight w c p.
Proof.
  intros Hnn. unfold link_weight, weight_of.
  destruct (keyframes w !! c) as [kf|] eqn:Hkf; simpl; [|done].
  destruct (mConnectedKeyFrameWeights (conn kf) !! p) as [x|] eqn:Hx; simpl; [|done].
  by eapply Hnn.
Qed.

Lemma scan_candidate_spec w pKF pConn Q b spc b' w' :
  ids_unique w → weights_nonneg w →
  best_ok w Q b →
  scan_candidate pKF pConn b spc w = Ok (b', w') →
  w' = w ∧ best_ok w (λ c p, Q c p ∨ (c = pKF ∧ p = pConn ∧ pConn = spc)) b'.
Proof.
  intros Hids Hnn Hok Hrun. unfold scan_candidate in Hrun.
  bind_get Hrun as kc Hnn1 Hkc. bind_get Hrun as ks Hnn2 Hks.
  case_decide as Hid.
  - assert (pConn = spc) as <- by (by eapply Hids).
    apply bind_Ok in Hrun as (wt & w2 & Hwt & Hrun).
    apply GetWeight_Ok in Hwt as (_ & kf & Hkf & [= -> ->]). op_inv Hrun.
    split; [done|].
    assert (Hlw : default 0 (mConnectedKeyFrameWeights (conn kf) !! pConn)
                  = link_weight w pKF pConn).
    { unfold link_weight, weight_of. by rewrite Hkf. }
    rewrite Hlw. eapply best_ok_iff; [|apply best_ok_add; [done|]].
    + intros c p. simpl. naive_solver.
    + by apply link_weight_nonneg.
  - op_inv Hrun. split; [done|]. eapply best_ok_iff; [|done].
    intros c p. split; [by left|]. intros [?|(_ & _ & ->)]; [done|].
    rewrite Hkc in Hks. by injection Hks as ->.
Qed.

Lemma scan_connected_spec w pKF cands Q b pConn b' w' :
  ids_unique w → weights_nonneg w →
  best_ok w Q b →
  scan_connected pKF cands b pConn w = Ok (b', w') →
  w' = w ∧ best_ok w (λ c p, Q c p ∨ (c = pKF ∧ p = pConn ∧ pConn ∈ cands)) b'.
Proof.
  intros Hids Hnn Hok Hrun. unfold scan_connected in Hrun.
  eapply (fold_each_seen _ (λ spc c p, c = pKF ∧ p = pConn ∧ pConn = spc))
    in Hrun as [-> Hok']; [| |done].
  - split; [done|]. eapply best_ok_iff; [|done]. intros c p. simpl. naive_solver.
  - intros Q0 b0 x b0' w0 _ Hok0 Hrun0. by eapply scan_candidate_spec.
Qed.

Lemma scan_child_spec w cands Q b pKF b' w' :
  ids_unique w → weights_nonneg w →
  best_ok w Q b →
  scan_child cands b pKF w = Ok (b', w') →
  w' = w ∧
  best_ok w (λ c p, Q c p ∨
                    (c = pKF ∧ is_live w pKF = true ∧
                     p ∈ ordered_of w pKF ∧ p ∈ cands)) b'.
Proof.
  intros Hids Hnn Hok Hrun. unfold scan_child in Hrun.
  apply bind_Ok in Hrun as (bad & w1 & Hbad & Hrun).
  apply isBad_Ok in Hbad as (_ & kfx & Hkfx & [= -> ->]).
  assert (Hlive : is_live w pKF = negb (mbBad (conn kfx)))
    by (by apply is_live_lookup).
  destruct (mbBad (conn kfx)).
  - op_inv Hrun. split; [done|]. eapply best_ok_iff; [|done].
    intros c p. rewrite Hlive. naive_solver.
  - apply bind_Ok in Hrun as (vp & w2 & Hvp & Hrun).
    unfold GetVectorCovisibleKeyFrames in Hvp. bind_get Hvp as kf0 Hnn0 Hkf0.
    apply ret_Ok in Hvp. rewrite Hkfx in Hkf0. injection Hkf0 as <-.
    injection Hvp as -> ->.
    eapply (fold_each_seen _ (λ pConn c p, c = pKF ∧ p = pConn ∧ pConn ∈ cands))
      in Hrun as [-> Hok']; [| |done].
    + split; [done|]. eapply best_ok_iff; [|done]. intros c p. simpl.
      rewrite Hlive. unfold ordered_of. rewrite Hkfx. simpl. naive_solver.
    + intros Q0 b0 x b0' w0 _ Hok0 Hrun0. by eapply scan_connected_spec.
Qed.

Lemma scan_children_spec w this cands b w' :
  ids_unique w → weights_nonneg w →
  scan_children this cands w = Ok (b, w') →
  w' = w ∧
  best_ok w (λ c p, c ∈ children_of w this ∧ is_live w c = true ∧
                    p ∈ ordered_of w c ∧ p ∈ cands) b.
Proof.
  intros Hids Hnn Hrun. unfold scan_children in Hrun.
  bind_get Hrun as kf Hnn0 Hkf.
  assert (Hinit : best_ok w (λ _ _, False) Best_init).
  { split_and!; simpl; [done| |done]. intros _. split; [done|]. by intros ?? []. }
  eapply (fold_each_seen _
            (λ pKF c p, c = pKF ∧ is_live w pKF = true ∧
                        p ∈ ordered_of w pKF ∧ p ∈ set_items cands))
    in Hrun as [-> Hok']; [| |exact Hinit].
  - split; [done|]. eapply best_ok_iff; [|done]. intros c p. simpl.
    unfold children_of. rewrite Hkf. simpl.
    setoid_rewrite elem_of_set_items. naive_solver.
  - intros Q0 b0 x b0' w0 _ Hok0 Hrun0. by eapply scan_child_spec.
Qed.

(** ** Reparenting *)

Lemma ChangeParent_Ok c p w w' :
  ChangeParent c p w = Ok (tt, w') →
  c ≠ NULL ∧ p ≠ NULL ∧ p ≠ c ∧ ∃ kc kp,
    keyframes w !! c = Some kc ∧ keyframes w !! p = Some kp ∧
    w' = set_keyframes
           (<[p := with_conn (λ x, set_childrens (mspChildrens x ∪ {[c]}) x) kp]>
              (<[c := with_conn (set_parent p) kc]> (keyframes w))) w.
Proof.
  unfold ChangeParent. intros Hrun. bind_get Hrun as kc Hnn Hkc.
  case_decide as Hne; [by op_inv Hrun|].
  apply bind_Ok in Hrun as ([] & w1 & Hmod & Hadd).
  apply kf_modify_Ok in Hmod as (_ & kc' & Hkc' & [= ->]).
  rewrite Hkc in Hkc'. injection Hkc' as <-.
  unfold AddChild in Hadd.
  apply kf_modify_Ok in Hadd as (Hpn & kp & Hkp & [= ->]).
  simpl in Hkp. rewrite lookup_insert_ne in Hkp by done.
  split_and!; [done..|]. by exists kc, kp.
Qed.

Lemma ChangeParent_parent_of c p w w' x :
  ChangeParent c p w = Ok (tt, w') →
  parent_of w' x = if decide (x = c) then Some p else parent_of w x.
Proof.
  intros (_ & _ & Hne & kc & kp & Hkc & Hkp & ->)%ChangeParent_Ok.
  unfold parent_of. simpl. rewrite !lookup_insert.
  repeat case_decide; subst; simpl; try done; try congruence.
  by rewrite Hkp.
Qed.

Lemma ChangeParent_children_of c p w w' x :
  ChangeParent c p w = Ok (tt, w') →
  children_of w' x =
    if decide (x = p) then children_of w p ∪ {[c]} else children_of w x.
Proof.
  intros (_ & _ & Hne & kc & kp & Hkc & Hkp & ->)%ChangeParent_Ok.
  unfold children_of. simpl. rewrite !lookup_insert.
  repeat case_decide; subst; simpl; try done; try congruence.
  - by rewrite Hkp.
  - by rewrite Hkc.
Qed.

#[global] Instance parent_kept_preorder : PreOrder parent_kept.
Proof. split; [by intros w c|]. intros w1 w2 w3 H12 H23 c Hc. auto. Qed.

Lemma same_tree_parent_kept w w' : same_tree w w' → parent_kept w w'.
Proof.
  intros Ht c (p & Hp & Hnn). exists p. by rewrite (same_tree_parent_of _ _ _ Ht).
Qed.

Lemma stays_kept_ChangeParent c p : stays parent_kept (ChangeParent c p).
Proof.
  intros w [] w' Hrun x (px & Hpx & Hnn).
  pose proof (ChangeParent_Ok _ _ _ _ Hrun) as (_ & Hp & _).
  unfold has_parent. rewrite (ChangeParent_parent_of _ _ _ _ x Hrun).
  case_decide; eauto.
Qed.

Lemma ChangeParent_has_parent c p w w' :
  ChangeParent c p w = Ok (tt, w') → has_parent w' c.
Proof.
  intros Hrun. pose proof (ChangeParent_Ok _ _ _ _ Hrun) as (_ & Hp & _).
  exists p. rewrite (ChangeParent_parent_of _ _ _ _ c Hrun).
  by rewrite decide_True.
Qed.

Lemma stays_same_tree_kept {A} (m : Op A) :
  stays same_tree m → stays parent_kept m.
Proof. intros Hm w r w' Hrun. by eapply same_tree_parent_kept, Hm. Qed.

(** Erasing the reassigned child from [mspChildrens]. *)
Lemma erase_child_Ok this c w w' :
  kf_modify this (λ x, set_childrens (mspChildrens x ∖ {[c]}) x) w = Ok (tt, w') →
  children_of w' this = children_of w this ∖ {[c]} ∧
  (∀ x, parent_of w' x = parent_of w x) ∧
  same_cov w w'.
Proof.
  intros Hrun. pose proof Hrun as Hcov.
  apply (stays_kf_modify_view cov_view) in Hcov; [|by intros []].
  op_inv Hrun. split_and!; [| |done].
  - unfold children_of. simpl. by rewrite lookup_insert_eq, Hkf.
  - intros x. unfold parent_of. simpl. rewrite lookup_insert.
    case_decide; [subst; by rewrite Hkf|done].
Qed.

(** Whatever the graph, a completed run of the loop leaves each child
    either still in [mspChildrens] or with a parent. *)
Lemma reattach_loop_parents this fuel cands w cands' w' :
  reattach_loop fuel this cands w = Ok (cands', w') →
  parent_kept w w' ∧
  ∀ c, c ∈ children_of w this → c ∈ children_of w' this ∨ has_parent w' c.
Proof.
  revert cands w. induction fuel as [|fuel IH]; intros cands w Hrun;
    simpl in Hrun; bind_get Hrun as kf Hnn Hkf.
  - case_decide; op_inv Hrun. split; [done|]. by left.
  - case_decide; [op_inv Hrun; split; [done|by left]|].
    apply bind_Ok in Hrun as (b & w1 & Hscan & Hrun).
    apply scan_children_readonly in Hscan as ->.
    destruct (bContinue b); [|op_inv Hrun; split; [done|by left]].
    apply bind_Ok in Hrun as ([] & w2 & Hcp & Hrun).
    apply bind_Ok in Hrun as ([] & w3 & Her & Hrun).
    pose proof (erase_child_Ok _ _ _ _ Her) as (Hch3 & Hpar3 & _).
    apply IH in Hrun as [Hkept Hall].
    assert (Hk3 : parent_kept w2 w3).
    { intros c (p & Hp & Hpn). exists p. by rewrite Hpar3. }
    split.
    + etrans; [by eapply stays_kept_ChangeParent|]. by etrans.
    + intros c Hc. destruct (decide (c = best_pC b)) as [->|Hne].
      * right. apply Hkept, Hk3. by eapply ChangeParent_has_parent.
      * apply Hall. rewrite Hch3.
        rewrite (ChangeParent_children_of _ _ _ _ this Hcp).
        case_decide; [subst|]; set_solver.
Qed.

Lemma adopt_remaining_parents this w w' :
  adopt_remaining this w = Ok (tt, w') →
  parent_kept w w' ∧ ∀ c, c ∈ children_of w this → has_parent w' c.
Proof.
  unfold adopt_remaining. intros Hrun. bind_get Hrun as kf Hnn Hkf.
  assert (Hitems : ∀ c, c ∈ children_of w this ↔
                        c ∈ set_items (mspChildrens (conn kf))).
  { intros c. unfold children_of. rewrite Hkf. simpl. by rewrite elem_of_set_items. }
  setoid_rewrite Hitems. clear Hitems Hkf.
  revert w Hrun. induction (set_items (mspChildrens (conn kf))) as [|c l IH];
    intros w Hrun; simpl in Hrun.
  - op_inv Hrun. split; [done|]. by intros ? []%elem_of_nil.
  - apply bind_Ok in Hrun as ([] & w1 & Hstep & Hrun).
    bind_get Hstep as kf' Hnn' Hkf'.
    apply IH in Hrun as [Hkept Hall]. split.
    + etrans; [by eapply stays_kept_ChangeParent|done].
    + intros x [->|Hx]%elem_of_cons; [|by apply Hall].
      apply Hkept. by eapply ChangeParent_has_parent.
Qed.

#[global] Instance same_parents_preorder : PreOrder same_parents.
Proof. unfold same_parents. apply _. Qed.

Lemma same_parents_parent_of w w' x :
  same_parents w w' → parent_of w' x = parent_of w x.
Proof. intros H. apply (H x). Qed.

Ltac stays_parents_step :=
  match goal with
  | |- stays same_parents (kf_modify _ _) =>
      apply (stays_kf_modify_view parent_view); by intros []
  | |- stays same_parents (emit _) =>
      apply stays_emit; [apply _|apply same_view_add_event]
  | _ => stays_step
  end.

(** The end of the deletion, after the children have been reassigned. *)
Lemma stays_parents_reattach_tail this :
  stays same_parents
    (kf ← kf_get this;
     (if decide (mpParent (conn kf) = NULL) then mret tt
      else EraseChild (mpParent (conn kf)) this) ;;
     kf_modify this (set_bad true)).
Proof. unfold EraseChild. repeat stays_parents_step. Qed.

Lemma stays_parents_delete_tail this :
  stays same_parents
    (kf ← kf_get this;
     _ ← map_get (mpMap kf);
     emit (EvMapEraseKeyFrame (mpMap kf) this) ;;
     (if decide (mpKeyFrameDB kf = NULL) then fail NullDeref
      else emit (EvDatabaseErase (mpKeyFrameDB kf) this))).
Proof. repeat stays_parents_step. Qed.

Lemma has_parent_same_parents w w' c :
  same_parents w w' → has_parent w c → has_parent w' c.
Proof.
  intros Hs (p & Hp & Hnn). exists p.
  by rewrite (same_parents_parent_of _ _ _ Hs).
Qed.

Lemma SetBadFlag_reattach_parents this w w' :
  SetBadFlag_reattach this w = Ok (tt, w') →
  ∀ c, c ∈ children_of w this → has_parent w' c.
Proof.
  unfold SetBadFlag_reattach. intros Hrun c Hc.
  bind_get Hrun as kf Hnn Hkf.
  apply bind_Ok in Hrun as (cands & w1 & Hloop & Hrun).
  apply reattach_loop_parents in Hloop as [Hk1 Hall1].
  apply bind_Ok in Hrun as ([] & w2 & Had & Hrun).
  apply adopt_remaining_parents in Had as [Hk2 Hall2].
  assert (has_parent w2 c) as H2.
  { destruct (Hall1 _ Hc) as [?|?]; [by apply Hall2|by apply Hk2]. }
  eapply has_parent_same_parents; [|done].
  by eapply stays_parents_reattach_tail.
Qed.

Lemma SetBadFlag_delete_parents this w w' :
  SetBadFlag_delete this w = Ok (tt, w') →
  ∀ c, c ∈ children_of w this → has_parent w' c.
Proof.
  unfold SetBadFlag_delete. intros Hrun c Hc.
  apply bind_Ok in Hrun as ([] & w1 & Hdet & Hrun).
  apply bind_Ok in Hrun as ([] & w2 & Hre & Hrun).
  apply stays_tree_detach in Hdet.
  rewrite <-(same_tree_children_of _ _ _ Hdet) in Hc.
  eapply has_parent_same_parents; [by eapply stays_parents_delete_tail|].
  by eapply SetBadFlag_reattach_parents.
Qed.

(** ** The greedy reattachment *)

Lemma same_cov_ordered_of w w' c :
  same_cov w w' → ordered_of w' c = ordered_of w c.
Proof.
  intros H. specialize (H c). simpl in H. unfold ordered_of.
  destruct (keyframes w' !! c) as [k'|], (keyframes w !! c) as [k|];
    simpl in *; try done.
  unfold cov_view in H. by injection H as _ _ _ -> _.
Qed.

Lemma same_cov_is_live w w' c :
  same_cov w w' → is_live w' c = is_live w c.
Proof.
  intros H. specialize (H c). simpl in H. unfold is_live.
  destruct (keyframes w' !! c) as [k'|], (keyframes w !! c) as [k|];
    simpl in *; try done.
  unfold cov_view in H. by injection H as _ -> _ _ _.
Qed.

Lemma same_cov_link_weight w w' c p :
  same_cov w w' → link_weight w' c p = link_weight w c p.
Proof. intros H. unfold link_weight. by rewrite (same_cov_weight_of _ _ _ _ H). Qed.

Lemma same_cov_link w w' cands c p :
  same_cov w w' → link w' cands c p ↔ link w cands c p.
Proof. intros H. unfold link. by rewrite (same_cov_ordered_of _ _ _ H). Qed.

Lemma Greedy_same_cov w w' cands children trace cands' rest :
  same_cov w w' →
  Greedy w' cands children trace cands' rest →
  Greedy w cands children trace cands' rest.
Proof.
  intros Hcov. induction 1 as [cands children Hno
                              |cands children c p trace cands' rest Hc Hl Hmax _ IH].
  - apply Greedy_stop. intros c p Hc Hl. eapply Hno; [done|].
    by apply (same_cov_link _ _ _ _ _ Hcov).
  - apply Greedy_step; [done| | |done].
    + by apply (same_cov_link _ _ _ _ _ Hcov).
    + intros c' p' Hc' Hl'. rewrite <-!(same_cov_link_weight _ _ _ _ Hcov).
      apply Hmax; [done|]. by apply (same_cov_link _ _ _ _ _ Hcov).
Qed.

Lemma same_cov_ids_unique w w' : same_cov w w' → ids_unique w → ids_unique w'.
Proof.
  intros Ht Hu p q kp kq Hp Hq Hid.
  pose proof (Ht p) as Htp. pose proof (Ht q) as Htq. simpl in Htp, Htq.
  rewrite Hp in Htp. rewrite Hq in Htq.
  destruct (keyframes w !! p) as [kp0|] eqn:Hp0; [|done].
  destruct (keyframes w !! q) as [kq0|] eqn:Hq0; [|done].
  simpl in Htp, Htq. unfold cov_view in Htp, Htq.
  injection Htp as Hi1 _ _ _ _. injection Htq as Hi2 _ _ _ _.
  eapply Hu; [done..|]. congruence.
Qed.

Lemma same_cov_weights_nonneg w w' :
  same_cov w w' → weights_nonneg w → weights_nonneg w'.
Proof.
  intros Ht Hnn p kf' q c Hkf' Hc. pose proof (Ht p) as Htp. simpl in Htp.
  rewrite Hkf' in Htp. destruct (keyframes w !! p) as [kf|] eqn:Hkf; [|done].
  simpl in Htp. unfold cov_view in Htp. injection Htp as _ _ Hw _ _.
  eapply Hnn; [done|]. by rewrite <-Hw.
Qed.

Lemma reattach_loop_greedy this fuel cands w cands' w' :
  reattach_loop fuel this cands w = Ok (cands', w') →
  ids_unique w → weights_nonneg w →
  this ∉ children_of w this →
  (∀ c, c ∈ children_of w this → is_live w c = true) →
  same_cov w w' ∧
  parent_of w' this = parent_of w this ∧
  children_of w' this ⊆ children_of w this ∧
  ∃ trace,
    Greedy w cands (children_of w this) trace cands' (children_of w' this) ∧
    (∀ c p, (c, p) ∈ trace →
       c ∈ children_of w this ∧ (c ∉ children_of w' this) ∧
       parent_of w' c = Some p) ∧
    (∀ x, (∀ p, (x, p) ∉ trace) → parent_of w' x = parent_of w x).
Proof.
  revert cands w. induction fuel as [|fuel IH];
    intros cands w Hrun Hids Hnn Hself Hlive; simpl in Hrun;
    bind_get Hrun as kf Hnnull Hkf.
  - case_decide as Hemp; op_inv Hrun.
    split_and!; [done..|]. exists []. split_and!.
    + apply Greedy_stop. intros c p Hc. unfold children_of in Hc.
      rewrite Hkf in Hc. simpl in Hc. rewrite Hemp in Hc. set_solver.
    + by intros ?? []%elem_of_nil.
    + done.
  - assert (Hstop : (∀ c p, c ∈ children_of w this → ¬ link w cands c p) →
                    same_cov w w ∧ parent_of w this = parent_of w this ∧
                    children_of w this ⊆ children_of w this ∧
                    ∃ trace,
                      Greedy w cands (children_of w this) trace cands
                        (children_of w this) ∧
                      (∀ c p, (c, p) ∈ trace →
                         c ∈ children_of w this ∧ (c ∉ children_of w this) ∧
                         parent_of w c = Some p) ∧
                      (∀ x, (∀ p, (x, p) ∉ trace) → parent_of w x = parent_of w x)).
    { intros Hno. split_and!; [done..|]. exists []. split_and!.
      - by apply Greedy_stop.
      - by intros ?? []%elem_of_nil.
      - done. }
    case_decide as Hemp.
    { op_inv Hrun. apply Hstop. intros c p Hc. unfold children_of in Hc.
      rewrite Hkf in Hc. simpl in Hc. rewrite Hemp in Hc. set_solver. }
    apply bind_Ok in Hrun as (b & w1 & Hscan & Hrun).
    apply scan_children_spec in Hscan as [-> (Hyes & Hno & Hmax)]; [|done..].
    destruct (bContinue b) eqn:Hb.
    2:{ op_inv Hrun. apply Hstop. intros c p Hc [Hord Hcand].
        destruct (Hno eq_refl) as [_ Hnone]. apply (Hnone c p). auto. }
    clear Hstop Hno.
    destruct (Hyes eq_refl) as [(HpC & _ & Hord & Hcand) Hwt]. clear Hyes.
    set (pC := best_pC b) in *. set (pP := best_pP b) in *.
    apply bind_Ok in Hrun as ([] & w2 & Hcp & Hrun).
    apply bind_Ok in Hrun as ([] & w3 & Her & Hrun).
    pose proof (stays_ChangeParent _ _ _ _ _ Hcp) as Hcov2.
    pose proof (erase_child_Ok _ _ _ _ Her) as (Hch3 & Hpar3 & Hcov3).
    assert (Hcov : same_cov w w3) by (by etrans).
    assert (HpCthis : pC ≠ this) by (intros Heq; by rewrite Heq in HpC).
    assert (Hch : children_of w3 this = children_of w this ∖ {[pC]}).
    { rewrite Hch3, (ChangeParent_children_of _ _ _ _ this Hcp).
      case_decide; [subst|]; set_solver. }
    apply IH in Hrun as (Hcov' & Hpar' & Hsub' & trace & Hgreedy & Htrace & Hframe).
    + split_and!.
      * by etrans.
      * rewrite Hpar', Hpar3, (ChangeParent_parent_of _ _ _ _ this Hcp).
        by rewrite decide_False.
      * rewrite Hch in Hsub'. set_solver.
      * exists ((pC, pP) :: trace). split_and!.
        -- apply Greedy_step; [done|by split| |].
           ++ intros c' p' Hc' [Hord' Hcand']. rewrite Hwt. apply Hmax.
              split_and!; auto.
           ++ rewrite <-Hch. by eapply Greedy_same_cov.
        -- intros c p [[= -> ->]|Hin]%elem_of_cons.
           ++ split; [done|]. split; [rewrite Hch in Hsub'; set_solver|].
              rewrite Hframe, Hpar3, (ChangeParent_parent_of _ _ _ _ pC Hcp).
              { by rewrite decide_True. }
              intros p Hin. apply Htrace in Hin as (Hin & _). rewrite Hch in Hin.
              set_solver.
           ++ destruct (Htrace _ _ Hin) as (Hc3 & Hnc & Hp).
              rewrite Hch in Hc3. split_and!; [set_solver|done|done].
        -- intros x Hx. rewrite Hframe, Hpar3,
             (ChangeParent_parent_of _ _ _ _ x Hcp).
           ++ rewrite decide_False; [done|]. intros ->.
              apply (Hx pP). by left.
           ++ intros p Hin. apply (Hx p). by right.
    + by eapply same_cov_ids_unique.
    + by eapply same_cov_weights_nonneg.
    + rewrite Hch. set_solver.
    + intros c Hc. rewrite (same_cov_is_live _ _ _ Hcov). apply Hlive.
      rewrite Hch in Hc. set_solver.
Qed.

(** The children that the loop left adopt the deleted keyframe's parent. *)
Lemma adopt_loop this P0 l w w' :
  for_each l (λ pKF, kf' ← kf_get this; ChangeParent pKF (mpParent (conn kf'))) w
    = Ok (tt, w') →
  this ∉ l → parent_of w this = Some P0 →
  (∀ c, c ∈ l → parent_of w' c = Some P0) ∧
  (∀ x, x ∉ l → parent_of w' x = parent_of w x).
Proof.
  revert w. induction l as [|c l IH]; intros w Hrun Hthis Hpar; simpl in Hrun.
  - op_inv Hrun. split; [by intros ? []%elem_of_nil|done].
  - apply not_elem_of_cons in Hthis as [Hne Hthis].
    apply bind_Ok in Hrun as ([] & w1 & Hstep & Hrun).
    bind_get Hstep as kf' Hnn' Hkf'.
    assert (mpParent (conn kf') = P0) as HP0.
    { unfold parent_of in Hpar. rewrite Hkf' in Hpar. by injection Hpar. }
    rewrite HP0 in Hstep.
    apply IH in Hrun as [Hall Hframe]; [|done|].
    2:{ rewrite (ChangeParent_parent_of _ _ _ _ this Hstep).
        by rewrite decide_False. }
    split.
    + intros x [->|Hx]%elem_of_cons; [|by apply Hall].
      destruct (decide (c ∈ l)); [by apply Hall|].
      rewrite Hframe by done.
      rewrite (ChangeParent_parent_of _ _ _ _ c Hstep). by rewrite decide_True.
    + intros x [Hxc Hxl]%not_elem_of_cons. rewrite Hframe by done.
      rewrite (ChangeParent_parent_of _ _ _ _ x Hstep). by rewrite decide_False.
Qed.

Lemma adopt_remaining_exact this P0 w w' :
  adopt_remaining this w = Ok (tt, w') →
  this ∉ children_of w this → parent_of w this = Some P0 →
  (∀ c, c ∈ children_of w this → parent_of w' c = Some P0) ∧
  (∀ x, x ∉ children_of w this → parent_of w' x = parent_of w x).
Proof.
  unfold adopt_remaining. intros Hrun Hself Hpar. bind_get Hrun as kf Hnn Hkf.
  assert (Hitems : ∀ c, c ∈ children_of w this ↔
                        c ∈ set_items (mspChildrens (conn kf))).
  { intros c. unfold children_of. rewrite Hkf. simpl. by rewrite elem_of_set_items. }
  setoid_rewrite Hitems. apply (adopt_loop this P0); [done| |done].
  by rewrite <-Hitems.
Qed.

Lemma SetBadFlag_reattach_greedy this w w' kf :
  SetBadFlag_reattach this w = Ok (tt, w') →
  keyframes w !! this = Some kf →
  cull_wf w this →
  ∃ trace cands rest,
    Greedy w (initial_candidates kf) (mspChildrens (conn kf)) trace cands rest ∧
    (∀ c p, (c, p) ∈ trace → parent_of w' c = Some p) ∧
    (∀ c, c ∈ rest → parent_of w' c = Some (mpParent (conn kf))).
Proof.
  unfold SetBadFlag_reattach. intros Hrun Hkf (Hids & Hnn & Hself & Hlive).
  bind_get Hrun as kf0 Hnnull Hkf0. rewrite Hkf in Hkf0. injection Hkf0 as <-.
  apply bind_Ok in Hrun as (cands & w1 & Hloop & Hrun).
  apply bind_Ok in Hrun as ([] & w2 & Had & Htail).
  apply stays_parents_reattach_tail in Htail.
  assert (Hch : children_of w this = mspChildrens (conn kf))
    by (unfold children_of; by rewrite Hkf).
  assert (Hpar : parent_of w this = Some (mpParent (conn kf)))
    by (unfold parent_of; by rewrite Hkf).
  apply reattach_loop_greedy in Hloop
    as (Hcov & Hpar1 & Hsub & trace & Hgreedy & Htrace & Hframe); [|done..].
  rewrite Hch in Hgreedy.
  eapply adopt_remaining_exact in Had as [Hrest Hother].
  2:{ intros Hin. apply Hself. by apply Hsub. }
  2:{ by rewrite Hpar1. }
  exists trace, cands, (children_of w1 this). split; [done|]. split.
  - intros c p Hin. destruct (Htrace _ _ Hin) as (_ & Hnc & Hp).
    rewrite (same_parents_parent_of _ _ _ Htail). by rewrite Hother.
  - intros c Hc. rewrite (same_parents_parent_of _ _ _ Htail). by apply Hrest.
Qed.

Lemma SetBadFlag_deletes this w w' :
  SetBadFlag this w = Ok (tt, w') → deletes w this →
  SetBadFlag_delete this w = Ok (tt, w').
Proof.
  intros Hrun (kf & m & Hkf & Hm & Hroot & Hguard).
  unfold SetBadFlag in Hrun. bind_get Hrun as kf0 Hnn Hkf0.
  rewrite Hkf in Hkf0. injection Hkf0 as <-.
  apply bind_Ok in Hrun as (init & w1 & Hinit & Hrun).
  apply GetInitKFid_Ok in Hinit as (_ & m' & Hm' & [= -> ->]).
  rewrite Hm in Hm'. injection Hm' as <-.
  rewrite decide_False in Hrun by done. by rewrite Hguard in Hrun.
Qed.

(** C2: when SetBadFlag goes past its guards on a keyframe (not the root,
    no active not-erase guard) and completes, every former child has a
    non-null parent.  On a well-formed graph the children are reattached
    greedily: the candidate set starts as the deleted keyframe's former
    parent; at each pass a (child, candidate) pair of maximal covisibility
    weight among all remaining children is reparented and the child joins
    the candidates; the children left without a link to any candidate get
    the deleted keyframe's former parent. *)
Theorem SetBadFlag_reattaches_children this w w' kf :
  SetBadFlag this w = Ok (tt, w') →
  deletes w this →
  keyframes w !! this = Some kf →
  (∀ c, c ∈ mspChildrens (conn kf) → has_parent w' c) ∧
  (cull_wf w this →
   ∃ w1 trace cands rest,
     SetBadFlag_detach this w = Ok (tt, w1) ∧
     Greedy w1 (initial_candidates kf) (mspChildrens (conn kf)) trace cands rest ∧
     (∀ c p, (c, p) ∈ trace → parent_of w' c = Some p) ∧
     (∀ c, c ∈ rest → parent_of w' c = Some (mpParent (conn kf)))).
Proof.
  intros Hrun Hdel Hkf. apply SetBadFlag_deletes in Hrun; [|done].
  split.
  - intros c Hc. eapply SetBadFlag_delete_parents; [done|].
    unfold children_of. by rewrite Hkf.
  - intros Hwf. unfold SetBadFlag_delete in Hrun.
    apply bind_Ok in Hrun as ([] & w1 & Hdet & Hrun).
    apply bind_Ok in Hrun as ([] & w2 & Hre & Htail).
    apply stays_parents_delete_tail in Htail.
    pose proof (stays_tree_detach _ _ _ _ Hdet) as Htree.
    pose proof (Htree this) as Hview. simpl in Hview. rewrite Hkf in Hview.
    destruct (keyframes w1 !! this) as [kf1|] eqn:Hkf1; [|done].
    simpl in Hview. unfold tree_view in Hview.
    injection Hview as _ _ Hpar Hch.
    eapply SetBadFlag_reattach_greedy in Hre
      as (trace & cands & rest & Hgreedy & Htrace & Hrest);
      [|done|by eapply cull_wf_detach].
    unfold initial_candidates in Hgreedy. rewrite Hpar, Hch in Hgreedy.
    rewrite Hpar in Hrest.
    exists w1, trace, cands, rest. split; [done|]. split; [done|]. split.
    + intros c p Hin. rewrite (same_parents_parent_of _ _ _ Htail). eauto.
    + intros c Hc. rewrite (same_parents_parent_of _ _ _ Htail). eauto.
Qed.

(** ** Checking well-formedness of a concrete graph *)

Lemma NoDup_fmap_inj_on {A B} (f : A → B) (l : list A) x y :
  NoDup (f <$> l) → x ∈ l → y ∈ l → f x = f y → x = y.
Proof.
  induction l as [|a l IH]; [by intros _ []%elem_of_nil|].
  rewrite fmap_cons, NoDup_cons.
  intros [Hna Hnd] [->|Hx]%elem_of_cons [->|Hy]%elem_of_cons Hf; [done| | |by apply IH].
  - exfalso. apply Hna. rewrite Hf. by apply list_elem_of_fmap_2.
  - exfalso. apply Hna. rewrite <-Hf. by apply list_elem_of_fmap_2.
Qed.

Lemma ids_unique_by_list w :
  NoDup ((λ it : nat * KeyFrame, mnId it.2) <$> map_to_list (keyframes w)) →
  ids_unique w.
Proof.
  intros Hnd p q kp kq Hp%elem_of_map_to_list Hq%elem_of_map_to_list Hid.
  assert ((p, kp) = (q, kq)) as [= -> _]; [|done].
  by eapply (NoDup_fmap_inj_on (λ it : nat * KeyFrame, mnId it.2)).
Qed.

Lemma weights_nonneg_by_map w :
  map_Forall (λ _ kf, map_Forall (λ _ c, 0 ≤ c)
                        (mConnectedKeyFrameWeights (conn kf))) (keyframes w) →
  weights_nonneg w.
Proof. intros H p kf q c Hkf Hc. by apply (H p kf Hkf q c). Qed.

Lemma cull_wf_by_check w this :
  NoDup ((λ it : nat * KeyFrame, mnId it.2) <$> map_to_list (keyframes w)) →
  map_Forall (λ _ kf, map_Forall (λ _ c, 0 ≤ c)
                        (mConnectedKeyFrameWeights (conn kf))) (keyframes w) →
  this ∉ children_of w this →
  Forall (λ c, is_live w c = true) (elements (children_of w this)) →
  cull_wf w this.
Proof.
  intros H1 H2 H3 H4. split_and!.
  - by apply ids_unique_by_list.
  - by apply weights_nonneg_by_map.
  - done.
  - intros c Hc%elem_of_elements. rewrite Forall_forall in H4. auto.
Qed.

Lemma SetBadFlag_reattaches_children_witness :
  (∀ c, c ∈ mspChildrens (conn (Fixture.at_ Fixture.tree 3%nat)) →
        has_parent Fixture.tree_culled c) ∧
  ∃ w1 trace cands rest,
    SetBadFlag_detach 3%nat Fixture.tree = Ok (tt, w1) ∧
    Greedy w1 (initial_candidates (Fixture.at_ Fixture.tree 3%nat))
      (mspChildrens (conn (Fixture.at_ Fixture.tree 3%nat))) trace cands rest ∧
    (∀ c p, (c, p) ∈ trace → parent_of Fixture.tree_culled c = Some p) ∧
    (∀ c, c ∈ rest →
          parent_of Fixture.tree_culled c
          = Some (mpParent (conn (Fixture.at_ Fixture.tree 3%nat)))).
Proof.
  destruct (SetBadFlag_reattaches_children 3%nat Fixture.tree Fixture.tree_culled
              (Fixture.at_ Fixture.tree 3%nat)) as [Hparents Hgreedy].
  - vm_compute. reflexivity.
  - exists (Fixture.at_ Fixture.tree 3%nat), (mkMap 0).
    split_and!; vm_compute; congruence.
  - vm_compute. reflexivity.
  - split; [exact Hparents|]. apply Hgreedy.
    apply cull_wf_by_check; by_compute.
Defined.

(** The scenario of the specification: culling keyframe 3 gives keyframe 4
    the parent 1 (weight 10, the only link to a candidate in the first
    pass) and then keyframe 5 the parent 4 (weight 8, once 4 is a
    candidate); 1 has dropped 3 as a child and 3 is bad. *)
Example cull_scenario :
  SetBadFlag 3%nat Fixture.tree = Ok (tt, Fixture.tree_culled) ∧
  parent_of Fixture.tree_culled 4%nat = Some 1%nat ∧
  parent_of Fixture.tree_culled 5%nat = Some 4%nat ∧
  children_of Fixture.tree_culled 1%nat = {[ 4%nat ]} ∧
  children_of Fixture.tree_culled 4%nat = {[ 5%nat ]} ∧
  is_live Fixture.tree_culled 3%nat = false.
Proof. vm_compute. repeat split; reflexivity. Qed.

(** * Reprojection helpers *)

Module ProjectionFacts.
Import Projection.

Lemma SFltb_nan_l (a : spec_float) : SFltb S754_nan a = false.
Proof. by destruct a. Qed.

Lemma SFltb_nan_r (a : spec_float) : SFltb a S754_nan = false.
Proof. by destruct a. Qed.

Lemma add_nan_l (a : spec_float) : F32.add S754_nan a = S754_nan.
Proof. by destruct a. Qed.

Lemma mul_nan_l (a : spec_float) : F32.mul S754_nan a = S754_nan.
Proof. by destruct a. Qed.

Lemma mul_nan_r (a : spec_float) : F32.mul a S754_nan = S754_nan.
Proof. by destruct a. Qed.

Lemma sub_nan_l (a : spec_float) : F32.sub S754_nan a = S754_nan.
Proof. by destruct a. Qed.

Lemma add_nan_r (a : spec_float) : F32.add a S754_nan = S754_nan.
Proof. by destruct a. Qed.

Ltac nan_out :=
  repeat (progress rewrite ?sub_nan_l, ?mul_nan_l, ?mul_nan_r, ?add_nan_l, ?add_nan_r).

(** What a finite focal length projects the camera centre to. *)
Lemma project_centre (f c : spec_float) :
  is_finite f = true →
  F32.add (F32.mul (F32.mul f F32.zero) (F32.div F32.one F32.zero)) c = S754_nan.
Proof.
  intros Hf. destruct f as [s| | |s m e]; try done; destruct s; apply add_nan_l.
Qed.

(** C5, at the input where the code and the claim part: a landmark at the
    camera centre has depth zero, which the test [PcZ<0.0f] lets through;
    both helpers then return true, with NaN coordinates written to [kp],
    [u] and [v]. *)
Theorem ProjectPoint_accepts_zero_depth (cam : Camera)
    (kp0 : spec_float * spec_float) (u0 v0 : spec_float) :
  is_finite (fx cam) = true →
  is_finite (fy cam) = true →
  ProjectPointUnDistort cam (F32.zero, F32.zero, F32.zero) kp0 u0 v0
    = mkProjected true (S754_nan, S754_nan) S754_nan S754_nan ∧
  ProjectPointDistort cam (F32.zero, F32.zero, F32.zero) kp0 u0 v0
    = mkProjected true (S754_nan, S754_nan) S754_nan S754_nan.
Proof.
  intros Hfx Hfy.
  unfold ProjectPointUnDistort, ProjectPointDistort.
  change (F32.lt F32.zero F32.zero) with false. cbv iota.
  rewrite !project_centre by done.
  unfold F32.lt, F32.gt. rewrite !SFltb_nan_l, !SFltb_nan_r. cbn [orb].
  split; [done|].
  cbv zeta. by nan_out.
Qed.

Lemma ProjectPoint_accepts_zero_depth_witness :
  ProjectPointUnDistort vga (F32.zero, F32.zero, F32.zero) (F32.one, F32.one) F32.one F32.one
    = mkProjected true (S754_nan, S754_nan) S754_nan S754_nan ∧
  ProjectPointDistort vga (F32.zero, F32.zero, F32.zero) (F32.one, F32.one) F32.one F32.one
    = mkProjected true (S754_nan, S754_nan) S754_nan S754_nan.
Proof.
  apply (ProjectPoint_accepts_zero_depth vga (F32.one, F32.one) F32.one F32.one);
    reflexivity.
Defined.

(** A landmark behind the camera is rejected by both helpers, and nothing
    is written to [kp], [u] or [v]. *)
Theorem ProjectPoint_rejects_negative_depth (cam : Camera)
    (PcX PcY PcZ : spec_float) (kp0 : spec_float * spec_float) (u0 v0 : spec_float) :
  is_negative PcZ = true →
  ProjectPointUnDistort cam (PcX, PcY, PcZ) kp0 u0 v0 = mkProjected false kp0 u0 v0 ∧
  ProjectPointDistort cam (PcX, PcY, PcZ) kp0 u0 v0 = mkProjected false kp0 u0 v0.
Proof.
  intros Hneg. unfold ProjectPointUnDistort, ProjectPointDistort.
  assert (F32.lt PcZ F32.zero = true) as ->; [|done].
  by destruct PcZ as [[]|[]| |[] m e].
Qed.

Lemma ProjectPoint_rejects_negative_depth_witness :
  ProjectPointUnDistort vga (F32.one, F32.one, F32.of_Z (-2)) (F32.one, F32.one) F32.one F32.one
    = mkProjected false (F32.one, F32.one) F32.one F32.one ∧
  ProjectPointDistort vga (F32.one, F32.one, F32.of_Z (-2)) (F32.one, F32.one) F32.one F32.one
    = mkProjected false (F32.one, F32.one) F32.one F32.one.
Proof.
  apply (ProjectPoint_rejects_negative_depth vga F32.one F32.one (F32.of_Z (-2))).
  reflexivity.
Defined.

(** The two helpers accept the same points: the distorted coordinates are
    not tested against the image bounds.  When they reject, they leave the
    same values in [kp], [u] and [v]. *)
Theorem ProjectPointDistort_accepts_as_UnDistort (cam : Camera)
    (Pc : spec_float * spec_float * spec_float)
    (kp0 : spec_float * spec_float) (u0 v0 : spec_float) :
  ok (ProjectPointDistort cam Pc kp0 u0 v0) = ok (ProjectPointUnDistort cam Pc kp0 u0 v0) ∧
  (ok (ProjectPointUnDistort cam Pc kp0 u0 v0) = false →
   ProjectPointDistort cam Pc kp0 u0 v0 = ProjectPointUnDistort cam Pc kp0 u0 v0).
Proof.
  destruct Pc as [[PcX PcY] PcZ]. unfold ProjectPointUnDistort, ProjectPointDistort.
  destruct (F32.lt PcZ F32.zero); [done|]. cbv zeta.
  destruct (_ || _); [done|]. destruct (_ || _); [done|]. done.
Qed.

Lemma ProjectPointDistort_accepts_as_UnDistort_witness :
  ok (ProjectPointDistort vga (F32.one, F32.one, F32.of_Z (-2)) (F32.one, F32.one)
        F32.one F32.one)
  = ok (ProjectPointUnDistort vga (F32.one, F32.one, F32.of_Z (-2)) (F32.one, F32.one)
          F32.one F32.one) ∧
  ProjectPointDistort vga (F32.one, F32.one, F32.of_Z (-2)) (F32.one, F32.one)
    F32.one F32.one
  = ProjectPointUnDistort vga (F32.one, F32.one, F32.of_Z (-2)) (F32.one, F32.one)
      F32.one F32.one.
Proof.
  destruct (ProjectPointDistort_accepts_as_UnDistort vga
              (F32.one, F32.one, F32.of_Z (-2)) (F32.one, F32.one) F32.one F32.one)
    as [Hok Hsame].
  split; [exact Hok|]. apply Hsame. reflexivity.
Defined.

(** ** The median depth *)

Lemma scene_depths_null Rcw2 zcw slots n : ∀ i vDepths,
  (i + n ≤ length slots)%nat →
  (∀ j, (i ≤ j < i + n)%nat → slots !! j = Some None) →
  scene_depths Rcw2 zcw slots i n vDepths = Some vDepths.
Proof.
  induction n as [|n IH]; intros i vDepths Hlen Hnull; simpl; [done|].
  rewrite (Hnull i) by lia. apply IH; [lia|]. intros j Hj. apply Hnull. lia.
Qed.

(** Two edges of [ComputeSceneMedianDepth].  A keyframe without keypoints
    gives -1.  A keyframe with keypoints none of which has a landmark gives
    no value: the vector of depths is empty, [size()-1] wraps around, and
    the index read is past the end. *)
Theorem ComputeSceneMedianDepth_edges
    (N : Z) (slots : list (option (spec_float * spec_float * spec_float)))
    (Rcw2 : spec_float * spec_float * spec_float) (zcw : spec_float) (q : Z) :
  (N = 0 → ComputeSceneMedianDepth N slots Rcw2 zcw q = Value (F32.of_Z (-1))) ∧
  (0 < N ≤ Z.of_nat (length slots) →
   (∀ j, (j < Z.to_nat N)%nat → slots !! j = Some None) →
   0 < q < 2 ^ 31 →
   ComputeSceneMedianDepth N slots Rcw2 zcw q = PastTheEnd).
Proof.
  unfold ComputeSceneMedianDepth. split.
  - intros ->. done.
  - intros HN Hnull Hq. rewrite decide_False by lia.
    rewrite scene_depths_null; [|lia|intros j Hj; apply Hnull; lia].
    change (merge_sort depth_le []) with (@nil spec_float).
    unfold median_index. simpl length.
    rewrite (Z.mod_small q) by lia. rewrite decide_False by lia.
    change ((Z.of_nat 0 - 1) mod 2 ^ 64) with (2 ^ 64 - 1).
    done.
Qed.

Lemma ComputeSceneMedianDepth_edges_witness :
  ComputeSceneMedianDepth 0 [None; None] (F32.zero, F32.zero, F32.one) F32.zero 2
    = Value (F32.of_Z (-1)) ∧
  ComputeSceneMedianDepth 2 [None; None] (F32.zero, F32.zero, F32.one) F32.zero 2
    = PastTheEnd.
Proof.
  split.
  - apply (ComputeSceneMedianDepth_edges 0 [None; None]). reflexivity.
  - apply (ComputeSceneMedianDepth_edges 2 [None; None]
             (F32.zero, F32.zero, F32.one) F32.zero 2).
    + simpl. lia.
    + intros [|[|j]] Hj; [reflexivity|reflexivity|simpl in Hj; lia].
    + lia.
Defined.

Lemma scene_depths_grows Rcw2 zcw slots n : ∀ i vDepths r,
  scene_depths Rcw2 zcw slots i n vDepths = Some r →
  (length vDepths ≤ length r)%nat ∧
  (∀ j, (i ≤ j < i + n)%nat → is_Some (slots !! j)) ∧
  ((∃ j x, (i ≤ j < i + n)%nat ∧ slots !! j = Some (Some x)) →
   (length vDepths < length r)%nat).
Proof.
  induction n as [|n IH]; intros i vDepths r Hrun; simpl in Hrun.
  - injection Hrun as <-. split; [done|]. split; [lia|]. intros (j & x & Hj & _). lia.
  - destruct (slots !! i) as [[x|]|] eqn:Hi; [| |done].
    + destruct Rcw2 as [[r0 r1] r2], x as [[x y] z].
      apply IH in Hrun as (Hlen & Hsome & _). rewrite length_app in Hlen. simpl in Hlen.
      split; [lia|]. split.
      * intros j Hj. destruct (decide (j = i)) as [->|]; [by rewrite Hi|].
        apply Hsome. lia.
      * intros _. lia.
    + apply IH in Hrun as (Hlen & Hsome & Hlt). split; [done|]. split.
      * intros j Hj. destruct (decide (j = i)) as [->|]; [by rewrite Hi|].
        apply Hsome. lia.
      * intros (j & x & Hj & Hx). apply Hlt. exists j, x. split; [|done].
        destruct (decide (j = i)) as [->|]; [congruence|lia].
Qed.

Lemma scene_depths_total Rcw2 zcw slots n : ∀ i vDepths,
  (i + n ≤ length slots)%nat →
  is_Some (scene_depths Rcw2 zcw slots i n vDepths).
Proof.
  induction n as [|n IH]; intros i vDepths Hlen; simpl; [done|].
  destruct (lookup_lt_is_Some_2 slots i) as [[x|] ->]; [lia| |].
  - destruct Rcw2 as [[r0 r1] r2], x as [[x y] z]. apply IH. lia.
  - apply IH. lia.
Qed.

(** With a landmark in one of the slots and a divisor from 1 on,
    [ComputeSceneMedianDepth] returns a value: the entry at index
    [(size-1)/q] of the sorted depths, which is within the vector. *)
Theorem ComputeSceneMedianDepth_returns
    (N : Z) (slots : list (option (spec_float * spec_float * spec_float)))
    (Rcw2 : spec_float * spec_float * spec_float) (zcw : spec_float) (q : Z)
    (j : nat) (x : spec_float * spec_float * spec_float) :
  0 < N ≤ Z.of_nat (length slots) →
  (j < Z.to_nat N)%nat → slots !! j = Some (Some x) →
  0 < q < 2 ^ 31 →
  Z.of_nat (length slots) < 2 ^ 63 →
  ∃ vDepths d,
    scene_depths Rcw2 zcw slots 0 (Z.to_nat N) [] = Some vDepths ∧
    merge_sort depth_le vDepths !! Z.to_nat ((Z.of_nat (length vDepths) - 1) / q) = Some d ∧
    ComputeSceneMedianDepth N slots Rcw2 zcw q = Value d.
Proof.
  intros HN Hj Hx Hq Hbig. unfold ComputeSceneMedianDepth.
  rewrite decide_False by lia.
  destruct (scene_depths_total Rcw2 zcw slots (Z.to_nat N) 0 []) as [vDepths Hv]; [lia|].
  rewrite Hv. exists vDepths.
  pose proof (scene_depths_grows _ _ _ _ _ _ _ Hv) as (_ & _ & Hpos).
  assert (Hk : (0 < length vDepths)%nat).
  { apply Hpos. exists j, x. split; [lia|done]. }
  assert (Hle : (length vDepths ≤ Z.to_nat N)%nat).
  { clear -Hv. assert (Hgen : ∀ n i v r,
        scene_depths Rcw2 zcw slots i n v = Some r → (length r ≤ length v + n)%nat).
    { induction n as [|n IH]; intros i v r Hr; simpl in Hr.
      - injection Hr as <-. lia.
      - destruct (slots !! i) as [[y|]|]; [| |done].
        + destruct Rcw2 as [[r0 r1] r2], y as [[a b] c].
          apply IH in Hr. rewrite length_app in Hr. simpl in Hr. lia.
        + apply IH in Hr. lia. }
    apply Hgen in Hv. simpl in Hv. lia. }
  cbv zeta. unfold median_index.
  assert (Hlen : length (merge_sort depth_le vDepths) = length vDepths).
  { apply Permutation_length, merge_sort_Permutation. }
  rewrite Hlen. rewrite (Z.mod_small q) by lia. rewrite decide_False by lia.
  rewrite (Z.mod_small (Z.of_nat (length vDepths) - 1)) by lia.
  destruct (lookup_lt_is_Some_2 (merge_sort depth_le vDepths)
              (Z.to_nat ((Z.of_nat (length vDepths) - 1) / q))) as [d Hd].
  { rewrite Hlen.
    assert ((Z.of_nat (length vDepths) - 1) / q ≤ Z.of_nat (length vDepths) - 1).
    { apply Z.div_le_upper_bound; [lia|]. nia. }
    assert (0 ≤ (Z.of_nat (length vDepths) - 1) / q) by (apply Z.div_pos; lia).
    lia. }
  exists d. by rewrite Hd.
Qed.

Lemma ComputeSceneMedianDepth_returns_witness :
  ∃ vDepths d,
    scene_depths (F32.zero, F32.zero, F32.one) F32.zero
      [None; Some (F32.one, F32.one, F32.two)] 0 (Z.to_nat 2) [] = Some vDepths ∧
    merge_sort depth_le vDepths !! Z.to_nat ((Z.of_nat (length vDepths) - 1) / 2) = Some d ∧
    ComputeSceneMedianDepth 2 [None; Some (F32.one, F32.one, F32.two)]
      (F32.zero, F32.zero, F32.one) F32.zero 2 = Value d.
Proof.
  apply (ComputeSceneMedianDepth_returns 2 [None; Some (F32.one, F32.one, F32.two)]
           (F32.zero, F32.zero, F32.one) F32.zero 2 1 (F32.one, F32.one, F32.two)).
  - simpl. lia.
  - simpl. lia.
  - reflexivity.
  - lia.
  - simpl. lia.
Defined.

End ProjectionFacts.

(** * Rotation helpers and the pose vertex *)

Module G2oFacts.
Import G2o.

Lemma update_cameras_loop_body Rbw tbw idx p p' :
  update_cameras_loop Rbw tbw idx p = Ok p' → body p' = body p.
Proof.
  revert p. induction idx as [|i idx IH]; intros p H; cbn in H.
  - by injection H as <-.
  - unfold update_camera in H.
    destruct (Rcb p !! i), (tcb p !! i), (Rcw p !! i), (tcw p !! i); try done.
    by apply IH in H.
Qed.

Lemma update_cameras_body p p' :
  update_cameras p = Ok p' → body p' = body p.
Proof. apply update_cameras_loop_body. Qed.




(** C7, as the code has it: on the third [Update] the rotation kept is the
    plain product [Rwb * expSO3(ur)], and on the fifth [UpdateW] the cache
    kept is [expSO3(ur) * DR] with its four entries zeroed; the value of
    [normalizeRotation] is not stored in either.  The counter is reset. *)
Theorem normalisation_is_discarded (sin cos : spec_float → spec_float)
    (svd : Matrix3d → Matrix3d) (p p' q q' : ImuCamPose) (ur ut : Vector3d) :
  its p = 2 →
  Update sin cos svd p (Some (ur, ut)) = Ok p' →
  its q = 4 →
  UpdateW sin cos svd q (Some (ur, ut)) = Ok q' →
  (Rwb p' = mmul (Rwb p) (expSO3 sin cos svd ur) ∧ its p' = 0) ∧
  (DR q' = zero_off_plane (mmul (expSO3 sin cos svd ur) (DR q)) ∧
   Rwb q' = mmul (mmul (expSO3 sin cos svd ur) (DR q)) (Rwb0 q) ∧
   its q' = 0).
Proof.
  intros Hp HU Hq HW. unfold Update in HU. unfold UpdateW in HW.
  rewrite Hp in HU. rewrite Hq in HW.
  change (bool_decide (2 + 1 >= 3)) with true in HU.
  change (bool_decide (4 + 1 >= 5)) with true in HW.
  cbv zeta iota beta in HU, HW.
  apply update_cameras_body in HU. apply update_cameras_body in HW.
  unfold body in HU, HW. cbn in HU, HW.
  by simplify_eq.
Qed.

Lemma normalisation_is_discarded_witness :
  (Rwb third_after = mmul (Rwb third) (expSO3 (λ a, a) (λ a, a) (λ R, R) vzero) ∧
   its third_after = 0) ∧
  (DR fifth_after = zero_off_plane (mmul (expSO3 (λ a, a) (λ a, a) (λ R, R) vzero) (DR fifth)) ∧
   Rwb fifth_after = mmul (mmul (expSO3 (λ a, a) (λ a, a) (λ R, R) vzero) (DR fifth)) (Rwb0 fifth) ∧
   its fifth_after = 0).
Proof.
  apply (normalisation_is_discarded (λ a, a) (λ a, a) (λ R, R)
           third third_after fifth fifth_after vzero vzero).
  - reflexivity.
  - vm_compute. reflexivity.
  - reflexivity.
  - vm_compute. reflexivity.
Defined.

(** The rotation that the third [Update] leaves in [third] is the drifted
    matrix it started with: its first column still has squared norm above
    one. *)
Example third_update_keeps_drift (sin cos : spec_float → spec_float)
    (svd : Matrix3d → Matrix3d) :
  svd Identity = Identity →
  ∃ p', Update sin cos svd third (Some (vzero, vzero)) = Ok p' ∧
        Rwb p' = drifted ∧
        F64.gt (squaredNorm (V3 (m00 (Rwb p')) (m10 (Rwb p')) (m20 (Rwb p')))) F64.one = true.
Proof.
  intros Hsvd.
  assert (Hexp : expSO3 sin cos svd vzero = Identity).
  { unfold expSO3. change (F64.lt _ F64.small) with true. cbv iota zeta.
    unfold normalizeRotation. rewrite <- Hsvd at 2. f_equal. }
  unfold Update. rewrite Hexp.
  eexists. split; [vm_compute; reflexivity|].
  split; vm_compute; reflexivity.
Qed.

(** ** The matrices of the file *)

Lemma opp_involutive (a : spec_float) : F64.opp (F64.opp a) = a.
Proof. destruct a as [s|s| |s m e]; simpl; by rewrite ?negb_involutive. Qed.

(** The skew-symmetric matrix of the opposite vector is the transpose,
    entry by entry, signs of zero included. *)
Theorem skew_opp_is_transpose (w : Vector3d) :
  skew (vopp w) = transpose (skew w).
Proof.
  destruct w as [a b c]. unfold skew, transpose, vopp, vmap. simpl.
  by rewrite !opp_involutive.
Qed.

(** ** The loop over the cameras *)

Lemma update_camera_Ok Rbw tbw p i Rcb_i tcb_i :
  Rcb p !! i = Some Rcb_i → tcb p !! i = Some tcb_i →
  (i < length (Rcw p))%nat → (i < length (tcw p))%nat →
  update_camera Rbw tbw p i
  = Ok (set_view (<[i := mmul Rcb_i Rbw]> (Rcw p))
                 (<[i := vadd (mvmul Rcb_i tbw) tcb_i]> (tcw p)) p).
Proof.
  intros HR Ht H1 H2. unfold update_camera. rewrite HR, Ht.
  destruct (lookup_lt_is_Some_2 _ _ H1) as [? ->].
  by destruct (lookup_lt_is_Some_2 _ _ H2) as [? ->].
Qed.

Lemma update_cameras_loop_spec Rbw tbw idx : ∀ p,
  NoDup idx →
  (∀ i, i ∈ idx → (i < length (Rcb p))%nat ∧ (i < length (tcb p))%nat ∧
                  (i < length (Rcw p))%nat ∧ (i < length (tcw p))%nat) →
  ∃ p', update_cameras_loop Rbw tbw idx p = Ok p' ∧
    length (Rcw p') = length (Rcw p) ∧ length (tcw p') = length (tcw p) ∧
    (∀ i, i ∉ idx → Rcw p' !! i = Rcw p !! i ∧ tcw p' !! i = tcw p !! i) ∧
    (∀ i Rcb_i tcb_i, i ∈ idx → Rcb p !! i = Some Rcb_i → tcb p !! i = Some tcb_i →
       Rcw p' !! i = Some (mmul Rcb_i Rbw) ∧
       tcw p' !! i = Some (vadd (mvmul Rcb_i tbw) tcb_i)).
Proof.
  induction idx as [|i idx IH]; intros p Hnd Hlen.
  - exists p. split_and!; try done. intros i ?? Hi. by apply elem_of_nil in Hi.
  - apply NoDup_cons in Hnd as [Hi Hnd].
    destruct (Hlen i) as (H1 & H2 & H3 & H4); [by left|].
    destruct (lookup_lt_is_Some_2 _ _ H1) as [Rcb_i HR].
    destruct (lookup_lt_is_Some_2 _ _ H2) as [tcb_i Ht].
    cbn [update_cameras_loop]. rewrite (update_camera_Ok _ _ _ _ _ _ HR Ht H3 H4).
    set (p1 := set_view _ _ p).
    destruct (IH p1 Hnd) as (p' & Hrun & HlR & Hlt & Hout & Hin).
    { intros j Hj. destruct (Hlen j) as (?&?&?&?); [by right|].
      subst p1. cbn [set_view Rcb tcb Rcw tcw]. by rewrite !length_insert. }
    assert (HR1 : Rcw p1 = <[i := mmul Rcb_i Rbw]> (Rcw p)) by done.
    assert (Ht1 : tcw p1 = <[i := vadd (mvmul Rcb_i tbw) tcb_i]> (tcw p)) by done.
    assert (HRb : Rcb p1 = Rcb p) by done.
    assert (Htb : tcb p1 = tcb p) by done.
    clearbody p1. rewrite HR1 in HlR, Hout. rewrite Ht1 in Hlt, Hout.
    rewrite HRb, Htb in Hin.
    rewrite length_insert in HlR. rewrite length_insert in Hlt.
    exists p'. split_and!; try done.
    + intros j Hj. apply not_elem_of_cons in Hj as [Hne Hj].
      destruct (Hout j Hj) as [-> ->].
      by rewrite !list_lookup_insert_ne.
    + intros j Rj tj Hj HRj Htj. apply elem_of_cons in Hj as [->|Hj].
      * destruct (Hout i Hi) as [-> ->]. simplify_eq.
        by rewrite !list_lookup_insert_eq.
      * by apply Hin.
Qed.

(** With a rotation, a translation and room for a pose for every camera,
    [Update] completes, and leaves for every camera the pose derived from
    the new body pose: [Rcw[i] = Rcb[i] * Rwb^T] and
    [tcw[i] = Rcb[i] * (-Rwb^T * twb) + tcb[i]]. *)
Theorem Update_rederives_cameras (sin cos : spec_float → spec_float)
    (svd : Matrix3d → Matrix3d) (p : ImuCamPose) (ur ut : Vector3d) :
  (length (pCamera p) ≤ length (Rcb p))%nat →
  (length (pCamera p) ≤ length (tcb p))%nat →
  (length (pCamera p) ≤ length (Rcw p))%nat →
  (length (pCamera p) ≤ length (tcw p))%nat →
  ∃ p', Update sin cos svd p (Some (ur, ut)) = Ok p' ∧
    ∀ i Rcb_i tcb_i, (i < length (pCamera p))%nat →
      Rcb p !! i = Some Rcb_i → tcb p !! i = Some tcb_i →
      Rcw p' !! i = Some (mmul Rcb_i (transpose (Rwb p'))) ∧
      tcw p' !! i
        = Some (vadd (mvmul Rcb_i (mvmul (mopp (transpose (Rwb p'))) (twb p'))) tcb_i).
Proof.
  intros H1 H2 H3 H4. unfold Update, update_cameras.
  set (p1 := set_body _ _ _ p).
  destruct (update_cameras_loop_spec (transpose (Rwb p1))
              (mvmul (mopp (transpose (Rwb p1))) (twb p1))
              (seq 0 (length (pCamera p1))) p1) as (p' & Hrun & _ & _ & _ & Hin).
  { apply NoDup_seq. }
  { intros i Hi%elem_of_seq. subst p1. simpl in *. lia. }
  exists p'. split; [done|].
  pose proof (update_cameras_loop_body _ _ _ _ _ Hrun) as Hbody.
  unfold body in Hbody. injection Hbody as Ht HR _ _ _ _ _ _ _ _ _.
  rewrite Ht, HR. intros i Rcb_i tcb_i Hi HRi Hti.
  apply Hin; [|done..]. apply elem_of_seq. subst p1. simpl. lia.
Qed.

Lemma Update_rederives_cameras_witness :
  ∃ p', Update (λ a, a) (λ a, a) (λ R, R) third (Some (vzero, vzero)) = Ok p' ∧
    ∀ i Rcb_i tcb_i, (i < length (pCamera third))%nat →
      Rcb third !! i = Some Rcb_i → tcb third !! i = Some tcb_i →
      Rcw p' !! i = Some (mmul Rcb_i (transpose (Rwb p'))) ∧
      tcw p' !! i
        = Some (vadd (mvmul Rcb_i (mvmul (mopp (transpose (Rwb p'))) (twb p'))) tcb_i).
Proof.
  apply (Update_rederives_cameras (λ a, a) (λ a, a) (λ R, R) third vzero vzero);
    vm_compute; lia.
Defined.

(** With room for a pose for every camera, [UpdateW] completes: the
    translation moves by [ut], the body rotation is
    [expSO3(ur) * DR * Rwb0] with the cache as it was before any of its
    entries is zeroed, and every camera gets the pose derived from the new
    body pose. *)
Theorem UpdateW_rederives_cameras (sin cos : spec_float → spec_float)
    (svd : Matrix3d → Matrix3d) (p : ImuCamPose) (ur ut : Vector3d) :
  (length (pCamera p) ≤ length (Rcb p))%nat →
  (length (pCamera p) ≤ length (tcb p))%nat →
  (length (pCamera p) ≤ length (Rcw p))%nat →
  (length (pCamera p) ≤ length (tcw p))%nat →
  ∃ p', UpdateW sin cos svd p (Some (ur, ut)) = Ok p' ∧
    twb p' = vadd (twb p) ut ∧
    Rwb p' = mmul (mmul (expSO3 sin cos svd ur) (DR p)) (Rwb0 p) ∧
    ∀ i Rcb_i tcb_i, (i < length (pCamera p))%nat →
      Rcb p !! i = Some Rcb_i → tcb p !! i = Some tcb_i →
      Rcw p' !! i = Some (mmul Rcb_i (transpose (Rwb p'))) ∧
      tcw p' !! i
        = Some (vadd (mvmul Rcb_i (mvmul (mopp (transpose (Rwb p'))) (twb p'))) tcb_i).
Proof.
  intros H1 H2 H3 H4. unfold UpdateW, update_cameras.
  destruct (bool_decide (its p + 1 >= 5)).
  all: match goal with
       | |- ∃ p', update_cameras_loop ?Rbw ?tbw ?idx ?p1 = _ ∧ _ =>
           destruct (update_cameras_loop_spec Rbw tbw idx p1)
             as (p' & Hrun & _ & _ & _ & Hin);
             [apply NoDup_seq|intros i Hi%elem_of_seq; simpl in *; lia|];
           exists p'; split; [exact Hrun|];
           pose proof (update_cameras_loop_body _ _ _ _ _ Hrun) as Hbody;
           unfold body in Hbody; injection Hbody as Ht HR _ _ _ _ _ _ _ _ _;
           rewrite Ht, HR; split; [done|]; split; [done|];
           intros i Rcb_i tcb_i Hi HRi Hti;
           apply Hin; [apply elem_of_seq; simpl; lia|done..]
       end.
Qed.

Lemma UpdateW_rederives_cameras_witness :
  ∃ p', UpdateW (λ a, a) (λ a, a) (λ R, R) fifth (Some (vzero, vzero)) = Ok p' ∧
    twb p' = vadd (twb fifth) vzero ∧
    Rwb p' = mmul (mmul (expSO3 (λ a, a) (λ a, a) (λ R, R) vzero) (DR fifth)) (Rwb0 fifth) ∧
    ∀ i Rcb_i tcb_i, (i < length (pCamera fifth))%nat →
      Rcb fifth !! i = Some Rcb_i → tcb fifth !! i = Some tcb_i →
      Rcw p' !! i = Some (mmul Rcb_i (transpose (Rwb p'))) ∧
      tcw p' !! i
        = Some (vadd (mvmul Rcb_i (mvmul (mopp (transpose (Rwb p'))) (twb p'))) tcb_i).
Proof.
  apply (UpdateW_rederives_cameras (λ a, a) (λ a, a) (λ R, R) fifth vzero vzero);
    vm_compute; lia.
Defined.

(** ** SetParam *)

Lemma mapM_length_Some {A B} (f : A → option B) l k :
  mapM f l = Some k → length k = length l.
Proof. intros H. by apply mapM_Some, Forall2_length in H. Qed.

(** A completed [SetParam] sizes [Rcb] and [tcb] by the number of cameras
    that the pose had before the call, which is at least one and at most
    the number of cameras passed in; the vectors passed in are stored as
    they are. *)
Theorem SetParam_keeps_old_camera_count (p p' : ImuCamPose)
    (_Rcw : list Matrix3d) (_tcw : list Vector3d)
    (_Rbc : list Matrix3d) (_tbc : list Vector3d) (_bf : spec_float) :
  SetParam p _Rcw _tcw _Rbc _tbc _bf = Ok p' →
  length (Rcb p') = length (Rbc p) ∧ length (tcb p') = length (Rbc p) ∧
  (1 ≤ length (Rbc p) ≤ length _Rbc)%nat ∧
  Rbc p' = _Rbc ∧ Rcw p' = _Rcw ∧
  ∀ i R, Rcb p' !! i = Some R → ∃ R0, _Rbc !! i = Some R0 ∧ R = transpose R0.
Proof.
  unfold SetParam. intros H.
  destruct (mapM _ _) as [cb|] eqn:Hcb; [|done].
  pose proof (mapM_length_Some _ _ _ Hcb) as Hlen. rewrite length_seq in Hlen.
  destruct (_Rcw !! 0%nat) as [Rcw0|]; [|done].
  destruct (_tcw !! 0%nat) as [tcw0|]; [|done].
  destruct (cb !! 0%nat) as [[Rcb0 tcb0]|] eqn:H0; [|done].
  injection H as <-. simpl. rewrite !length_fmap.
  apply mapM_Some in Hcb.
  assert (Hall : ∀ i x, cb !! i = Some x →
            ∃ R0, _Rbc !! i = Some R0 ∧ x.1 = transpose R0).
  { intros i x Hx.
    destruct (Forall2_lookup_r _ _ _ _ _ Hcb Hx) as (j & Hj & Hf).
    apply lookup_seq in Hj as [-> _]. simpl in Hf.
    unfold SetParam_camera in Hf.
    destruct (_Rbc !! i) as [R0|]; [|done]. simpl in Hf.
    destruct (_tbc !! i) as [t0|]; [|done]. simpl in Hf.
    injection Hf as <-. eauto. }
  split_and!; try done.
  - apply lookup_lt_Some in H0. lia.
  - destruct (length (Rbc p)) as [|n] eqn:Hn; [apply lookup_lt_Some in H0; lia|].
    rewrite <- Hlen in Hn.
    destruct (lookup_lt_is_Some_2 cb n) as [x Hx]; [lia|].
    destruct (Hall _ _ Hx) as (R0 & HR0 & _).
    apply lookup_lt_Some in HR0. lia.
  - intros i R HR. rewrite list_lookup_fmap in HR.
    destruct (cb !! i) as [x|] eqn:Hx; [|done]. injection HR as <-.
    eauto.
Qed.

Lemma SetParam_keeps_old_camera_count_witness :
  length (Rcb rest_two) = length (Rbc rest) ∧
  length (tcb rest_two) = length (Rbc rest) ∧
  (1 ≤ length (Rbc rest) ≤ length [Identity; Identity])%nat ∧
  Rbc rest_two = [Identity; Identity] ∧ Rcw rest_two = [Identity; Identity] ∧
  ∀ i R, Rcb rest_two !! i = Some R →
    ∃ R0, [Identity; Identity] !! i = Some R0 ∧ R = transpose R0.
Proof.
  apply (SetParam_keeps_old_camera_count rest rest_two
           [Identity; Identity] [vzero; vzero] [Identity; Identity] [vzero; vzero]
           F64.one).
  vm_compute. reflexivity.
Defined.

End G2oFacts.

(** * Landmark slots *)

Lemma count_slots l n :
  foldl (λ numberMPs pMP, if decide (pMP = NULL) then numberMPs else numberMPs + 1) n l
  = n + Z.of_nat (length (filter (λ pMP, pMP ≠ NULL) l)).
Proof.
  revert n. induction l as [|p l IH]; intros n; simpl; [lia|].
  rewrite IH, filter_cons. destruct (decide (p = NULL)).
  - rewrite decide_False by (by intros []). lia.
  - rewrite decide_True by done. simpl. lia.
Qed.

Lemma count_slots_insert (l : list nat) idx old pMP :
  l !! idx = Some old →
  (length (filter (λ p, p ≠ NULL) (<[idx := pMP]> l))
     + (if decide (old = NULL) then 0 else 1)
   = length (filter (λ p, p ≠ NULL) l)
     + (if decide (pMP = NULL) then 0 else 1))%nat.
Proof.
  revert idx. induction l as [|p l IH]; intros [|idx] Hold; simpl in Hold; try done.
  - injection Hold as ->. simpl. rewrite !filter_cons.
    destruct (decide (old = NULL)), (decide (pMP = NULL)).
    + rewrite !decide_False by (by intros []). lia.
    + rewrite decide_True by done. rewrite decide_False by (by intros []). simpl. lia.
    + rewrite decide_False by (by intros []). rewrite decide_True by done. simpl. lia.
    + rewrite !decide_True by done. simpl. lia.
  - simpl. rewrite !filter_cons. specialize (IH _ Hold).
    destruct (decide (p ≠ NULL)); simpl; lia.
Qed.

Lemma GetNumberMPs_Ok this w r :
  GetNumberMPs this w = Ok r ↔
  this ≠ NULL ∧ ∃ kf, keyframes w !! this = Some kf ∧
    r = (Z.of_nat (length (filter (λ pMP, pMP ≠ NULL) (mvpMapPoints kf))), w).
Proof.
  unfold GetNumberMPs. rewrite bind_Ok. setoid_rewrite kf_get_Ok.
  setoid_rewrite ret_Ok. setoid_rewrite count_slots. naive_solver.
Qed.

(** A completed [AddMapPoint] writes the slot and no other: [GetMapPoint]
    reads the landmark back, and [GetNumberMPs] moves by one for a slot
    that goes from empty to filled or back, and not at all otherwise. *)
Theorem AddMapPoint_then_GetMapPoint this pMP idx w w' old n :
  AddMapPoint this pMP idx w = Ok (tt, w') →
  GetMapPoint this idx w = Ok (old, w) →
  GetNumberMPs this w = Ok (n, w) →
  GetMapPoint this idx w' = Ok (pMP, w') ∧
  (∀ j, j ≠ idx → ∀ p, GetMapPoint this j w = Ok (p, w) →
                       GetMapPoint this j w' = Ok (p, w')) ∧
  GetNumberMPs this w'
    = Ok (n - (if decide (old = NULL) then 0 else 1)
            + (if decide (pMP = NULL) then 0 else 1), w').
Proof.
  intros Hadd Hold Hn. unfold AddMapPoint in Hadd. bind_get Hadd as kf Hnn Hkf.
  case_decide as Hidx; [|done]. apply kf_put_Ok in Hadd as [= ->].
  unfold GetMapPoint in Hold. bind_get Hold as kf0 Hnn0 Hkf0.
  rewrite Hkf in Hkf0. injection Hkf0 as <-.
  destruct (mvpMapPoints kf !! idx) as [o|] eqn:Ho; [|done].
  apply ret_Ok in Hold as [= <-].
  apply GetNumberMPs_Ok in Hn as (_ & kf0 & Hkf0 & [= ->]).
  rewrite Hkf in Hkf0. injection Hkf0 as <-.
  set (kf' := set_mapPoints (<[idx := pMP]> (mvpMapPoints kf)) kf).
  set (w' := set_keyframes (<[this := kf']> (keyframes w)) w).
  assert (Hkf' : keyframes w' !! this = Some kf') by apply lookup_insert_eq.
  split_and!.
  - unfold GetMapPoint, mbind, Op_bind. rewrite (kf_get_valid _ _ _ Hnn Hkf').
    simpl. by rewrite list_lookup_insert_eq.
  - intros j Hj p Hp. unfold GetMapPoint in Hp. bind_get Hp as kf0 Hnn1 Hkf0.
    rewrite Hkf in Hkf0. injection Hkf0 as <-.
    unfold GetMapPoint, mbind, Op_bind. rewrite (kf_get_valid _ _ _ Hnn Hkf').
    simpl. rewrite list_lookup_insert_ne by done.
    destruct (mvpMapPoints kf !! j); [|done]. by apply ret_Ok in Hp as [= ->].
  - apply GetNumberMPs_Ok. split; [done|]. exists kf'. split; [done|]. f_equal.
    subst kf'. simpl.
    pose proof (count_slots_insert _ _ _ pMP Ho) as Hc.
    destruct (decide (old = NULL)), (decide (pMP = NULL)); lia.
Qed.

Lemma AddMapPoint_then_GetMapPoint_witness :
  GetMapPoint 3%nat 0%nat (Fixture.after (AddMapPoint 3%nat NULL 0%nat) Fixture.linked)
    = Ok (NULL, Fixture.after (AddMapPoint 3%nat NULL 0%nat) Fixture.linked) ∧
  (∀ j, j ≠ 0%nat → ∀ p, GetMapPoint 3%nat j Fixture.linked = Ok (p, Fixture.linked) →
     GetMapPoint 3%nat j (Fixture.after (AddMapPoint 3%nat NULL 0%nat) Fixture.linked)
       = Ok (p, Fixture.after (AddMapPoint 3%nat NULL 0%nat) Fixture.linked)) ∧
  GetNumberMPs 3%nat (Fixture.after (AddMapPoint 3%nat NULL 0%nat) Fixture.linked)
    = Ok (1 - (if decide (20%nat = NULL) then 0 else 1)
            + (if decide (NULL = NULL) then 0 else 1),
          Fixture.after (AddMapPoint 3%nat NULL 0%nat) Fixture.linked).
Proof.
  apply (AddMapPoint_then_GetMapPoint 3%nat NULL 0%nat Fixture.linked
           (Fixture.after (AddMapPoint 3%nat NULL 0%nat) Fixture.linked) 20%nat 1);
    vm_compute; reflexivity.
Defined.

(** A completed [GetMapPoints] returns the landmarks that are in a slot
    and are not bad, each once however many slots hold it, and changes
    nothing; their number is at most [GetNumberMPs]. *)
Theorem GetMapPoints_are_live_slots this w s w' kf :
  GetMapPoints this w = Ok (s, w') →
  keyframes w !! this = Some kf →
  w' = w ∧
  (∀ pMP, pMP ∈ s ↔
     pMP ∈ mvpMapPoints kf ∧ pMP ≠ NULL ∧
     ∃ mp, mappoints w !! pMP = Some mp ∧ mp_mbBad mp = false) ∧
  ∃ n, GetNumberMPs this w = Ok (n, w) ∧ Z.of_nat (size s) ≤ n.
Proof.
  unfold GetMapPoints. intros Hrun Hkf. bind_get Hrun as kf0 Hnn Hkf0.
  rewrite Hkf in Hkf0. injection Hkf0 as <-.
  assert (Hgen : ∀ l (acc s : gset nat) w',
    fold_each l
      (λ s pMP, if decide (pMP = NULL) then mret s
                else (mp ← mp_get pMP;
                      mret (if mp_mbBad mp then s else s ∪ {[pMP]}))) acc w
      = Ok (s, w') →
    w' = w ∧
    (∀ pMP, pMP ∈ s ↔
       pMP ∈ acc ∨ (pMP ∈ l ∧ pMP ≠ NULL ∧
                    ∃ mp, mappoints w !! pMP = Some mp ∧ mp_mbBad mp = false)) ∧
    (size s ≤ size acc + length (filter (λ pMP, pMP ≠ NULL) l))%nat).
  { clear. induction l as [|p l IH]; intros acc s w' Hrun; simpl in Hrun.
    - apply ret_Ok in Hrun as [= -> ->]. split; [done|]. split; [|simpl; lia].
      intros pMP. split; [by left|]. intros [|[[]%elem_of_nil _]]. done.
    - apply bind_Ok in Hrun as (a & w1 & Hhd & Htl).
      rewrite filter_cons. destruct (decide (p = NULL)) as [->|Hp].
      + apply ret_Ok in Hhd as [= -> ->]. apply IH in Htl as (-> & Hs & Hsz).
        rewrite decide_False by (by intros []).
        split; [done|]. split; [|done]. intros pMP. rewrite Hs.
        rewrite elem_of_cons. naive_solver.
      + rewrite decide_True by done.
        apply bind_Ok in Hhd as (mp & w2 & Hget & Hret).
        apply mp_get_Ok in Hget as (_ & mp0 & Hmp & [= <- ->]).
        apply ret_Ok in Hret as [= -> ->]. apply IH in Htl as (-> & Hs & Hsz).
        split; [done|]. split.
        * intros pMP. rewrite Hs, elem_of_cons.
          destruct (mp_mbBad mp) eqn:Hbad.
          -- split; [naive_solver|].
             intros [?|([->|?] & ? & mp' & Hmp' & Hb')]; [by left| |naive_solver].
             congruence.
          -- rewrite elem_of_union, elem_of_singleton. naive_solver.
        * simpl. destruct (mp_mbBad mp); [lia|].
          pose proof (size_union_alt acc {[p]}) as Hu.
          assert (size ({[p]} ∖ acc : gset nat) ≤ size ({[p]} : gset nat))%nat
            by (apply subseteq_size; set_solver).
          rewrite size_singleton in H. lia. }
  apply Hgen in Hrun as (-> & Hs & Hsz). split; [done|]. split.
  - intros pMP. rewrite Hs. set_solver.
  - eexists. split; [apply GetNumberMPs_Ok; eauto|].
    rewrite size_empty in Hsz. lia.
Qed.

Lemma GetMapPoints_are_live_slots_witness :
  Fixture.linked = Fixture.linked ∧
  (∀ pMP, pMP ∈ ({[ 20%nat ]} : gset nat) ↔
     pMP ∈ mvpMapPoints (Fixture.at_ Fixture.linked 3%nat) ∧ pMP ≠ NULL ∧
     ∃ mp, mappoints Fixture.linked !! pMP = Some mp ∧ mp_mbBad mp = false) ∧
  ∃ n, GetNumberMPs 3%nat Fixture.linked = Ok (n, Fixture.linked) ∧
       Z.of_nat (size ({[ 20%nat ]} : gset nat)) ≤ n.
Proof.
  apply (GetMapPoints_are_live_slots 3%nat Fixture.linked {[ 20%nat ]} Fixture.linked
           (Fixture.at_ Fixture.linked 3%nat)); vm_compute; reflexivity.
Defined.

(** * Further properties of the keyframe graph *)

(** ** Covisibility weights *)

(** A completed [AddConnection] stores the weight: [GetWeight] reads it
    back, the weights of the other neighbours read as before, and no other
    keyframe is written to. *)
Theorem AddConnection_then_GetWeight this pKF weight w w' :
  AddConnection this pKF weight w = Ok (tt, w') →
  GetWeight this pKF w' = Ok (weight, w') ∧
  (∀ q c, q ≠ pKF → GetWeight this q w = Ok (c, w) → GetWeight this q w' = Ok (c, w')) ∧
  (∀ p, p ≠ this → keyframes w' !! p = keyframes w !! p).
Proof.
  intros Hrun.
  pose proof (AddConnection_Ok _ _ _ _ _ Hrun)
    as (Hnn & kf & kf' & Hkf & -> & Hw & _).
  split_and!.
  - apply GetWeight_Ok. split; [done|]. exists kf'. simpl.
    split; [apply lookup_insert_eq|]. by rewrite Hw, lookup_insert_eq.
  - intros q c Hq (_ & kf0 & Hkf0 & [= ->])%GetWeight_Ok.
    rewrite Hkf in Hkf0. injection Hkf0 as <-.
    apply GetWeight_Ok. split; [done|]. exists kf'. simpl.
    split; [apply lookup_insert_eq|]. by rewrite Hw, lookup_insert_ne.
  - intros p Hp. simpl. by rewrite lookup_insert_ne.
Qed.

Lemma AddConnection_then_GetWeight_witness :
  GetWeight 3%nat 1%nat (Fixture.after (AddConnection 3%nat 1%nat 7) Fixture.linked)
    = Ok (7, Fixture.after (AddConnection 3%nat 1%nat 7) Fixture.linked) ∧
  (∀ q c, q ≠ 1%nat → GetWeight 3%nat q Fixture.linked = Ok (c, Fixture.linked) →
     GetWeight 3%nat q (Fixture.after (AddConnection 3%nat 1%nat 7) Fixture.linked)
       = Ok (c, Fixture.after (AddConnection 3%nat 1%nat 7) Fixture.linked)) ∧
  (∀ p, p ≠ 3%nat →
     keyframes (Fixture.after (AddConnection 3%nat 1%nat 7) Fixture.linked) !! p
       = keyframes Fixture.linked !! p).
Proof.
  apply (AddConnection_then_GetWeight 3%nat 1%nat 7 Fixture.linked).
  vm_compute. reflexivity.
Defined.

(** A completed [EraseConnection] leaves weight 0 for the neighbour; when
    the neighbour had no entry the world is left as it was, the cached
    ordering included. *)
Theorem EraseConnection_then_GetWeight this pKF w w' :
  EraseConnection this pKF w = Ok (tt, w') →
  GetWeight this pKF w' = Ok (0, w') ∧
  (weight_of w this pKF = None → w' = w) ∧
  (∀ p, p ≠ this → keyframes w' !! p = keyframes w !! p).
Proof.
  intros Hrun.
  pose proof (EraseConnection_Ok _ _ _ _ Hrun)
    as (Hnn & kf & kf' & Hkf & -> & Hw & _).
  split_and!.
  - apply GetWeight_Ok. split; [done|]. exists kf'. simpl.
    split; [apply lookup_insert_eq|]. by rewrite Hw, lookup_delete_eq.
  - intros Hnone. unfold weight_of in Hnone. rewrite Hkf in Hnone. simpl in Hnone.
    unfold EraseConnection in Hrun. bind_get Hrun as kf0 Hnn0 Hkf0.
    rewrite Hkf in Hkf0. injection Hkf0 as <-. rewrite Hnone in Hrun.
    by apply ret_Ok in Hrun as [= ->].
  - intros p Hp. simpl. by rewrite lookup_insert_ne.
Qed.

Lemma EraseConnection_then_GetWeight_witness :
  GetWeight 1%nat 2%nat (Fixture.after (EraseConnection 1%nat 2%nat) Fixture.linked)
    = Ok (0, Fixture.after (EraseConnection 1%nat 2%nat) Fixture.linked) ∧
  (weight_of Fixture.linked 1%nat 2%nat = None →
     Fixture.after (EraseConnection 1%nat 2%nat) Fixture.linked = Fixture.linked) ∧
  (∀ p, p ≠ 1%nat →
     keyframes (Fixture.after (EraseConnection 1%nat 2%nat) Fixture.linked) !! p
       = keyframes Fixture.linked !! p).
Proof.
  apply (EraseConnection_then_GetWeight 1%nat 2%nat Fixture.linked).
  vm_compute. reflexivity.
Defined.

(** ** Covisibility queries *)

Lemma upper_bound_antitone v w1 w2 :
  descending v → w1 ≤ w2 →
  (upper_bound v w2 weightComp ≤ upper_bound v w1 weightComp)%nat.
Proof.
  intros Hv Hle.
  destruct (upper_bound_spec v w1 Hv) as (Hl1 & _ & Hhi1).
  destruct (upper_bound_spec v w2 Hv) as (Hl2 & Hlo2 & _).
  destruct (decide (upper_bound v w2 weightComp ≤ upper_bound v w1 weightComp)%nat)
    as [|Hgt]; [done|]. exfalso.
  destruct (lookup_lt_is_Some_2 v (upper_bound v w1 weightComp)) as [x Hx]; [lia|].
  pose proof (Hhi1 _ _ (le_n _) Hx).
  assert (Hlt : (upper_bound v w1 weightComp < upper_bound v w2 weightComp)%nat) by lia.
  pose proof (Hlo2 _ _ Hlt Hx). lia.
Qed.

(** On a keyframe whose cache is in order, raising the threshold of
    [GetCovisiblesByWeight] shortens the answer from the end: the answer
    for the larger threshold is a prefix of the answer for the smaller one,
    which is a prefix of the whole ordered list. *)
Theorem GetCovisiblesByWeight_antitone p w kf w1 w2 :
  p ≠ NULL → keyframes w !! p = Some kf → ordering_ok (conn kf) →
  w1 ≤ w2 →
  ∃ l1 l2,
    GetCovisiblesByWeight p w1 w = Ok (l1, w) ∧
    GetCovisiblesByWeight p w2 w = Ok (l2, w) ∧
    l2 `prefix_of` l1 ∧
    l1 `prefix_of` mvpOrderedConnectedKeyFrames (conn kf).
Proof.
  intros Hp Hkf Hok Hle.
  exists (cached_at_least (conn kf) w1), (cached_at_least (conn kf) w2).
  split; [by apply GetCovisiblesByWeight_exact|].
  split; [by apply GetCovisiblesByWeight_exact|].
  rewrite !cached_at_least_take by done.
  pose proof (upper_bound_antitone (mvOrderedWeights (conn kf)) w1 w2 (proj2 Hok) Hle).
  split.
  - replace (upper_bound (mvOrderedWeights (conn kf)) w2 weightComp)
      with (upper_bound (mvOrderedWeights (conn kf)) w2 weightComp
            `min` upper_bound (mvOrderedWeights (conn kf)) w1 weightComp)%nat by lia.
    rewrite <- take_take. apply prefix_take.
  - apply prefix_take.
Qed.

Lemma GetCovisiblesByWeight_antitone_witness :
  ∃ l1 l2,
    GetCovisiblesByWeight 1%nat 1 Fixture.linked = Ok (l1, Fixture.linked) ∧
    GetCovisiblesByWeight 1%nat 15 Fixture.linked = Ok (l2, Fixture.linked) ∧
    l2 `prefix_of` l1 ∧
    l1 `prefix_of` mvpOrderedConnectedKeyFrames (conn (Fixture.at_ Fixture.linked 1%nat)).
Proof.
  apply (GetCovisiblesByWeight_antitone 1%nat Fixture.linked
           (Fixture.at_ Fixture.linked 1%nat) 1 15).
  - done.
  - vm_compute. reflexivity.
  - by_compute.
  - lia.
Defined.

(** ** Spanning tree *)

(** A completed [ChangeParent] sets the parent pointer of the child and
    enters the child in the children of the new parent; no other parent
    pointer changes and no children set loses a member: the former parent
    still lists the child. *)
Theorem ChangeParent_links_child c p w w' :
  ChangeParent c p w = Ok (tt, w') →
  parent_of w' c = Some p ∧
  c ∈ children_of w' p ∧
  (∀ x, x ≠ c → parent_of w' x = parent_of w x) ∧
  (∀ x, children_of w x ⊆ children_of w' x).
Proof.
  intros Hrun. split_and!.
  - rewrite (ChangeParent_parent_of _ _ _ _ _ Hrun). by rewrite decide_True.
  - rewrite (ChangeParent_children_of _ _ _ _ _ Hrun). rewrite decide_True by done.
    set_solver.
  - intros x Hx. rewrite (ChangeParent_parent_of _ _ _ _ _ Hrun).
    by rewrite decide_False.
  - intros x. rewrite (ChangeParent_children_of _ _ _ _ _ Hrun).
    case_decide; [subst; set_solver|done].
Qed.

Lemma ChangeParent_links_child_witness :
  parent_of (Fixture.after (ChangeParent 3%nat 2%nat) Fixture.linked) 3%nat = Some 2%nat ∧
  3%nat ∈ children_of (Fixture.after (ChangeParent 3%nat 2%nat) Fixture.linked) 2%nat ∧
  (∀ x, x ≠ 3%nat →
     parent_of (Fixture.after (ChangeParent 3%nat 2%nat) Fixture.linked) x
       = parent_of Fixture.linked x) ∧
  (∀ x, children_of Fixture.linked x
          ⊆ children_of (Fixture.after (ChangeParent 3%nat 2%nat) Fixture.linked) x).
Proof.
  apply (ChangeParent_links_child 3%nat 2%nat Fixture.linked).
  vm_compute. reflexivity.
Defined.

(** [ChangeParent] with the keyframe itself as parent throws and changes
    nothing: no run of it completes, and on an existing keyframe the fault
    is the exception. *)
Theorem ChangeParent_rejects_self c w :
  (∀ r, ChangeParent c c w ≠ Ok r) ∧
  (valid w c → ChangeParent c c w = Err InvalidArgument).
Proof.
  split.
  - intros [[] w'] Hrun. apply ChangeParent_Ok in Hrun as (_ & _ & Hne & _). done.
  - intros [Hnn [kf Hkf]]. unfold ChangeParent, mbind, Op_bind.
    rewrite (kf_get_valid _ _ _ Hnn Hkf). by rewrite decide_True.
Qed.

Lemma ChangeParent_rejects_self_witness :
  ChangeParent 2%nat 2%nat Fixture.linked = Err InvalidArgument.
Proof.
  apply (proj2 (ChangeParent_rejects_self 2%nat Fixture.linked)).
  split; [done|]. vm_compute. eauto.
Defined.

(** ** What a deletion writes and whom it calls *)

#[global] Instance same_events_preorder : PreOrder same_events.
Proof.
  split; [by intros ?|]. intros w1 w2 w3 H1 H2. unfold same_events in *. congruence.
Qed.

#[global] Instance same_outer_preorder : PreOrder same_outer.
Proof. apply _. Qed.

#[global] Instance same_cache_preorder : PreOrder same_cache.
Proof. apply _. Qed.

Lemma stays_events_kf_modify p f : stays same_events (kf_modify p f).
Proof. intros w [] w' (_ & kf & _ & [= ->])%kf_modify_Ok. done. Qed.

Lemma stays_outer_kf_modify p f : stays same_outer (kf_modify p f).
Proof. apply (stays_kf_modify_view outer_view). by intros []. Qed.

(** One step of a proof that a run keeps a view of every keyframe, or makes
    no call. *)
Ltac stays_more_step :=
  match goal with
  | |- stays same_events (kf_modify _ _) => apply stays_events_kf_modify
  | |- stays same_outer (kf_modify _ _) => apply stays_outer_kf_modify
  | |- stays same_cache (kf_modify _ _) =>
      apply (stays_kf_modify_view cache_view); by intros []
  | |- stays (same_view ?f) (emit _) =>
      apply stays_emit; [apply _|apply same_view_add_event]
  | |- stays same_outer (emit _) =>
      apply stays_emit; [apply _|apply same_view_add_event]
  | |- stays same_cache (emit _) =>
      apply stays_emit; [apply _|apply same_view_add_event]
  | _ => stays_step
  end.

(** The reattachment loop keeps whatever its two writes keep. *)
Lemma stays_reattach_loop_gen R `{!PreOrder R} this :
  (∀ c p, stays R (ChangeParent c p)) →
  (∀ c, stays R (kf_modify this (λ x, set_childrens (mspChildrens x ∖ {[c]}) x))) →
  ∀ fuel cands, stays R (reattach_loop fuel this cands).
Proof.
  intros HC HE fuel. induction fuel as [|fuel IH]; intros cands; simpl.
  - repeat stays_step.
  - apply stays_bind; [apply _|apply stays_kf_get, _|intros kf].
    destruct (decide _); [apply stays_ret, _|].
    apply stays_bind; [apply _| |intros b].
    { apply stays_readonly; [apply _|]. intros *. apply scan_children_readonly. }
    destruct (bContinue b); [|apply stays_ret, _].
    repeat (stays_step || apply HC || apply HE || apply IH).
Qed.

Lemma stays_events_UpdateBestCovisibles this :
  stays same_events (UpdateBestCovisibles this).
Proof. intros w [] w' (_ & kf & _ & ->)%UpdateBestCovisibles_Ok. done. Qed.

Lemma stays_outer_UpdateBestCovisibles this :
  stays same_outer (UpdateBestCovisibles this).
Proof.
  intros w [] w' (_ & kf & Hkf & ->)%UpdateBestCovisibles_Ok.
  by apply same_view_insert with kf.
Qed.

Lemma stays_events_ChangeParent c p : stays same_events (ChangeParent c p).
Proof. unfold ChangeParent, AddChild. repeat stays_more_step. Qed.

Lemma stays_outer_ChangeParent c p : stays same_outer (ChangeParent c p).
Proof. unfold ChangeParent, AddChild. repeat stays_more_step. Qed.

Lemma stays_cache_ChangeParent c p : stays same_cache (ChangeParent c p).
Proof. unfold ChangeParent, AddChild. repeat stays_more_step. Qed.

Lemma stays_events_reattach this : stays same_events (SetBadFlag_reattach this).
Proof.
  unfold SetBadFlag_reattach, adopt_remaining, EraseChild.
  repeat (stays_more_step || apply stays_events_ChangeParent
          || (apply stays_reattach_loop_gen;
              [apply _|apply stays_events_ChangeParent
              |intros ?; apply stays_events_kf_modify])).
Qed.

Lemma stays_outer_reattach this : stays same_outer (SetBadFlag_reattach this).
Proof.
  unfold SetBadFlag_reattach, adopt_remaining, EraseChild.
  repeat (stays_more_step || apply stays_outer_ChangeParent
          || (apply stays_reattach_loop_gen;
              [apply _|apply stays_outer_ChangeParent
              |intros ?; apply stays_outer_kf_modify])).
Qed.

Lemma stays_cache_reattach this : stays same_cache (SetBadFlag_reattach this).
Proof.
  unfold SetBadFlag_reattach, adopt_remaining, EraseChild.
  repeat (stays_more_step || apply stays_cache_ChangeParent
          || (apply stays_reattach_loop_gen;
              [apply _|apply stays_cache_ChangeParent
              |intros ?; apply (stays_kf_modify_view cache_view); by intros []])).
Qed.

(** The loop over the neighbours does not touch the keyframe itself and
    calls no collaborator. *)
Lemma detach_neighbours_own this (l : list (nat * Z)) w w' :
  for_each l
    (λ it, if decide (it.1 = this) then fail InvalidatedIterator
           else EraseConnection it.1 this) w = Ok (tt, w') →
  keyframes w' !! this = keyframes w !! this ∧ events w' = events w.
Proof.
  intros Hrun.
  eapply (for_each_preserves
            (λ w0, keyframes w0 !! this = keyframes w !! this ∧ events w0 = events w))
    in Hrun; [done| |done].
  intros it w0 [] w0' [Hk He] Hbody. case_decide as Hne; [done|].
  apply EraseConnection_Ok in Hbody as (_ & kf & kf' & _ & -> & _).
  simpl. by rewrite lookup_insert_ne.
Qed.

(** The loop over the landmark slots calls [EraseObservation] on every
    non-null slot, in slot order, and writes nothing. *)
Lemma detach_landmarks this slots w w' :
  for_each slots
    (λ pMP, if decide (pMP = NULL) then mret tt
            else (_ ← mp_get pMP; emit (EvEraseObservation pMP this))) w = Ok (tt, w') →
  keyframes w' = keyframes w ∧
  events w' = events w ++ erase_observations this slots.
Proof.
  revert w. induction slots as [|pMP slots IH]; intros w Hrun; simpl in Hrun.
  - apply ret_Ok in Hrun as [= ->]. by rewrite app_nil_r.
  - apply bind_Ok in Hrun as ([] & w1 & Hhd & Htl).
    apply IH in Htl as [-> ->]. unfold erase_observations.
    rewrite filter_cons. destruct (decide (pMP = NULL)) as [Hn|Hn].
    + rewrite decide_False by (by intros []).
      by apply ret_Ok in Hhd as [= ->].
    + rewrite decide_True by done.
      apply bind_Ok in Hhd as (mp & w2 & Hget & Hem).
      apply mp_get_Ok in Hget as (_ & ? & _ & [= <- ->]).
      apply emit_Ok in Hem as [= ->]. simpl. by rewrite <- app_assoc.
Qed.

Lemma SetBadFlag_detach_own this w w1 kf :
  SetBadFlag_detach this w = Ok (tt, w1) →
  keyframes w !! this = Some kf →
  keyframes w1 !! this
    = Some (with_conn (λ c, set_orderedKFs [] (set_weights ∅ c)) kf) ∧
  events w1 = events w ++ erase_observations this (mvpMapPoints kf).
Proof.
  unfold SetBadFlag_detach. intros Hrun Hkf.
  bind_get Hrun as kf0 Hnn Hkf0. rewrite Hkf in Hkf0. injection Hkf0 as <-.
  apply bind_Ok in Hrun as ([] & w2 & Hl1 & Hrun).
  apply detach_neighbours_own in Hl1 as [Hk2 He2].
  bind_get Hrun as kf2 Hnn2 Hkf2. rewrite Hk2, Hkf in Hkf2. injection Hkf2 as <-.
  apply bind_Ok in Hrun as ([] & w3 & Hl2 & Hrun).
  apply detach_landmarks in Hl2 as [Hk3 He3].
  apply kf_modify_Ok in Hrun as (_ & kf3 & Hkf3 & [= ->]).
  rewrite Hk3, Hk2, Hkf in Hkf3. injection Hkf3 as <-. simpl.
  split; [apply lookup_insert_eq|]. by rewrite He3, He2.
Qed.

Lemma SetBadFlag_delete_inv this w w' :
  SetBadFlag_delete this w = Ok (tt, w') →
  ∃ w1 w2 kf2,
    SetBadFlag_detach this w = Ok (tt, w1) ∧
    SetBadFlag_reattach this w1 = Ok (tt, w2) ∧
    keyframes w2 !! this = Some kf2 ∧
    keyframes w' = keyframes w2 ∧
    events w' = events w2 ++ [EvMapEraseKeyFrame (mpMap kf2) this;
                              EvDatabaseErase (mpKeyFrameDB kf2) this].
Proof.
  unfold SetBadFlag_delete. intros Hrun.
  apply bind_Ok in Hrun as ([] & w1 & Hdet & Hrun).
  apply bind_Ok in Hrun as ([] & w2 & Hre & Hrun).
  exists w1, w2. bind_get Hrun as kf2 Hnn Hkf2. exists kf2.
  apply bind_Ok in Hrun as (m & w3 & Hm & Hrun).
  apply map_get_Ok in Hm as (_ & ? & _ & [= <- ->]).
  apply bind_Ok in Hrun as ([] & w4 & Hem & Hrun).
  apply emit_Ok in Hem as [= ->].
  case_decide; [done|]. apply emit_Ok in Hrun as [= ->].
  split_and!; try done. simpl. by rewrite <- app_assoc.
Qed.

(** A deletion that goes past the guards empties the weight map and the
    ordered list of the keyframe and sets its bad flag, and leaves the
    vector of ordered weights as it was: on a keyframe that had neighbours
    the two cached vectors end with different lengths. *)
Theorem SetBadFlag_keeps_ordered_weights this w w' kf :
  SetBadFlag this w = Ok (tt, w') →
  deletes w this →
  keyframes w !! this = Some kf →
  ∃ kf', keyframes w' !! this = Some kf' ∧
    mConnectedKeyFrameWeights (conn kf') = ∅ ∧
    mvpOrderedConnectedKeyFrames (conn kf') = [] ∧
    mvOrderedWeights (conn kf') = mvOrderedWeights (conn kf) ∧
    mbBad (conn kf') = true.
Proof.
  intros Hrun Hdel Hkf. apply SetBadFlag_deletes in Hrun; [|done].
  destruct (SetBadFlag_delete_bad _ _ _ Hrun) as (kf' & Hkf' & Hbad).
  apply SetBadFlag_delete_inv in Hrun as (w1 & w2 & kf2 & Hdet & Hre & Hkf2 & Hk & _).
  destruct (SetBadFlag_detach_own _ _ _ _ Hdet Hkf) as [Hkf1 _].
  apply stays_cache_reattach in Hre. specialize (Hre this).
  rewrite Hkf1, Hkf2 in Hre. simpl in Hre. injection Hre as Hw Ho Hows.
  rewrite Hk, Hkf2 in Hkf'. injection Hkf' as <-.
  exists kf2. rewrite Hk. by split_and!.
Qed.

Lemma SetBadFlag_keeps_ordered_weights_witness :
  ∃ kf', keyframes Fixture.tree_culled !! 3%nat = Some kf' ∧
    mConnectedKeyFrameWeights (conn kf') = ∅ ∧
    mvpOrderedConnectedKeyFrames (conn kf') = [] ∧
    mvOrderedWeights (conn kf') = mvOrderedWeights (conn (Fixture.at_ Fixture.tree 3%nat)) ∧
    mbBad (conn kf') = true.
Proof.
  apply (SetBadFlag_keeps_ordered_weights 3%nat Fixture.tree Fixture.tree_culled
           (Fixture.at_ Fixture.tree 3%nat)).
  - vm_compute. reflexivity.
  - exists (Fixture.at_ Fixture.tree 3%nat), (mkMap 0).
    split_and!; vm_compute; congruence.
  - vm_compute. reflexivity.
Defined.

(** A deletion that goes past the guards tells its collaborators in this
    order: [EraseObservation] on every landmark in a slot of the keyframe,
    in slot order, then [Map::EraseKeyFrame] and [KeyFrameDatabase::erase],
    each once.  These are all the calls by which it changes a landmark,
    the map or the database; the getter [Map::GetInitKFid], which the root
    test calls first, is a read and has no entry in the log. *)
Theorem SetBadFlag_notifies_collaborators this w w' kf :
  SetBadFlag this w = Ok (tt, w') →
  deletes w this →
  keyframes w !! this = Some kf →
  events w' = events w ++ erase_observations this (mvpMapPoints kf)
              ++ [EvMapEraseKeyFrame (mpMap kf) this;
                  EvDatabaseErase (mpKeyFrameDB kf) this].
Proof.
  intros Hrun Hdel Hkf. apply SetBadFlag_deletes in Hrun; [|done].
  apply SetBadFlag_delete_inv in Hrun as (w1 & w2 & kf2 & Hdet & Hre & Hkf2 & _ & ->).
  destruct (SetBadFlag_detach_own _ _ _ _ Hdet Hkf) as [Hkf1 He1].
  pose proof (stays_events_reattach _ _ _ _ Hre) as He2.
  pose proof (stays_outer_reattach _ _ _ _ Hre this) as Ho.
  rewrite Hkf1, Hkf2 in Ho. simpl in Ho. injection Ho as _ _ Hmap Hdb _ _ _ _ _ _.
  unfold same_events in He2. rewrite He2, He1, Hmap, Hdb. by rewrite <- app_assoc.
Qed.

Lemma SetBadFlag_notifies_collaborators_witness :
  events Fixture.culled
  = events Fixture.stale
    ++ erase_observations 2%nat (mvpMapPoints (Fixture.at_ Fixture.stale 2%nat))
    ++ [EvMapEraseKeyFrame (mpMap (Fixture.at_ Fixture.stale 2%nat)) 2%nat;
        EvDatabaseErase (mpKeyFrameDB (Fixture.at_ Fixture.stale 2%nat)) 2%nat].
Proof.
  apply (SetBadFlag_notifies_collaborators 2%nat Fixture.stale Fixture.culled
           (Fixture.at_ Fixture.stale 2%nat)).
  - vm_compute. reflexivity.
  - exists (Fixture.at_ Fixture.stale 2%nat), (mkMap 0).
    split_and!; vm_compute; congruence.
  - vm_compute. reflexivity.
Defined.

(** ** The erase guard *)

#[global] Instance same_guard_preorder : PreOrder same_guard.
Proof. apply _. Qed.

#[global] Instance held_stays_preorder p : PreOrder (held_stays p).
Proof. split; [by intros ??|]. intros w1 w2 w3 H1 H2 H. auto. Qed.

Lemma stays_mono {A} (R R' : World → World → Prop) (m : Op A) :
  (∀ w w', R w w' → R' w w') → stays R m → stays R' m.
Proof. intros HR Hm w r w' Hrun. eauto. Qed.

Lemma same_guard_held p w w' : same_guard w w' → held_stays p w w'.
Proof.
  intros Hs (kf & Hkf & Hl & Hn & Hb). specialize (Hs p). rewrite Hkf in Hs.
  destruct (keyframes w' !! p) as [kf'|] eqn:Hkf'; simpl in Hs; [|discriminate].
  unfold guard_view in Hs. injection Hs as Hl' Hn' Hb'.
  exists kf'. split; [done|]. by rewrite Hl', Hn', Hb'.
Qed.

Lemma held_insert p q kf kf' w :
  keyframes w !! q = Some kf →
  (q = p → mspLoopEdges (conn kf) ≠ ∅ → mbNotErase (conn kf) = true →
           mbBad (conn kf) = false →
           mspLoopEdges (conn kf') ≠ ∅ ∧ mbNotErase (conn kf') = true ∧
           mbBad (conn kf') = false) →
  held_stays p w (set_keyframes (<[q := kf']> (keyframes w)) w).
Proof.
  intros Hkf Hq (kp & Hkp & Hl & Hn & Hb). unfold held. simpl.
  destruct (decide (q = p)) as [->|Hne].
  - rewrite Hkf in Hkp. injection Hkp as <-. exists kf'.
    split; [apply lookup_insert_eq|]. by apply Hq.
  - exists kp. by rewrite lookup_insert_ne.
Qed.

Lemma stays_held_kf_modify p q f :
  q ≠ p ∨ keeps_hold f → stays (held_stays p) (kf_modify q f).
Proof.
  intros Hf w [] w' (_ & kf & Hkf & [= ->])%kf_modify_Ok.
  apply held_insert with kf; [done|]. intros -> Hl Hn Hb.
  destruct Hf as [|Hf]; [done|]. by apply Hf.
Qed.

Lemma stays_guard_UpdateBestCovisibles this :
  stays same_guard (UpdateBestCovisibles this).
Proof.
  intros w [] w' (_ & kf & Hkf & ->)%UpdateBestCovisibles_Ok.
  by apply same_view_insert with kf.
Qed.

(** One step of a proof that a run keeps the guard of every keyframe. *)
Ltac stays_guard_step :=
  match goal with
  | |- stays same_guard (kf_modify _ _) =>
      apply (stays_kf_modify_view guard_view); by intros []
  | |- stays same_guard (emit _) =>
      apply stays_emit; [apply _|apply same_view_add_event]
  | |- stays same_guard (UpdateBestCovisibles _) => apply stays_guard_UpdateBestCovisibles
  | _ => stays_step
  end.

Lemma stays_guard_AddConnection this pKF weight :
  stays same_guard (AddConnection this pKF weight).
Proof. unfold AddConnection. repeat stays_guard_step. Qed.

Lemma stays_guard_EraseConnection this pKF :
  stays same_guard (EraseConnection this pKF).
Proof. unfold EraseConnection. repeat stays_guard_step. Qed.

Lemma stays_guard_ChangeParent this pKF : stays same_guard (ChangeParent this pKF).
Proof. unfold ChangeParent, AddChild. repeat stays_guard_step. Qed.

Lemma stays_guard_UpdateConnections this upParent :
  stays same_guard (UpdateConnections this upParent).
Proof.
  unfold UpdateConnections, first_connection, promote, AddChild, GetInitKFid.
  repeat (stays_guard_step || apply stays_guard_AddConnection
          || (apply stays_readonly; [apply _|];
              intros ??? Hrun; by apply count_covisible_Ok in Hrun as [-> _])).
Qed.

Lemma stays_guard_kf_put p (k : KeyFrame → KeyFrame) :
  (∀ kf, guard_view (k kf) = guard_view kf) →
  stays same_guard (kf ← kf_get p; kf_put p (k kf)).
Proof.
  intros Hk w [] w' Hrun. bind_get Hrun as kf Hnn Hkf.
  apply kf_put_Ok in Hrun as [= ->]. by apply same_view_insert with kf.
Qed.

Lemma stays_guard_AddMapPoint this pMP idx :
  stays same_guard (AddMapPoint this pMP idx).
Proof.
  intros w [] w' Hrun. unfold AddMapPoint in Hrun. bind_get Hrun as kf Hnn Hkf.
  case_decide; [|done]. apply kf_put_Ok in Hrun as [= ->].
  by apply same_view_insert with kf.
Qed.

Lemma stays_guard_PreSave this spKF spMP spCam :
  stays same_guard (PreSave this spKF spMP spCam).
Proof.
  intros w [] w' (_ & kf & b & Hkf & -> & _)%PreSave_Ok.
  by apply same_view_insert with kf.
Qed.

Lemma stays_held_delete p this :
  this ≠ p → stays (held_stays p) (SetBadFlag_delete this).
Proof.
  intros Hne.
  unfold SetBadFlag_delete, SetBadFlag_detach, SetBadFlag_reattach,
    adopt_remaining, EraseChild.
  repeat (stays_step
          || (apply stays_emit; [apply _|by intros ??])
          || (apply stays_held_kf_modify; by left)
          || (apply stays_held_kf_modify; right; by intros [])
          || (apply (stays_mono same_guard); [apply same_guard_held|];
              first [apply stays_guard_EraseConnection|apply stays_guard_ChangeParent])
          || (apply stays_reattach_loop_gen;
              [apply _
              |intros ??; apply (stays_mono same_guard);
                 [apply same_guard_held|apply stays_guard_ChangeParent]
              |intros ?; apply stays_held_kf_modify; by left])).
Qed.

Lemma stays_held_SetBadFlag p this : stays (held_stays p) (SetBadFlag this).
Proof.
  intros w [] w' Hrun Hheld. unfold SetBadFlag in Hrun.
  bind_get Hrun as kf Hnn Hkf.
  apply bind_Ok in Hrun as (init & w1 & Hinit & Hrun).
  apply GetInitKFid_Ok in Hinit as (_ & m & _ & [= -> ->]).
  case_decide; [by apply ret_Ok in Hrun as [= ->]|].
  destruct (mbNotErase (conn kf)) eqn:Hguard.
  - revert Hheld. eapply stays_held_kf_modify; [|done]. right. by intros [].
  - assert (Hne : this ≠ p).
    { intros ->. destruct Hheld as (kp & Hkp & _ & Hn & _). congruence. }
    revert Hheld. by eapply stays_held_delete.
Qed.

Lemma stays_held_SetErase p this : stays (held_stays p) (SetErase this).
Proof.
  intros w [] w' Hrun Hheld. unfold SetErase in Hrun.
  bind_get Hrun as kf Hnn Hkf.
  apply bind_Ok in Hrun as ([] & w1 & Hlift & Hrun).
  assert (Hheld1 : held w1 p).
  { case_decide as Hloop; [|by apply ret_Ok in Hlift as [= ->]].
    assert (Hne : this ≠ p).
    { intros ->. destruct Hheld as (kp & Hkp & Hl & _). congruence. }
    revert Hheld. eapply stays_held_kf_modify; [|done]. by left. }
  bind_get Hrun as kf1 Hnn1 Hkf1.
  destruct (mbToBeErased (conn kf1)); [|by apply ret_Ok in Hrun as [= ->]].
  by eapply stays_held_SetBadFlag.
Qed.

Lemma stays_held_graph_op p o :
  ¬ reloads o p → stays (held_stays p) (run_graph_op o).
Proof.
  intros Hre.
  assert (Hg : ∀ m : Op unit, stays same_guard m → stays (held_stays p) m).
  { intros m. apply stays_mono, same_guard_held. }
  destruct o; simpl in *.
  - apply Hg, stays_guard_AddConnection.
  - apply Hg, stays_guard_EraseConnection.
  - apply Hg, stays_guard_UpdateBestCovisibles.
  - apply Hg, stays_guard_UpdateConnections.
  - apply Hg. unfold AddChild. stays_guard_step.
  - apply Hg. unfold EraseChild. stays_guard_step.
  - apply Hg, stays_guard_ChangeParent.
  - apply Hg. unfold SetFirstConnection. stays_guard_step.
  - apply stays_held_kf_modify. right. intros [] Hl ??. simpl in *.
    split_and!; [set_solver|done..].
  - apply stays_held_kf_modify. right. by intros [].
  - apply stays_held_kf_modify. right. by intros [].
  - apply stays_held_SetErase.
  - apply stays_held_SetBadFlag.
  - apply Hg. unfold UpdateMap. apply stays_guard_kf_put. by intros [].
  - apply Hg, stays_guard_AddMapPoint.
  - apply Hg, stays_guard_AddMapPoint.
  - apply Hg, stays_guard_PreSave.
  - intros w [] w' Hrun (kp & Hkp & Hheld).
    apply PostLoad_Ok in Hrun as (kf & kf' & _ & _ & Hframe & _).
    exists kp. split; [|done]. rewrite Hframe; [done|]. by intros <-.
Qed.

(** A keyframe that has a loop edge, is under the guard and is not bad
    stays so through every sequence of graph operations that does not
    reload it with [PostLoad]: it is never culled. *)
Theorem held_keyframe_is_never_culled p (ops : list GraphOp) w w' :
  Forall (λ o, ¬ reloads o p) ops →
  held w p →
  for_each ops run_graph_op w = Ok (tt, w') →
  held w' p.
Proof.
  intros Hops. revert w. induction Hops as [|o ops Ho Hops IH]; intros w Hheld Hrun.
  - by apply ret_Ok in Hrun as [= ->].
  - simpl in Hrun. apply bind_Ok in Hrun as ([] & w1 & Hhd & Htl).
    apply (IH w1); [|done]. by eapply stays_held_graph_op.
Qed.

Lemma held_keyframe_is_never_culled_witness :
  held (Fixture.after
          (for_each [OpSetBadFlag 2%nat; OpSetErase 2%nat; OpSetBadFlag 3%nat;
                     OpSetErase 2%nat] run_graph_op) Fixture.looped) 2%nat.
Proof.
  apply (held_keyframe_is_never_culled 2%nat
           [OpSetBadFlag 2%nat; OpSetErase 2%nat; OpSetBadFlag 3%nat; OpSetErase 2%nat]
           Fixture.looped).
  - repeat constructor; by intros [].
  - exists (Fixture.at_ Fixture.looped 2%nat). split_and!; vm_compute; congruence.
  - vm_compute. reflexivity.
Defined.

(** A merge edge sets the guard but does not hold it: on a keyframe
    without loop edges and without a pending deletion, [SetErase] after
    [AddMergeEdge] completes and clears the guard, the merge edge still in
    place. *)
Theorem merge_edge_does_not_hold_guard this pKF w w1 kf :
  AddMergeEdge this pKF w = Ok (tt, w1) →
  keyframes w !! this = Some kf →
  mspLoopEdges (conn kf) = ∅ →
  mbToBeErased (conn kf) = false →
  ∃ w2 kf1 kf2,
    keyframes w1 !! this = Some kf1 ∧ mbNotErase (conn kf1) = true ∧
    SetErase this w1 = Ok (tt, w2) ∧
    keyframes w2 !! this = Some kf2 ∧
    mbNotErase (conn kf2) = false ∧ pKF ∈ mspMergeEdges (conn kf2).
Proof.
  intros Hadd Hkf Hloop Hpend.
  apply kf_modify_Ok in Hadd as (Hnn & kf0 & Hkf0 & [= ->]).
  rewrite Hkf in Hkf0. injection Hkf0 as <-.
  eexists _, _, _. split; [apply lookup_insert_eq|]. split; [done|].
  split.
  - unfold SetErase, mbind, Op_bind.
    erewrite kf_get_valid; [|done|apply lookup_insert_eq].
    rewrite decide_True by done.
    erewrite kf_modify_valid; [|done|apply lookup_insert_eq].
    erewrite kf_get_valid; [|done|apply lookup_insert_eq].
    simpl. rewrite Hpend. reflexivity.
  - split; [apply lookup_insert_eq|]. simpl. split; [done|set_solver].
Qed.

Lemma merge_edge_does_not_hold_guard_witness :
  ∃ w2 kf1 kf2,
    keyframes (Fixture.after (AddMergeEdge 2%nat 3%nat) Fixture.linked) !! 2%nat = Some kf1 ∧
    mbNotErase (conn kf1) = true ∧
    SetErase 2%nat (Fixture.after (AddMergeEdge 2%nat 3%nat) Fixture.linked) = Ok (tt, w2) ∧
    keyframes w2 !! 2%nat = Some kf2 ∧
    mbNotErase (conn kf2) = false ∧ 3%nat ∈ mspMergeEdges (conn kf2).
Proof.
  apply (merge_edge_does_not_hold_guard 2%nat 3%nat Fixture.linked
           (Fixture.after (AddMergeEdge 2%nat 3%nat) Fixture.linked)
           (Fixture.at_ Fixture.linked 2%nat)); vm_compute; reflexivity.
Defined.

(** ** Saving a part of the graph *)

Lemma backup_weight_fold_saved (spKF : gset nat) l acc w r w' :
  fold_each l (backup_weight spKF) acc w = Ok (r, w') →
  r = foldl (λ acc it, <[idof w it.1 := it.2]> acc) acc
        (filter (λ it : nat * Z, it.1 ∈ spKF) l).
Proof.
  revert acc. induction l as [|it l IH]; intros acc Hrun; simpl in Hrun.
  - by apply ret_Ok in Hrun as [= ->].
  - apply bind_Ok in Hrun as (a & w1 & Hstep & Hrun).
    pose proof (backup_weight_readonly _ _ _ _ _ _ Hstep) as ->.
    rewrite filter_cons. unfold backup_weight in Hstep.
    destruct (decide (it.1 ∈ spKF)) as [Hin|Hout].
    + bind_get Hstep as k Hnn Hk. apply ret_Ok in Hstep as [= ->].
      apply IH in Hrun. simpl. by rewrite (idof_lookup _ _ _ Hk).
    + apply ret_Ok in Hstep as [= ->]. by apply IH in Hrun.
Qed.

Lemma NoDup_filter_keys {V} (P : nat * V → Prop) `{∀ x, Decision (P x)}
    (m : gmap nat V) :
  NoDup (filter P (map_items m)).*1.
Proof.
  apply (sublist_NoDup _ (map_items m).*1); [apply NoDup_map_items_keys|].
  apply fmap_sublist, sublist_filter.
Qed.

Lemma restore_weights_saved w (spKF : gset nat) mpKFid (m : gmap nat Z) bw :
  dict_inverts w spKF mpKFid →
  fold_each (map_items m) (backup_weight spKF) ∅ w = Ok (bw, w) →
  restore_weights mpKFid bw = filter (λ kv, kv.1 ∈ spKF) m.
Proof.
  intros Hd Hrun. apply backup_weight_fold_saved in Hrun.
  assert (Hbw : ∀ j v, bw !! j = Some v ↔
                       ∃ p, (p ∈ spKF ∧ m !! p = Some v) ∧ idof w p = j).
  { intros j v. rewrite Hrun, foldl_insert_lookup.
    - setoid_rewrite list_elem_of_filter. by setoid_rewrite elem_of_map_items.
    - apply NoDup_fmap_2_strong; [|apply NoDup_filter_keys].
      intros p q [vp [Hp _]%list_elem_of_filter]%elem_of_fst_exists
                 [vq [Hq _]%list_elem_of_filter]%elem_of_fst_exists Heq.
      simpl in *. eapply dict_inverts_inj; eauto. }
  apply map_eq. intros q. apply option_eq. intros v.
  rewrite map_lookup_filter_Some. simpl.
  unfold restore_weights. rewrite foldl_insert_lookup.
  - setoid_rewrite elem_of_idmap_items. setoid_rewrite Hbw. split.
    + intros (j & (p & [Hs Hp] & <-) & Hq).
      destruct (dict_inverts_idof w spKF mpKFid p Hd Hs) as [Hinv _]. split; congruence.
    + intros [Hq Hs]. exists (idof w q). split; [eauto|].
      by apply (dict_inverts_idof w spKF mpKFid q Hd).
  - apply NoDup_fmap_2_strong.
    2:{ unfold idmap_items.
        assert (Hp : (merge_sort id_le (map_to_list bw)).*1 ≡ₚ (map_to_list bw).*1)
          by (by rewrite merge_sort_Permutation).
        rewrite Hp. apply NoDup_fst_map_to_list. }
    intros i j [vi Hi]%elem_of_fst_exists [vj Hj]%elem_of_fst_exists Heq.
    apply elem_of_idmap_items, Hbw in Hi as (p1 & [Hs1 _] & <-).
    apply elem_of_idmap_items, Hbw in Hj as (p2 & [Hs2 _] & <-).
    destruct (dict_inverts_idof w spKF mpKFid p1 Hd Hs1) as [Hip _].
    destruct (dict_inverts_idof w spKF mpKFid p2 Hd Hs2) as [Hiq _].
    congruence.
Qed.

Lemma restore_set_saved w (spKF : gset nat) mpKFid (s : gset nat) ids :
  dict_inverts w spKF mpKFid →
  backup_ids s spKF w = Ok (ids, w) →
  restore_set mpKFid ids = s ∩ spKF.
Proof.
  intros Hd (_ & Hall)%backup_ids_Ok.
  assert (Hids : ids = idof w <$> filter (λ p, p ∈ spKF) (set_items s)).
  { induction Hall as [|p id l ids' (k & Hk & ->) Hall IH]; [done|].
    simpl. rewrite (idof_lookup _ _ _ Hk). by f_equal. }
  apply set_eq. intros q. unfold restore_set.
  rewrite (elem_of_foldl_union (dict_at mpKFid)), elem_of_intersection.
  subst ids. split.
  - intros (id & (p & -> & [Hs Hp%elem_of_set_items]%list_elem_of_filter)%list_elem_of_fmap
            & <-).
    by destruct (dict_inverts_idof w spKF mpKFid p Hd Hs) as [-> _].
  - intros [Hq Hs]. exists (idof w q). split.
    + apply list_elem_of_fmap. exists q. split; [done|].
      apply list_elem_of_filter. split; [done|]. by apply elem_of_set_items.
    + by apply (dict_inverts_idof w spKF mpKFid q Hd).
Qed.

(** Saving with a set of keyframes that does not cover the neighbourhood
    drops what is outside it: when the dictionary sends each saved id back
    to its keyframe, [PreSave] followed by [PostLoad] on the object that
    carries the saved backup restores the weight map restricted to the
    saved keyframes, and the children, loop edges and merge edges that are
    saved. *)
Theorem save_restore_drops_unsaved this spKF spMP spCam mpKFid mpMPid mpCamId
    w w1 kf kf1 wL kfL wR :
  keyframes w !! this = Some kf →
  dict_inverts w spKF mpKFid →
  PreSave this spKF spMP spCam w = Ok (tt, w1) →
  keyframes w1 !! this = Some kf1 →
  keyframes wL !! this = Some kfL →
  backup kfL = backup kf1 →
  PostLoad this mpKFid mpMPid mpCamId wL = Ok (tt, wR) →
  ∃ kfR, keyframes wR !! this = Some kfR ∧
    mConnectedKeyFrameWeights (conn kfR)
      = filter (λ kv, kv.1 ∈ spKF) (mConnectedKeyFrameWeights (conn kf)) ∧
    mspChildrens (conn kfR) = mspChildrens (conn kf) ∩ spKF ∧
    mspLoopEdges (conn kfR) = mspLoopEdges (conn kf) ∩ spKF ∧
    mspMergeEdges (conn kfR) = mspMergeEdges (conn kf) ∩ spKF.
Proof.
  intros Hkf Hd Hsave Hkf1 HkfL Hbk Hload.
  apply PreSave_Ok in Hsave
    as (Hnn & kf0 & b & Hkf0 & -> & Hbw & _ & Hbc & Hbl & Hbm).
  rewrite Hkf in Hkf0. injection Hkf0 as <-.
  simpl in Hkf1. rewrite lookup_insert_eq in Hkf1. injection Hkf1 as <-.
  simpl in Hbk.
  apply PostLoad_Ok in Hload
    as (kfL0 & kfR & HkfL0 & HkfR & _ & Hw & _ & Hc & Hl & Hm & _).
  rewrite HkfL in HkfL0. injection HkfL0 as <-. rewrite Hbk in Hw, Hc, Hl, Hm.
  exists kfR. split; [done|]. rewrite Hw, Hc, Hl, Hm. split_and!.
  - by eapply restore_weights_saved.
  - by eapply restore_set_saved.
  - by eapply restore_set_saved.
  - by eapply restore_set_saved.
Qed.

Lemma save_restore_drops_unsaved_witness :
  ∃ kfR, keyframes Partial.postloaded !! 1%nat = Some kfR ∧
    mConnectedKeyFrameWeights (conn kfR)
      = filter (λ kv, kv.1 ∈ Partial.saved)
          (mConnectedKeyFrameWeights (conn (Fixture.at_ Fixture.linked 1%nat))) ∧
    mspChildrens (conn kfR)
      = mspChildrens (conn (Fixture.at_ Fixture.linked 1%nat)) ∩ Partial.saved ∧
    mspLoopEdges (conn kfR)
      = mspLoopEdges (conn (Fixture.at_ Fixture.linked 1%nat)) ∩ Partial.saved ∧
    mspMergeEdges (conn kfR)
      = mspMergeEdges (conn (Fixture.at_ Fixture.linked 1%nat)) ∩ Partial.saved.
Proof.
  apply (save_restore_drops_unsaved 1%nat Partial.saved ∅ ∅ Partial.by_id ∅ ∅
           Fixture.linked Partial.presaved (Fixture.at_ Fixture.linked 1%nat)
           (Fixture.at_ Partial.presaved 1%nat)
           Partial.presaved (Fixture.at_ Partial.presaved 1%nat)
           Partial.postloaded).
  - vm_compute. reflexivity.
  - intros p Hp. unfold Partial.saved in Hp.
    apply elem_of_union in Hp as [Hp%elem_of_singleton|Hp%elem_of_singleton];
      subst p; eexists; (split; [vm_compute; reflexivity|]); vm_compute;
      (split; [congruence|reflexivity]).
  - vm_compute. reflexivity.
  - vm_compute. reflexivity.
  - vm_compute. reflexivity.
  - reflexivity.
  - vm_compute. reflexivity.
Defined.

Example partial_save_drops_keyframe_3 :
  dom (mConnectedKeyFrameWeights (conn (Fixture.at_ Fixture.linked 1%nat)))
    = {[ 2%nat; 3%nat ]} ∧
  dom (mConnectedKeyFrameWeights (conn (Fixture.at_ Partial.postloaded 1%nat)))
    = {[ 2%nat ]}.
Proof. split; by_compute. Qed.

(** * Saving twice, loading twice *)

Section Resave.

(** A world, and the same world after the backup of one keyframe was
    written. *)
Variables (w : World) (this : nat) (kf : KeyFrame) (b : Backup).
Hypothesis Hkf : keyframes w !! this = Some kf.


Lemma transfers_bind {A B} (m : Op A) (k : A → Op B) :
  transfers w this kf b m → (∀ a, transfers w this kf b (k a)) → transfers w this kf b (m ≫= k).
Proof.
  intros Hm Hk r w' (a & w2 & H1 & H2)%bind_Ok.
  apply Hm in H1 as [-> H1]. apply Hk in H2 as [-> H2].
  split; [done|]. apply bind_Ok. eauto.
Qed.

Lemma transfers_ret {A} (a : A) : transfers w this kf b (mret a).
Proof. by intros r w' [= -> ->]%ret_Ok. Qed.

Lemma transfers_fail {A} f : transfers w this kf b (fail (A:=A) f).
Proof. by intros r w' H. Qed.

Lemma transfers_mp_get p : transfers w this kf b (mp_get p).
Proof.
  intros r w' (Hnn & mp & Hmp & [= -> ->])%mp_get_Ok.
  split; [done|]. apply mp_get_Ok. eauto.
Qed.

Lemma transfers_cam_get p : transfers w this kf b (cam_get p).
Proof.
  intros r w' (Hnn & c & Hc & [= -> ->])%cam_get_Ok.
  split; [done|]. apply cam_get_Ok. eauto.
Qed.

(** Reading the id of a keyframe. *)
Lemma transfers_id {A} p (g : Z → A) : transfers w this kf b (k ← kf_get p; mret (g (mnId k))).
Proof.
  intros r w' Hrun. bind_get Hrun as k Hnn Hk. apply ret_Ok in Hrun as [= -> ->].
  split; [done|]. apply bind_Ok.
  destruct (decide (p = this)) as [->|Hne].
  - exists (set_backup b kf), (resaved w this kf b). split.
    + apply kf_get_valid; [done|]. apply lookup_insert_eq.
    + rewrite Hkf in Hk. by injection Hk as <-.
  - exists k, (resaved w this kf b). split; [|done].
    apply kf_get_valid; [done|]. simpl. by rewrite lookup_insert_ne.
Qed.

Lemma transfers_fold_each {A S} (body : S → A → Op S) l :
  (∀ acc x, transfers w this kf b (body acc x)) → ∀ acc, transfers w this kf b (fold_each l body acc).
Proof.
  intros Hbody. induction l as [|x l IH]; intros acc; simpl.
  - apply transfers_ret.
  - apply transfers_bind; [apply Hbody|]. intros a. apply IH.
Qed.

Lemma transfers_backup_id p spKF : transfers w this kf b (backup_id p spKF).
Proof.
  unfold backup_id. case_decide; [|apply transfers_ret].
  apply (transfers_id p (λ i, i)).
Qed.

Lemma transfers_backup_ids s spKF : transfers w this kf b (backup_ids s spKF).
Proof.
  unfold backup_ids. apply transfers_fold_each. intros acc x.
  case_decide; [|apply transfers_ret]. apply (transfers_id x (λ i, acc ++ [i])).
Qed.

Lemma transfers_backup_cam_id p spCam : transfers w this kf b (backup_cam_id p spCam).
Proof.
  unfold backup_cam_id. case_decide; [apply transfers_cam_get|apply transfers_ret].
Qed.

Lemma transfers_backup_mappoint k spMP acc i : transfers w this kf b (backup_mappoint k spMP acc i).
Proof.
  unfold backup_mappoint. destruct (mvpMapPoints k !! i); [|apply transfers_fail].
  case_decide; [|apply transfers_ret].
  apply transfers_bind; [apply transfers_mp_get|]. intros mp. apply transfers_ret.
Qed.

Lemma transfers_backup_weight spKF acc it : transfers w this kf b (backup_weight spKF acc it).
Proof.
  unfold backup_weight. case_decide; [|apply transfers_ret].
  apply (transfers_id it.1 (λ i, <[i := it.2]> acc)).
Qed.

End Resave.

(** [PreSave] is idempotent: a second call with the same sets, directly
    after a completed one, completes and leaves the world as the first
    call left it. *)
Theorem PreSave_twice this spKF spMP spCam w w1 :
  PreSave this spKF spMP spCam w = Ok (tt, w1) →
  PreSave this spKF spMP spCam w1 = Ok (tt, w1).
Proof.
  intros Hrun. unfold PreSave in Hrun. bind_get Hrun as kf Hnn Hkf.
  assert (Hm : ∀ b acc i, transfers w this kf b (backup_mappoint kf spMP acc i))
    by (intros; apply transfers_backup_mappoint).
  assert (Hw : ∀ b acc it, transfers w this kf b (backup_weight spKF acc it))
    by (intros; by apply transfers_backup_weight).
  assert (Hi : ∀ b p, transfers w this kf b (backup_id p spKF))
    by (intros; by apply transfers_backup_id).
  assert (Hs : ∀ b s, transfers w this kf b (backup_ids s spKF))
    by (intros; by apply transfers_backup_ids).
  assert (Hc : ∀ b p, transfers w this kf b (backup_cam_id p spCam))
    by (intros; apply transfers_backup_cam_id).
  apply bind_Ok in Hrun as (mpids & w2 & H1 & Hrun).
  pose proof (proj1 (transfers_fold_each w this kf (backup kf) _ _
                       (Hm (backup kf)) _ _ _ H1)) as ->.
  apply bind_Ok in Hrun as (ws & w2 & H2 & Hrun).
  pose proof (proj1 (transfers_fold_each w this kf (backup kf) _ _
                       (Hw (backup kf)) _ _ _ H2)) as ->.
  apply bind_Ok in Hrun as (parent & w2 & H3 & Hrun).
  pose proof (proj1 (Hi (backup kf) _ _ _ H3)) as ->.
  apply bind_Ok in Hrun as (childs & w2 & H4 & Hrun).
  pose proof (proj1 (Hs (backup kf) _ _ _ H4)) as ->.
  apply bind_Ok in Hrun as (loops & w2 & H5 & Hrun).
  pose proof (proj1 (Hs (backup kf) _ _ _ H5)) as ->.
  apply bind_Ok in Hrun as (merges & w2 & H6 & Hrun).
  pose proof (proj1 (Hs (backup kf) _ _ _ H6)) as ->.
  apply bind_Ok in Hrun as (cam & w2 & H7 & Hrun).
  pose proof (proj1 (Hc (backup kf) _ _ _ H7)) as ->.
  apply bind_Ok in Hrun as (cam2 & w2 & H8 & Hrun).
  pose proof (proj1 (Hc (backup kf) _ _ _ H8)) as ->.
  apply bind_Ok in Hrun as (prev & w2 & H9 & Hrun).
  pose proof (proj1 (Hi (backup kf) _ _ _ H9)) as ->.
  apply bind_Ok in Hrun as (next & w2 & H10 & Hrun).
  pose proof (proj1 (Hi (backup kf) _ _ _ H10)) as ->.
  apply kf_put_Ok in Hrun as [= ->].
  remember (mkBackup mpids ws parent childs loops merges cam cam2 prev next) as b eqn:Hb.
  pose proof (proj2 (transfers_fold_each w this kf b _ _ (Hm b) _ _ _ H1)) as H1'.
  pose proof (proj2 (transfers_fold_each w this kf b _ _ (Hw b) _ _ _ H2)) as H2'.
  pose proof (proj2 (Hi b _ _ _ H3)) as H3'. pose proof (proj2 (Hs b _ _ _ H4)) as H4'.
  pose proof (proj2 (Hs b _ _ _ H5)) as H5'. pose proof (proj2 (Hs b _ _ _ H6)) as H6'.
  pose proof (proj2 (Hc b _ _ _ H7)) as H7'. pose proof (proj2 (Hc b _ _ _ H8)) as H8'.
  pose proof (proj2 (Hi b _ _ _ H9)) as H9'. pose proof (proj2 (Hi b _ _ _ H10)) as H10'.
  clear H1 H2 H3 H4 H5 H6 H7 H8 H9 H10.
  unfold PreSave. apply bind_Ok. eexists _, _. split.
  { apply kf_get_valid; [done|]. apply lookup_insert_eq. }
  simpl.
  repeat (apply bind_Ok; eexists _, _; split; [eassumption|]).
  apply kf_put_Ok. rewrite <- Hb. simpl. by rewrite insert_insert_eq.
Qed.

Lemma PreSave_twice_witness :
  PreSave 2%nat Fixture.saved ∅ ∅ Fixture.presaved = Ok (tt, Fixture.presaved).
Proof.
  apply (PreSave_twice 2%nat Fixture.saved ∅ ∅ Fixture.linked Fixture.presaved).
  vm_compute. reflexivity.
Defined.

(** What [PostLoad] leaves of the backup: the containers for landmarks,
    weights, children and loop edges are empty. *)
Lemma PostLoad_consumes this mpKFid mpMPid mpCamId w w1 :
  PostLoad this mpKFid mpMPid mpCamId w = Ok (tt, w1) →
  this ≠ NULL ∧ ∃ kf kf1,
    keyframes w !! this = Some kf ∧ keyframes w1 !! this = Some kf1 ∧
    N kf1 = N kf ∧
    mvBackupMapPointsId (backup kf1) = [] ∧
    mBackupConnectedKeyFrameIdWeights (backup kf1) = ∅ ∧
    mvBackupChildrensId (backup kf1) = [] ∧
    mvBackupLoopEdgesId (backup kf1) = [] ∧
    mvBackupMergeEdgesId (backup kf1) = mvBackupMergeEdgesId (backup kf).
Proof.
  unfold PostLoad. intros Hrun. bind_get Hrun as kf Hnn Hkf.
  apply bind_Ok in Hrun as (mps & w2 & Hfold & Hrun).
  apply fold_each_readonly in Hfold as ->;
    [|intros *; apply restore_mappoint_readonly].
  apply bind_Ok in Hrun as ([] & w2 & Hput & Hrun).
  apply kf_put_Ok in Hput as [= ->].
  apply UpdateBestCovisibles_Ok in Hrun as (_ & kf2 & Hkf2 & ->).
  simpl in Hkf2. rewrite lookup_insert_eq in Hkf2. injection Hkf2 as <-.
  split; [done|]. eexists kf, _. split; [done|].
  split; [simpl; apply lookup_insert_eq|]. done.
Qed.

Lemma map_items_empty {V} : map_items (∅ : gmap nat V) = [].
Proof. unfold map_items. by rewrite map_to_list_empty. Qed.

Lemma idmap_items_empty {V} : idmap_items (∅ : gmap Z V) = [].
Proof. unfold idmap_items. by rewrite map_to_list_empty. Qed.

Lemma UpdateBestCovisibles_empty this w kf :
  this ≠ NULL → keyframes w !! this = Some kf →
  mConnectedKeyFrameWeights (conn kf) = ∅ →
  UpdateBestCovisibles this w
  = Ok (tt, set_keyframes
              (<[this := with_conn (λ c, set_orderedWeights [] (set_orderedKFs [] c)) kf]>
                 (keyframes w)) w).
Proof.
  intros Hnn Hkf Hw. unfold UpdateBestCovisibles, mbind, Op_bind.
  rewrite (kf_get_valid _ _ _ Hnn Hkf). rewrite Hw, map_items_empty. simpl.
  by rewrite (kf_modify_valid _ _ _ _ Hnn Hkf).
Qed.

(** [PostLoad] uses the backup up.  A second [PostLoad] directly after a
    completed one reads past the end of the emptied landmark ids when the
    keyframe has keypoints; on a keyframe without keypoints it completes
    and leaves the keyframe without weights, children and loop edges. *)
Theorem PostLoad_twice this mpKFid mpMPid mpCamId mpKFid' mpMPid' mpCamId' w w1 kf :
  PostLoad this mpKFid mpMPid mpCamId w = Ok (tt, w1) →
  keyframes w !! this = Some kf →
  (0 < N kf → PostLoad this mpKFid' mpMPid' mpCamId' w1 = Err OutOfBounds) ∧
  (N kf ≤ 0 →
   ∃ w2 kf2, PostLoad this mpKFid' mpMPid' mpCamId' w1 = Ok (tt, w2) ∧
     keyframes w2 !! this = Some kf2 ∧
     mConnectedKeyFrameWeights (conn kf2) = ∅ ∧
     mvpOrderedConnectedKeyFrames (conn kf2) = [] ∧
     mspChildrens (conn kf2) = ∅ ∧ mspLoopEdges (conn kf2) = ∅).
Proof.
  intros Hrun Hkf.
  apply PostLoad_consumes in Hrun
    as (Hnn & kf0 & kf1 & Hkf0 & Hkf1 & HN & Hmp & Hws & Hch & Hlo & _).
  rewrite Hkf in Hkf0. injection Hkf0 as <-.
  split.
  - intros Hpos. unfold PostLoad, mbind, Op_bind.
    rewrite (kf_get_valid _ _ _ Hnn Hkf1). rewrite HN.
    destruct (Z.to_nat (N kf)) as [|n] eqn:Hn; [lia|].
    simpl. unfold mbind, Op_bind, restore_mappoint. by rewrite Hmp.
  - intros Hzero. unfold PostLoad, mbind, Op_bind.
    rewrite (kf_get_valid _ _ _ Hnn Hkf1). rewrite HN.
    replace (Z.to_nat (N kf)) with 0%nat by lia. simpl.
    rewrite Hws, Hch, Hlo.
    unfold restore_weights, restore_set. rewrite idmap_items_empty. simpl.
    erewrite UpdateBestCovisibles_empty; [|done|apply lookup_insert_eq|done].
    eexists _, _. split; [done|]. split; [apply lookup_insert_eq|]. done.
Qed.

Lemma PostLoad_twice_witness :
  PostLoad 2%nat Fixture.by_id ∅ ∅ Fixture.postloaded = Err OutOfBounds ∧
  ∃ w2 kf2,
    PostLoad 4%nat ∅ ∅ ∅ (Fixture.after (PostLoad 4%nat ∅ ∅ ∅) Fixture.tree)
      = Ok (tt, w2) ∧
    keyframes w2 !! 4%nat = Some kf2 ∧
    mConnectedKeyFrameWeights (conn kf2) = ∅ ∧
    mvpOrderedConnectedKeyFrames (conn kf2) = [] ∧
    mspChildrens (conn kf2) = ∅ ∧ mspLoopEdges (conn kf2) = ∅.
Proof.
  split.
  - apply (PostLoad_twice 2%nat Fixture.by_id ∅ ∅ Fixture.by_id ∅ ∅
             Fixture.presaved Fixture.postloaded (Fixture.at_ Fixture.presaved 2%nat));
      vm_compute; reflexivity.
  - apply (PostLoad_twice 4%nat ∅ ∅ ∅ ∅ ∅ ∅ Fixture.tree
             (Fixture.after (PostLoad 4%nat ∅ ∅ ∅) Fixture.tree)
             (Fixture.at_ Fixture.tree 4%nat)).
    + vm_compute. reflexivity.
    + vm_compute. reflexivity.
    + vm_compute. congruence.
Defined.

(** ** Loading with a dictionary that lacks an id *)

Lemma fold_push_live_valid vPairs acc w r w' :
  fold_each vPairs push_live acc w = Ok (r, w') →
  ∀ pr, pr ∈ vPairs → valid w pr.2.
Proof.
  revert acc. induction vPairs as [|pr0 l IH]; intros acc Hrun pr Hin.
  - by apply elem_of_nil in Hin.
  - simpl in Hrun. apply bind_Ok in Hrun as (a & w2 & Hhd & Htl).
    unfold push_live in Hhd. apply bind_Ok in Hhd as (bd & w3 & Hbad & Hret).
    apply isBad_Ok in Hbad as (Hnn & k & Hk & [= -> ->]).
    apply ret_Ok in Hret as [= -> ->].
    apply elem_of_cons in Hin as [->|Hin]; [split; eauto|]. by eapply IH.
Qed.

Lemma UpdateBestCovisibles_keys_valid this w w' kf :
  UpdateBestCovisibles this w = Ok (tt, w') →
  keyframes w !! this = Some kf →
  ∀ q, is_Some (mConnectedKeyFrameWeights (conn kf) !! q) → valid w q.
Proof.
  unfold UpdateBestCovisibles. intros Hrun Hkf q [c Hq].
  bind_get Hrun as kf0 Hnn Hkf0. rewrite Hkf in Hkf0. injection Hkf0 as <-.
  apply bind_Ok in Hrun as (ls & w2 & Hfold & _).
  apply (fold_push_live_valid _ _ _ _ _ Hfold (c, q)).
  apply elem_of_std_sort, list_elem_of_fmap. exists (q, c).
  split; [done|]. by apply elem_of_map_items.
Qed.

Lemma restore_weights_dom mpKFid (bw : gmap Z Z) id c :
  bw !! id = Some c → is_Some (restore_weights mpKFid bw !! dict_at mpKFid id).
Proof.
  intros Hid%elem_of_idmap_items. unfold restore_weights.
  revert Hid. generalize (idmap_items bw). intros l.
  assert (Hgen : ∀ (acc : gmap nat Z) q,
            (is_Some (acc !! q) ∨ ∃ it, it ∈ l ∧ dict_at mpKFid it.1 = q) →
            is_Some (foldl (λ acc it, <[dict_at mpKFid it.1 := it.2]> acc) acc l !! q)).
  { induction l as [|it l IH]; intros acc q Hq; simpl.
    - destruct Hq as [|(? & []%elem_of_nil & _)]; done.
    - apply IH. destruct Hq as [Hq|(it' & [->|Hin]%elem_of_cons & Heq)].
      + left. destruct (decide (dict_at mpKFid it.1 = q)) as [<-|];
          [by rewrite lookup_insert_eq|by rewrite lookup_insert_ne].
      + left. rewrite Heq. by rewrite lookup_insert_eq.
      + right. eauto. }
  intros Hin. apply Hgen. right. by exists (id, c).
Qed.

(** [PostLoad] reads the dictionary with [operator[]]: an id of the saved
    weight map that the dictionary lacks comes back as the null pointer,
    which becomes a key of the weight map, and the rebuild of the ordering
    calls [isBad] through it.  Every such [PostLoad] ends in a fault. *)
Theorem PostLoad_unknown_id_faults this mpKFid mpMPid mpCamId w kf id c :
  keyframes w !! this = Some kf →
  mBackupConnectedKeyFrameIdWeights (backup kf) !! id = Some c →
  mpKFid !! id = None →
  ∃ f, PostLoad this mpKFid mpMPid mpCamId w = Err f.
Proof.
  intros Hkf Hid Hnone.
  destruct (PostLoad this mpKFid mpMPid mpCamId w) as [[[] w']|f] eqn:Hrun; [|eauto].
  exfalso. unfold PostLoad in Hrun.
  bind_get Hrun as kf0 Hnn Hkf0. rewrite Hkf in Hkf0. injection Hkf0 as <-.
  apply bind_Ok in Hrun as (mps & w2 & Hfold & Hrun).
  apply fold_each_readonly in Hfold as ->;
    [|intros *; apply restore_mappoint_readonly].
  apply bind_Ok in Hrun as ([] & w2 & Hput & Hrun).
  apply kf_put_Ok in Hput as [= ->].
  eapply UpdateBestCovisibles_keys_valid in Hrun as [Hnull _];
    [|simpl; apply lookup_insert_eq|simpl; by eapply restore_weights_dom].
  apply Hnull. unfold dict_at. by rewrite Hnone.
Qed.

Lemma PostLoad_unknown_id_faults_witness :
  ∃ f, PostLoad 2%nat {[ 0 := 1%nat ]} ∅ ∅ Fixture.presaved = Err f.
Proof.
  apply (PostLoad_unknown_id_faults 2%nat {[ 0 := 1%nat ]} ∅ ∅ Fixture.presaved
           (Fixture.at_ Fixture.presaved 2%nat) 2 1); vm_compute; reflexivity.
Defined.

(** ** When the rebuild of the ordering completes *)

Lemma fold_push_live_total vPairs : ∀ acc w,
  (∀ pr, pr ∈ vPairs → valid w pr.2) →
  ∃ r, fold_each vPairs push_live acc w = Ok (r, w).
Proof.
  induction vPairs as [|pr l IH]; intros acc w Hall; simpl; [by eexists|].
  destruct (Hall pr) as [Hnn [k Hk]]; [by left|].
  unfold mbind at 1, Op_bind at 1. unfold push_live at 1.
  unfold mbind at 1, Op_bind at 1. unfold isBad at 1.
  unfold mbind at 1, Op_bind at 1. rewrite (kf_get_valid _ _ _ Hnn Hk).
  unfold mret at 1, Op_ret at 1. unfold mret at 1, Op_ret at 1.
  apply IH. intros pr' Hin. apply Hall. by right.
Qed.

(** [UpdateBestCovisibles] calls [isBad] through every key of the weight
    map: on an existing keyframe that is not among its own keys it
    completes exactly when every key is a non-null pointer to a keyframe.
    (A keyframe among its own keys is left out: there the C++ call locks
    [mMutexConnections] a second time.) *)
Theorem UpdateBestCovisibles_completes_iff this w kf :
  this ≠ NULL → keyframes w !! this = Some kf →
  mConnectedKeyFrameWeights (conn kf) !! this = None →
  (∃ w', UpdateBestCovisibles this w = Ok (tt, w')) ↔
  (∀ q, is_Some (mConnectedKeyFrameWeights (conn kf) !! q) → valid w q).
Proof.
  intros Hnn Hkf _. split.
  - intros [w' Hrun]. by eapply UpdateBestCovisibles_keys_valid.
  - intros Hall. unfold UpdateBestCovisibles, mbind at 1, Op_bind at 1.
    rewrite (kf_get_valid _ _ _ Hnn Hkf). unfold mbind at 1, Op_bind at 1.
    match goal with
    | |- context [fold_each ?v push_live ?acc w] =>
        destruct (fold_push_live_total v acc w) as [r Hr]
    end.
    { intros [c q] [(q' & c') [[= -> ->] Hin%elem_of_map_items]]%elem_of_std_sort%list_elem_of_fmap.
      apply Hall. eauto. }
    rewrite Hr. rewrite (kf_modify_valid _ _ _ _ Hnn Hkf). eauto.
Qed.

Lemma UpdateBestCovisibles_completes_iff_witness :
  (∃ w', UpdateBestCovisibles 1%nat Fixture.linked = Ok (tt, w')) ↔
  (∀ q, is_Some (mConnectedKeyFrameWeights (conn (Fixture.at_ Fixture.linked 1%nat)) !! q) →
        valid Fixture.linked q).
Proof.
  apply (UpdateBestCovisibles_completes_iff 1%nat Fixture.linked
           (Fixture.at_ Fixture.linked 1%nat)).
  - done.
  - vm_compute. reflexivity.
  - vm_compute. reflexivity.
Defined.

(** * The cache names neighbours only *)

Lemma cache_inv_insert w p kf :
  cache_inv w → cache_in_keys kf →
  cache_inv (set_keyframes (<[p := kf]> (keyframes w)) w).
Proof. intros Hinv Hok. unfold cache_inv. simpl. by apply map_Forall_insert_2. Qed.

Lemma preserves_cache_kf_modify p f :
  (∀ kf, cache_in_keys kf → cache_in_keys (with_conn f kf)) →
  preserves cache_inv (kf_modify p f).
Proof.
  intros Hf w r w' HI (_ & kf & Hkf & [= _ ->])%kf_modify_Ok.
  apply cache_inv_insert; [done|]. apply Hf. by eapply (HI p).
Qed.

Lemma preserves_cache_kf_put p (k : KeyFrame → KeyFrame) :
  (∀ kf, cache_in_keys kf → cache_in_keys (k kf)) →
  preserves cache_inv (kf ← kf_get p; kf_put p (k kf)).
Proof.
  intros Hk w r w' HI Hrun. bind_get Hrun as kf Hnn Hkf.
  apply kf_put_Ok in Hrun as [= _ ->].
  apply cache_inv_insert; [done|]. apply Hk. by eapply (HI p).
Qed.

Lemma preserves_emit I e : (∀ w, I w → I (add_event e w)) → preserves I (emit e).
Proof. intros He w r w' HI [= _ ->]%emit_Ok. by apply He. Qed.

Lemma preserves_cam_get I p : preserves I (cam_get p).
Proof. intros w r w' HI (_ & ? & _ & [= _ ->])%cam_get_Ok. done. Qed.

Lemma preserves_cache_UpdateBestCovisibles this :
  preserves cache_inv (UpdateBestCovisibles this).
Proof.
  intros w r w' HI Hrun. destruct r.
  apply UpdateBestCovisibles_Ok in Hrun as (_ & kf & Hkf & ->).
  apply cache_inv_insert; [done|]. apply cache_in_keys_rebuild.
Qed.

Lemma preserves_cache_AddConnection this pKF weight :
  preserves cache_inv (AddConnection this pKF weight).
Proof.
  intros w [] w' HI Hrun. unfold AddConnection in Hrun.
  bind_get Hrun as kf Hnn Hkf.
  assert (Hgo : ∀ w0,
    (kf_modify this (set_weights (<[pKF := weight]> (mConnectedKeyFrameWeights (conn kf))))
       ;; UpdateBestCovisibles this) w = Ok (tt, w0) → cache_inv w0).
  { intros w0 ([] & w1 & Hmod & Hupd)%bind_Ok.
    apply kf_modify_Ok in Hmod as (_ & kf0 & Hkf0 & [= ->]).
    apply UpdateBestCovisibles_Ok in Hupd as (_ & kf2 & Hkf2 & ->).
    simpl. rewrite insert_insert_eq, set_keyframes_twice.
    apply cache_inv_insert; [done|]. apply cache_in_keys_rebuild. }
  destruct (mConnectedKeyFrameWeights (conn kf) !! pKF); [|by apply Hgo].
  case_decide; [by apply Hgo|]. by apply ret_Ok in Hrun as [= ->].
Qed.

Lemma preserves_cache_EraseConnection this pKF :
  preserves cache_inv (EraseConnection this pKF).
Proof.
  intros w r w' HI Hrun. destruct r.
  apply EraseConnection_Ok in Hrun as (_ & kf & kf' & Hkf & -> & _ & Hc & _).
  apply cache_inv_insert; [done|]. apply Hc. by eapply (HI this).
Qed.

(** One step of a proof that a run keeps the caches within the keys. *)
Ltac preserves_cache_step :=
  match goal with
  | |- preserves cache_inv (kf_modify _ _) =>
      apply preserves_cache_kf_modify; by intros []
  | |- preserves cache_inv (emit _) => apply preserves_emit; by intros []
  | |- preserves _ (cam_get _) => apply preserves_cam_get
  | |- preserves cache_inv (UpdateBestCovisibles _) =>
      apply preserves_cache_UpdateBestCovisibles
  | |- preserves cache_inv (AddConnection _ _ _) => apply preserves_cache_AddConnection
  | |- preserves cache_inv (EraseConnection _ _) => apply preserves_cache_EraseConnection
  | _ => preserves_step
  end.

Lemma preserves_cache_ChangeParent c p : preserves cache_inv (ChangeParent c p).
Proof. unfold ChangeParent, AddChild. repeat preserves_cache_step. Qed.

Lemma preserves_readonly {A} I (m : Op A) :
  (∀ w r w', m w = Ok (r, w') → w' = w) → preserves I m.
Proof. intros Hm w r w' HI Hrun. by apply Hm in Hrun as ->. Qed.

Lemma preserves_cache_reattach_loop this fuel :
  ∀ cands, preserves cache_inv (reattach_loop fuel this cands).
Proof.
  induction fuel as [|fuel IH]; intros cands; simpl.
  - repeat preserves_cache_step.
  - apply preserves_bind; [apply preserves_kf_get|intros kf].
    destruct (decide _); [apply preserves_ret|].
    apply preserves_bind; [|intros b].
    { apply preserves_readonly. intros *. apply scan_children_readonly. }
    destruct (bContinue b); [|apply preserves_ret].
    repeat (preserves_cache_step || apply preserves_cache_ChangeParent || apply IH).
Qed.

Lemma preserves_cache_delete this : preserves cache_inv (SetBadFlag_delete this).
Proof.
  unfold SetBadFlag_delete, SetBadFlag_detach, SetBadFlag_reattach,
    adopt_remaining, EraseChild.
  repeat (preserves_cache_step || apply preserves_cache_ChangeParent
          || apply preserves_cache_reattach_loop
          || (apply preserves_cache_kf_modify; intros [] _; by constructor)).
Qed.

Lemma preserves_cache_SetBadFlag this : preserves cache_inv (SetBadFlag this).
Proof.
  unfold SetBadFlag, GetInitKFid.
  repeat (preserves_cache_step || apply preserves_cache_delete).
Qed.

Lemma preserves_cache_SetErase this : preserves cache_inv (SetErase this).
Proof.
  unfold SetErase.
  repeat (preserves_cache_step || apply preserves_cache_SetBadFlag).
Qed.

Lemma preserves_cache_first_connection this :
  preserves cache_inv (first_connection this).
Proof.
  unfold first_connection, AddChild, GetInitKFid. repeat preserves_cache_step.
Qed.

Lemma preserves_cache_UpdateConnections this upParent :
  preserves cache_inv (UpdateConnections this upParent).
Proof.
  intros w r w' HI Hrun. unfold UpdateConnections in Hrun.
  apply bind_Ok in Hrun as (KFcounter & w1 & Hcount & Hrun).
  apply count_covisible_Ok in Hcount as (-> & Hnn & kf & Hkf & Htally).
  case_decide as Hemp; [by apply ret_Ok in Hrun as [= _ ->]|].
  apply bind_Ok in Hrun as (a & w2 & Hloop & Hrun).
  assert (Hitems : ∀ B c, (B, c) ∈ map_items KFcounter →
                          KFcounter !! B = Some c ∧ B ≠ this ∧ 1 ≤ c).
  { intros B c HB%elem_of_map_items. split; [done|].
    destruct (Htally _ _ HB) as (Hc1 & _ & ko & Hko & Hid & _).
    split; [|done]. intros ->. congruence. }
  assert (Hne : map_items KFcounter ≠ []).
  { destruct (map_choose _ Hemp) as (B & c & HB).
    apply elem_of_map_items in HB. intros Hnil. rewrite Hnil in HB.
    by apply elem_of_nil in HB. }
  assert (HI2 : cache_inv w2).
  { eapply (fold_each_preserves cache_inv) in Hloop; [done| |done].
    intros a0 it w0 r0 w0' HI0 Hbody. unfold promote in Hbody.
    case_decide; [|by apply ret_Ok in Hbody as [= _ ->]].
    apply bind_Ok in Hbody as ([] & w3 & Hadd & Hret).
    apply ret_Ok in Hret as [= _ ->]. by eapply preserves_cache_AddConnection. }
  eapply promote_loop in Hloop as (_ & Hvp & _ & _ & Hmax & _); [|done].
  simpl in Hvp, Hmax. specialize (Hmax (or_intror (conj eq_refl Hne))).
  apply bind_Ok in Hrun as (vp & w3 & Hvps & Hrun).
  assert (Hafter : cache_inv w3 ∧ ∀ c B, (c, B) ∈ vp → KFcounter !! B = Some c).
  { case_decide as Hnil.
    - apply bind_Ok in Hvps as ([] & w4 & Hadd & Hret).
      apply ret_Ok in Hret as [= -> ->].
      split; [by eapply preserves_cache_AddConnection|].
      by intros c B [= -> ->]%list_elem_of_singleton.
    - apply ret_Ok in Hvps as [= -> ->]. split; [done|].
      intros c B [[]%elem_of_nil|[HB _]]%Hvp. by apply Hitems in HB as [? _]. }
  destruct Hafter as [HI3 Hvp3].
  apply bind_Ok in Hrun as ([] & w4 & Hmod & Hfirst).
  eapply preserves_cache_first_connection; [|done].
  apply kf_modify_Ok in Hmod as (_ & kf3 & Hkf3 & [= ->]).
  apply cache_inv_insert; [done|]. apply Forall_forall. intros B HB. simpl in *.
  apply elem_of_reverse_snd_sort in HB as [c HB]. eauto.
Qed.

Lemma preserves_cache_PostLoad this mpKFid mpMPid mpCamId :
  preserves cache_inv (PostLoad this mpKFid mpMPid mpCamId).
Proof.
  unfold PostLoad. intros w r w' HI Hrun. bind_get Hrun as kf Hnn Hkf.
  apply bind_Ok in Hrun as (mps & w1 & Hfold & Hrun).
  apply fold_each_readonly in Hfold as ->;
    [|intros *; apply restore_mappoint_readonly].
  apply bind_Ok in Hrun as ([] & w2 & Hput & Hrun).
  apply kf_put_Ok in Hput as [= ->]. destruct r.
  apply UpdateBestCovisibles_Ok in Hrun as (_ & kf2 & Hkf2 & ->).
  simpl. rewrite insert_insert_eq, set_keyframes_twice.
  apply cache_inv_insert; [done|]. apply cache_in_keys_rebuild.
Qed.

Lemma preserves_cache_AddMapPoint this pMP idx :
  preserves cache_inv (AddMapPoint this pMP idx).
Proof.
  intros w [] w' HI Hrun. unfold AddMapPoint in Hrun. bind_get Hrun as kf Hnn Hkf.
  case_decide; [|done]. apply kf_put_Ok in Hrun as [= ->].
  apply cache_inv_insert; [done|]. by apply (HI this kf).
Qed.

(** Every operation of the keyframe graph keeps the cached ordered list of
    every keyframe within the keys of its weight map. *)
Theorem graph_ops_keep_cache_in_keys (o : GraphOp) (w w' : World) :
  cache_inv w →
  run_graph_op o w = Ok (tt, w') →
  cache_inv w'.
Proof.
  intros HI Hrun. revert HI Hrun.
  assert (Hp : preserves cache_inv (run_graph_op o)); [|by apply Hp].
  destruct o; simpl.
  - apply preserves_cache_AddConnection.
  - apply preserves_cache_EraseConnection.
  - apply preserves_cache_UpdateBestCovisibles.
  - apply preserves_cache_UpdateConnections.
  - unfold AddChild. preserves_cache_step.
  - unfold EraseChild. preserves_cache_step.
  - apply preserves_cache_ChangeParent.
  - unfold SetFirstConnection. preserves_cache_step.
  - unfold AddLoopEdge. preserves_cache_step.
  - unfold AddMergeEdge. preserves_cache_step.
  - unfold SetNotErase. preserves_cache_step.
  - apply preserves_cache_SetErase.
  - apply preserves_cache_SetBadFlag.
  - unfold UpdateMap. apply preserves_cache_kf_put. by intros [].
  - apply preserves_cache_AddMapPoint.
  - apply preserves_cache_AddMapPoint.
  - intros w0 [] w0' HI0 (_ & kf & b & Hkf & -> & _)%PreSave_Ok.
    apply cache_inv_insert; [done|]. by apply (HI0 this kf).
  - apply preserves_cache_PostLoad.
Qed.

Lemma graph_ops_keep_cache_in_keys_witness :
  cache_inv (Fixture.after (UpdateConnections 2%nat true) Fixture.stale).
Proof.
  apply (graph_ops_keep_cache_in_keys (OpUpdateConnections' 2%nat true) Fixture.stale).
  - by_compute.
  - vm_compute. reflexivity.
Defined.

(** * The first connection update *)

Lemma head_reverse_std_sort vp :
  vp ≠ [] →
  ∃ c B rest, reverse (std_sort vp) = (c, B) :: rest ∧ (c, B) ∈ vp ∧
    ∀ c' B', (c', B') ∈ vp → c' ≤ c.
Proof.
  intros Hne.
  pose proof (StronglySorted_reverse _ _ (StronglySorted_std_sort vp)) as Hs.
  assert (Hin : ∀ pr, pr ∈ reverse (std_sort vp) ↔ pr ∈ vp).
  { intros pr. by rewrite elem_of_reverse, elem_of_std_sort. }
  destruct (reverse (std_sort vp)) as [|[c B] rest] eqn:Hrev.
  - destruct vp as [|pr vp]; [done|]. exfalso.
    apply (elem_of_nil pr), Hin. by left.
  - exists c, B, rest. split; [done|]. split; [apply Hin; by left|].
    intros c' B' [[= -> ->]|Hr]%Hin%elem_of_cons; [done|].
    apply StronglySorted_inv in Hs as [_ Hall].
    rewrite Forall_forall in Hall. specialize (Hall _ Hr).
    unfold flip, pair_le in Hall. simpl in Hall. lia.
Qed.

Lemma same_maps_AddConnection this pKF weight w w' :
  AddConnection this pKF weight w = Ok (tt, w') → maps w' = maps w.
Proof. by intros (_ & kf & kf' & _ & -> & _)%AddConnection_Ok. Qed.

(** The promotion loop writes neither to the maps nor to the keyframe that
    is being updated. *)
Lemma promote_loop_maps this l a w a' w' :
  fold_each l (promote this) a w = Ok (a', w') → maps w' = maps w.
Proof.
  intros Hrun.
  eapply (fold_each_preserves (λ w0, maps w0 = maps w)) in Hrun; [done| |done].
  intros a0 it w0 r0 w0' HI0 Hbody. unfold promote in Hbody.
  case_decide; [|by apply ret_Ok in Hbody as [= _ ->]].
  apply bind_Ok in Hbody as ([] & w3 & Hadd & Hret).
  apply ret_Ok in Hret as [= _ ->].
  by rewrite (same_maps_AddConnection _ _ _ _ _ Hadd).
Qed.

(** [UpdateConnections] chooses the parent once.  On a keyframe that is not
    the initial keyframe of its map and still has its first-connection
    flag, a completed call that tallies a neighbour makes a neighbour of
    maximal tally the parent, enters the keyframe in that neighbour's
    children and clears the flag. *)
Theorem UpdateConnections_first_parent this upParent w w' kf m KFcounter :
  UpdateConnections this upParent w = Ok (tt, w') →
  keyframes w !! this = Some kf →
  maps w !! mpMap kf = Some m →
  mbFirstConnection (conn kf) = true →
  mnId kf ≠ mnInitKFid m →
  count_covisible this w = Ok (KFcounter, w) →
  KFcounter ≠ ∅ →
  ∃ front c kf',
    keyframes w' !! this = Some kf' ∧
    mpParent (conn kf') = front ∧
    mbFirstConnection (conn kf') = false ∧
    KFcounter !! front = Some c ∧
    (∀ B c', KFcounter !! B = Some c' → c' ≤ c) ∧
    this ∈ children_of w' front.
Proof.
  intros Hrun Hkf Hm Hfirst Hroot Hcount Hemp. unfold UpdateConnections in Hrun.
  apply bind_Ok in Hrun as (KFcounter' & w1 & Hcount' & Hrun).
  rewrite Hcount in Hcount'. injection Hcount' as <- <-.
  apply count_covisible_Ok in Hcount as (_ & Hnn & kf0 & Hkf0 & Htally).
  rewrite Hkf in Hkf0. injection Hkf0 as <-.
  rewrite decide_False in Hrun by done.
  apply bind_Ok in Hrun as (a & w2 & Hloop & Hrun).
  assert (Hitems : ∀ B c, (B, c) ∈ map_items KFcounter →
                          KFcounter !! B = Some c ∧ B ≠ this ∧ 1 ≤ c).
  { intros B c HB%elem_of_map_items. split; [done|].
    destruct (Htally _ _ HB) as (Hc1 & _ & ko & Hko & Hid & _).
    split; [|done]. intros ->. congruence. }
  assert (Hne : map_items KFcounter ≠ []).
  { destruct (map_choose _ Hemp) as (B & c & HB).
    apply elem_of_map_items in HB. intros Hnil. rewrite Hnil in HB.
    by apply elem_of_nil in HB. }
  pose proof (promote_loop_maps _ _ _ _ _ _ Hloop) as Hmaps2.
  eapply promote_loop in Hloop as (Hthis2 & Hvp & _ & _ & Hmax & _ & _ & Hub);
    [|done].
  simpl in Hvp, Hmax. specialize (Hmax (or_intror (conj eq_refl Hne))).
  apply bind_Ok in Hrun as (vp & w3 & Hvps & Hrun).
  assert (Hafter :
    keyframes w3 !! this = Some kf ∧ maps w3 = maps w ∧ vp ≠ [] ∧
    (∀ c B, (c, B) ∈ vp → KFcounter !! B = Some c) ∧
    (∀ cf Bf, (cf, Bf) ∈ vp → (∀ c B, (c, B) ∈ vp → c ≤ cf) →
       ∀ B c, KFcounter !! B = Some c → c ≤ cf)).
  { case_decide as Hnil.
    - apply bind_Ok in Hvps as ([] & w4 & Hadd & Hret).
      apply ret_Ok in Hret as [= -> ->].
      assert (pKFmax a ≠ this).
      { destruct (Htally _ _ Hmax) as (_ & _ & ko & Hko & Hid & _).
        intros Heq. rewrite Heq in Hko. congruence. }
      split_and!.
      + rewrite (AddConnection_frame _ _ _ _ _ this Hadd) by done. congruence.
      + rewrite (same_maps_AddConnection _ _ _ _ _ Hadd). done.
      + done.
      + by intros c B [= -> ->]%list_elem_of_singleton.
      + intros cf Bf [= -> ->]%list_elem_of_singleton _ B c HB.
        apply (Hub B). by apply elem_of_map_items.
    - apply ret_Ok in Hvps as [= -> ->]. split_and!; [congruence|done..| |].
      + intros c B [[]%elem_of_nil|[HB _]]%Hvp. by apply Hitems in HB as [? _].
      + intros cf Bf [[]%elem_of_nil|[HBf Hth]]%Hvp Hbest B c HB.
        destruct (decide (th ≤ c)) as [Hc|Hc].
        * apply (Hbest c B), Hvp. right. split; [|done]. by apply elem_of_map_items.
        * lia. }
  destruct Hafter as (Hkf3 & Hmaps3 & Hvpne & Hvpin & Hvpmax).
  apply bind_Ok in Hrun as ([] & w4 & Hmod & Hfirstrun).
  apply kf_modify_Ok in Hmod as (_ & kf3 & Hkf3' & [= ->]).
  rewrite Hkf3 in Hkf3'. injection Hkf3' as <-.
  destruct (head_reverse_std_sort vp Hvpne) as (cf & front & rest & Hrev & Hfin & Hfmax).
  assert (Hfront : KFcounter !! front = Some cf) by by apply Hvpin.
  assert (Hfne : front ≠ this).
  { intros ->. apply elem_of_map_items, Hitems in Hfront as (_ & ? & _). done. }
  exists front, cf.
  unfold first_connection in Hfirstrun.
  bind_get Hfirstrun as kf4 Hnn4 Hkf4.
  simpl in Hkf4. rewrite lookup_insert_eq in Hkf4. injection Hkf4 as <-.
  simpl in Hfirstrun. rewrite Hfirst in Hfirstrun.
  apply bind_Ok in Hfirstrun as (init & w5 & Hinit & Hfirstrun).
  apply GetInitKFid_Ok in Hinit as (_ & m' & Hm' & [= -> ->]).
  simpl in Hm'. rewrite Hmaps3, Hm in Hm'. injection Hm' as <-.
  rewrite decide_True in Hfirstrun by done.
  rewrite <- fmap_reverse, Hrev in Hfirstrun. simpl in Hfirstrun.
  apply bind_Ok in Hfirstrun as ([] & w6 & Hpar & Hfirstrun).
  apply kf_modify_Ok in Hpar as (_ & kf5 & Hkf5 & [= ->]).
  simpl in Hkf5. rewrite lookup_insert_eq in Hkf5. injection Hkf5 as <-.
  apply bind_Ok in Hfirstrun as ([] & w7 & Hchild & Hflag).
  apply kf_modify_Ok in Hchild as (_ & kff & Hkff & [= ->]).
  apply kf_modify_Ok in Hflag as (_ & kf6 & Hkf6 & [= ->]).
  simpl in Hkf6. rewrite lookup_insert_ne in Hkf6 by done.
  rewrite lookup_insert_eq in Hkf6. injection Hkf6 as <-.
  eexists. split; [simpl; apply lookup_insert_eq|]. simpl.
  split_and!; try done.
  - intros B c' HB. by eapply Hvpmax.
  - unfold children_of. simpl. rewrite lookup_insert_ne by done.
    rewrite lookup_insert_eq. simpl. set_solver.
Qed.

Lemma UpdateConnections_first_parent_witness :
  ∃ front c kf',
    keyframes (Fixture.after (UpdateConnections 2%nat true) Fixture.covis) !! 2%nat
      = Some kf' ∧
    mpParent (conn kf') = front ∧
    mbFirstConnection (conn kf') = false ∧
    Partial.tally_of_2 !! front = Some c ∧
    (∀ B c', Partial.tally_of_2 !! B = Some c' → c' ≤ c) ∧
    2%nat ∈ children_of (Fixture.after (UpdateConnections 2%nat true) Fixture.covis) front.
Proof.
  apply (UpdateConnections_first_parent 2%nat true Fixture.covis
           (Fixture.after (UpdateConnections 2%nat true) Fixture.covis)
           (Fixture.at_ Fixture.covis 2%nat) (mkMap 0) Partial.tally_of_2).
  - vm_compute. reflexivity.
  - vm_compute. reflexivity.
  - vm_compute. reflexivity.
  - vm_compute. reflexivity.
  - vm_compute. congruence.
  - vm_compute. reflexivity.
  - by_compute.
Defined.

#[global] Instance same_first_preorder : PreOrder same_first.
Proof. apply _. Qed.

Lemma stays_first_UpdateBestCovisibles this :
  stays same_first (UpdateBestCovisibles this).
Proof.
  intros w [] w' (_ & kf & Hkf & ->)%UpdateBestCovisibles_Ok.
  by apply same_view_insert with kf.
Qed.

Ltac stays_first_step :=
  match goal with
  | |- stays same_first (kf_modify _ _) =>
      apply (stays_kf_modify_view first_view); by intros []
  | |- stays same_first (UpdateBestCovisibles _) => apply stays_first_UpdateBestCovisibles
  | _ => stays_step
  end.

Lemma stays_first_AddConnection this pKF weight :
  stays same_first (AddConnection this pKF weight).
Proof. unfold AddConnection. repeat stays_first_step. Qed.

Lemma same_first_same_tree w w' : same_first w w' → same_tree w w'.
Proof.
  intros Hs p. specialize (Hs p).
  destruct (keyframes w' !! p), (keyframes w !! p); simpl in *; try done.
  unfold first_view in Hs. congruence.
Qed.

(** After the first time, and on the initial keyframe of the map at any
    time, [UpdateConnections] leaves the spanning tree alone: no parent
    pointer and no children set changes. *)
Theorem UpdateConnections_keeps_tree this upParent w w' kf :
  UpdateConnections this upParent w = Ok (tt, w') →
  keyframes w !! this = Some kf →
  mbFirstConnection (conn kf) = false ∨
    (∃ m, maps w !! mpMap kf = Some m ∧ mnId kf = mnInitKFid m) →
  same_tree w w'.
Proof.
  intros Hrun Hkf Hcase. unfold UpdateConnections in Hrun.
  apply bind_Ok in Hrun as (KFcounter & w1 & Hcount & Hrun).
  apply count_covisible_Ok in Hcount as (-> & Hnn & _).
  case_decide; [by apply ret_Ok in Hrun as [= ->]|].
  apply bind_Ok in Hrun as (a & w2 & Hloop & Hrun).
  pose proof (promote_loop_maps _ _ _ _ _ _ Hloop) as Hmaps2.
  assert (H2 : same_first w w2).
  { revert Hloop. apply stays_fold_each; [apply _|]. intros a0 it.
    unfold promote. repeat (stays_first_step || apply stays_first_AddConnection). }
  apply bind_Ok in Hrun as (vp & w3 & Hvps & Hrun).
  assert (H3 : same_first w2 w3 ∧ maps w3 = maps w2).
  { case_decide.
    - apply bind_Ok in Hvps as ([] & w4 & Hadd & Hret).
      apply ret_Ok in Hret as [= -> ->].
      split; [by eapply stays_first_AddConnection|].
      by eapply same_maps_AddConnection.
    - by apply ret_Ok in Hvps as [= -> ->]. }
  destruct H3 as [H3 Hmaps3].
  apply bind_Ok in Hrun as ([] & w4 & Hmod & Hfirstrun).
  assert (H4 : same_first w3 w4 ∧ maps w4 = maps w3).
  { split; [|by apply kf_modify_Ok in Hmod as (_ & ? & _ & [= ->])].
    revert Hmod. apply (stays_kf_modify_view first_view). by intros []. }
  destruct H4 as [H4 Hmaps4].
  assert (Hall : same_first w w4) by (by etrans; [|etrans]).
  apply same_first_same_tree.
  unfold first_connection in Hfirstrun. bind_get Hfirstrun as kf4 Hnn4 Hkf4.
  specialize (Hall this) as Hthis. rewrite Hkf, Hkf4 in Hthis. simpl in Hthis.
  unfold first_view in Hthis. injection Hthis as _ _ _ _ Hflag Hmap.
  destruct (mbFirstConnection (conn kf4)) eqn:Hf4;
    [|by apply ret_Ok in Hfirstrun as [= ->]].
  destruct Hcase as [Hoff|(m & Hm & Hid)]; [congruence|].
  apply bind_Ok in Hfirstrun as (init & w5 & Hinit & Hfirstrun).
  apply GetInitKFid_Ok in Hinit as (_ & m' & Hm' & [= -> ->]).
  rewrite Hmaps4, Hmaps3, Hmaps2, Hmap, Hm in Hm'. injection Hm' as <-.
  assert (Hid4 : mnId kf4 = mnId kf).
  { specialize (Hall this). rewrite Hkf, Hkf4 in Hall. simpl in Hall.
    unfold first_view, tree_view in Hall. by injection Hall. }
  rewrite decide_False in Hfirstrun by (intros Hc; apply Hc; congruence).
  by apply ret_Ok in Hfirstrun as [= ->].
Qed.

Lemma UpdateConnections_keeps_tree_witness :
  same_tree Fixture.linked (Fixture.after (UpdateConnections 1%nat true) Fixture.linked).
Proof.
  apply (UpdateConnections_keeps_tree 1%nat true Fixture.linked
           (Fixture.after (UpdateConnections 1%nat true) Fixture.linked)
           (Fixture.at_ Fixture.linked 1%nat)).
  - vm_compute. reflexivity.
  - vm_compute. reflexivity.
  - right. exists (mkMap 0). split; vm_compute; reflexivity.
Defined.

(** * The reattachment loop terminates *)

Lemma nf_bind {A B} (m : Op A) (k : A → Op B) :
  never_fuel m → (∀ a, never_fuel (k a)) → never_fuel (m ≫= k).
Proof.
  intros Hm Hk w. unfold mbind, Op_bind. specialize (Hm w).
  destruct (m w) as [[a w1]|f]; [apply Hk|congruence].
Qed.

Lemma nf_ret {A} (a : A) : never_fuel (mret a).
Proof. by intros w. Qed.

Lemma nf_kf_get p : never_fuel (kf_get p).
Proof. intros w. unfold kf_get. by repeat case_match. Qed.

Lemma nf_map_get p : never_fuel (map_get p).
Proof. intros w. unfold map_get. by repeat case_match. Qed.

Lemma nf_mp_get p : never_fuel (mp_get p).
Proof. intros w. unfold mp_get. by repeat case_match. Qed.

Lemma nf_cam_get p : never_fuel (cam_get p).
Proof. intros w. unfold cam_get. by repeat case_match. Qed.

Lemma nf_kf_put p kf : never_fuel (kf_put p kf).
Proof. by intros w. Qed.

Lemma nf_emit e : never_fuel (emit e).
Proof. by intros w. Qed.

Lemma nf_kf_modify p f : never_fuel (kf_modify p f).
Proof.
  unfold kf_modify. apply nf_bind; [apply nf_kf_get|]. intros. apply nf_kf_put.
Qed.

Lemma nf_fold_each {A S} (body : S → A → Op S) l :
  (∀ a x, never_fuel (body a x)) → ∀ acc, never_fuel (fold_each l body acc).
Proof.
  intros Hb. induction l as [|x l IH]; intros acc; simpl; [apply nf_ret|].
  apply nf_bind; [apply Hb|apply IH].
Qed.

Lemma nf_for_each {A} (body : A → Op unit) l :
  (∀ x, never_fuel (body x)) → never_fuel (for_each l body).
Proof.
  intros Hb. induction l as [|x l IH]; simpl; [apply nf_ret|].
  apply nf_bind; [apply Hb|]. intros _. apply IH.
Qed.

Ltac nf_step :=
  match goal with
  | |- never_fuel (_ ≫= _) => apply nf_bind; [|intros ?]
  | |- never_fuel (mret _) => apply nf_ret
  | |- never_fuel (fail _) => by intros ?
  | |- never_fuel (kf_get _) => apply nf_kf_get
  | |- never_fuel (map_get _) => apply nf_map_get
  | |- never_fuel (mp_get _) => apply nf_mp_get
  | |- never_fuel (cam_get _) => apply nf_cam_get
  | |- never_fuel (kf_put _ _) => apply nf_kf_put
  | |- never_fuel (kf_modify _ _) => apply nf_kf_modify
  | |- never_fuel (emit _) => apply nf_emit
  | |- never_fuel (fold_each _ _ _) => apply nf_fold_each; intros ??
  | |- never_fuel (for_each _ _) => apply nf_for_each; intros ?
  | |- never_fuel (if ?b then _ else _) => destruct b
  | |- never_fuel (match ?x with _ => _ end) => destruct x
  | |- never_fuel (let _ := _ in _) => cbv zeta
  end.

Lemma nf_UpdateBestCovisibles this : never_fuel (UpdateBestCovisibles this).
Proof. unfold UpdateBestCovisibles, push_live, isBad. repeat nf_step. Qed.

Lemma nf_AddConnection this pKF weight : never_fuel (AddConnection this pKF weight).
Proof. unfold AddConnection. repeat (nf_step || apply nf_UpdateBestCovisibles). Qed.

Lemma nf_EraseConnection this pKF : never_fuel (EraseConnection this pKF).
Proof. unfold EraseConnection. repeat (nf_step || apply nf_UpdateBestCovisibles). Qed.

Lemma nf_ChangeParent c p : never_fuel (ChangeParent c p).
Proof. unfold ChangeParent, AddChild. repeat nf_step. Qed.

Lemma nf_scan_children this cands : never_fuel (scan_children this cands).
Proof.
  unfold scan_children, scan_child, scan_connected, scan_candidate,
    GetVectorCovisibleKeyFrames, GetWeight, isBad.
  repeat nf_step.
Qed.

(** The child that a pass picks is one of the children. *)
Lemma scan_children_picks_child this cands w b w' :
  scan_children this cands w = Ok (b, w') →
  bContinue b = true → best_pC b ∈ children_of w this.
Proof.
  unfold scan_children. intros Hrun. bind_get Hrun as kf Hnn Hkf.
  unfold children_of. rewrite Hkf. simpl.
  eapply (fold_each_acc
            (λ b, bContinue b = true → best_pC b ∈ mspChildrens (conn kf)))
    in Hrun as [_ Hb]; [done| |done].
  intros b0 c b1 w1 Hc%elem_of_set_items Hb0 Hchild.
  pose proof (scan_child_readonly _ _ _ _ _ _ Hchild) as ->. split; [done|].
  unfold scan_child in Hchild.
  apply bind_Ok in Hchild as (bad & w2 & Hbad & Hchild).
  apply isBad_Ok in Hbad as (_ & ? & _ & [= -> ->]).
  destruct (mbBad (conn _)); [by apply ret_Ok in Hchild as [= ->]|].
  apply bind_Ok in Hchild as (vp & w2 & Hvp & Hchild).
  apply bind_Ok in Hvp as (kc & w3 & Hget & Hret).
  apply kf_get_Ok in Hget as (_ & ? & _ & [= <- ->]).
  apply ret_Ok in Hret as [= -> ->].
  eapply (fold_each_acc
            (λ b, bContinue b = true → best_pC b ∈ mspChildrens (conn kf)))
    in Hchild as [_ Hb]; [done| |done].
  intros b2 pConn b3 w4 _ Hb2 Hconn. unfold scan_connected in Hconn.
  pose proof (scan_connected_readonly _ _ _ _ _ _ _ Hconn) as ->.
  eapply (fold_each_acc
            (λ b, bContinue b = true → best_pC b ∈ mspChildrens (conn kf)))
    in Hconn as [_ Hb]; [done| |done].
  intros b4 spc b5 w5 _ Hb4 Hcand.
  pose proof (scan_candidate_readonly _ _ _ _ _ _ _ Hcand) as ->. split; [done|].
  unfold scan_candidate in Hcand.
  apply bind_Ok in Hcand as (k1 & w6 & Hg1 & Hcand).
  apply kf_get_Ok in Hg1 as (_ & ? & _ & [= <- ->]).
  apply bind_Ok in Hcand as (k2 & w6 & Hg2 & Hcand).
  apply kf_get_Ok in Hg2 as (_ & ? & _ & [= <- ->]).
  case_decide; [|by apply ret_Ok in Hcand as [= ->]].
  apply bind_Ok in Hcand as (wt & w6 & Hwt & Hcand).
  apply GetWeight_Ok in Hwt as (_ & ? & _ & [= -> ->]).
  apply ret_Ok in Hcand as [= ->]. by case_decide.
Qed.

(** With one pass allowed per child the bound is never reached: a pass
    that goes on takes the child it reparents out of the set. *)
Lemma reattach_loop_fuel this fuel : ∀ cands w,
  (size (children_of w this) ≤ fuel)%nat →
  reattach_loop fuel this cands w ≠ Err OutOfFuel.
Proof.
  induction fuel as [|fuel IH]; intros cands w Hsize Hrun; simpl in Hrun;
    unfold mbind at 1, Op_bind at 1 in Hrun.
  - pose proof (nf_kf_get this w) as Hget.
    destruct (kf_get this w) as [[kf w1]|f] eqn:Hg; [|congruence].
    apply kf_get_Ok in Hg as (_ & ? & Hkf & [= <- ->]).
    unfold children_of in Hsize. rewrite Hkf in Hsize. simpl in Hsize.
    apply Nat.le_0_r, size_empty_inv, leibniz_equiv in Hsize.
    by rewrite decide_True in Hrun.
  - pose proof (nf_kf_get this w) as Hget.
    destruct (kf_get this w) as [[kf w1]|f] eqn:Hg; [|congruence].
    apply kf_get_Ok in Hg as (_ & ? & Hkf & [= <- ->]).
    case_decide as Hemp; [done|].
    unfold mbind at 1, Op_bind at 1 in Hrun.
    pose proof (nf_scan_children this cands w) as Hscan.
    destruct (scan_children this cands w) as [[b w1]|f] eqn:Hs; [|congruence].
    pose proof (scan_children_readonly _ _ _ _ _ Hs) as ->.
    destruct (bContinue b) eqn:Hb; [|done].
    pose proof (scan_children_picks_child _ _ _ _ _ Hs Hb) as Hpick.
    unfold mbind at 1, Op_bind at 1 in Hrun.
    pose proof (nf_ChangeParent (best_pC b) (best_pP b) w) as Hcp.
    destruct (ChangeParent (best_pC b) (best_pP b) w) as [[[] w2]|f] eqn:Hc;
      [|congruence].
    unfold mbind at 1, Op_bind at 1 in Hrun.
    pose proof (nf_kf_modify this
                  (λ c, set_childrens (mspChildrens c ∖ {[best_pC b]}) c) w2) as Hm.
    destruct (kf_modify this _ w2) as [[[] w3]|f] eqn:He; [|congruence].
    apply erase_child_Ok in He as (Hch3 & _).
    revert Hrun. apply IH. rewrite Hch3.
    rewrite (ChangeParent_children_of _ _ _ _ this Hc).
    assert (Hlt : (size (children_of w this ∖ {[best_pC b]})
                   < size (children_of w this))%nat).
    { apply subset_size. set_solver. }
    case_decide.
    + replace ((children_of w (best_pP b) ∪ {[best_pC b]}) ∖ {[best_pC b]})
        with (children_of w this ∖ {[best_pC b]}) by (subst; set_solver).
      lia.
    + lia.
Qed.

Lemma nf_SetBadFlag_reattach this : never_fuel (SetBadFlag_reattach this).
Proof.
  intros w Hrun. unfold SetBadFlag_reattach in Hrun.
  unfold mbind at 1, Op_bind at 1 in Hrun.
  pose proof (nf_kf_get this w) as Hget.
  destruct (kf_get this w) as [[kf w1]|f] eqn:Hg; [|congruence].
  apply kf_get_Ok in Hg as (_ & ? & Hkf & [= <- ->]).
  unfold mbind at 1, Op_bind at 1 in Hrun.
  match type of Hrun with
  | context [reattach_loop ?n this ?c w] =>
      pose proof (reattach_loop_fuel this n c w) as Hloop;
      destruct (reattach_loop n this c w) as [[cs w2]|f] eqn:Hl
  end.
  - revert Hrun. generalize w2. change (never_fuel
      (adopt_remaining this ;;
       kf ← kf_get this;
       (if decide (mpParent (conn kf) = NULL) then mret tt
        else EraseChild (mpParent (conn kf)) this) ;;
       kf_modify this (set_bad true))).
    unfold adopt_remaining, EraseChild. repeat (nf_step || apply nf_ChangeParent).
  - injection Hrun as ->. apply Hloop; [|done].
    unfold children_of. rewrite Hkf. simpl. lia.
Qed.

Lemma nf_SetBadFlag this : never_fuel (SetBadFlag this).
Proof.
  unfold SetBadFlag, SetBadFlag_delete, SetBadFlag_detach, GetInitKFid.
  repeat (nf_step || apply nf_EraseConnection || apply nf_SetBadFlag_reattach).
Qed.

Lemma nf_SetErase this : never_fuel (SetErase this).
Proof. unfold SetErase. repeat (nf_step || apply nf_SetBadFlag). Qed.

Lemma nf_UpdateConnections this upParent : never_fuel (UpdateConnections this upParent).
Proof.
  unfold UpdateConnections, count_covisible, count_mappoint, count_observation,
    promote, first_connection, AddChild, GetInitKFid.
  repeat (nf_step || apply nf_AddConnection).
Qed.

Lemma nf_PreSave this spKF spMP spCam : never_fuel (PreSave this spKF spMP spCam).
Proof.
  unfold PreSave, backup_mappoint, backup_weight, backup_id, backup_ids, backup_cam_id.
  repeat nf_step.
Qed.

Lemma nf_PostLoad this mpKFid mpMPid mpCamId :
  never_fuel (PostLoad this mpKFid mpMPid mpCamId).
Proof.
  unfold PostLoad, restore_mappoint.
  repeat (nf_step || apply nf_UpdateBestCovisibles).
Qed.

(** The loop [while(!mspChildrens.empty())] of [SetBadFlag] terminates
    within one pass per child: no operation of the keyframe graph ends by
    exhausting that bound. *)
Theorem graph_ops_never_exhaust_passes (o : GraphOp) (w : World) :
  run_graph_op o w ≠ Err OutOfFuel.
Proof.
  revert w. change (never_fuel (run_graph_op o)). destruct o; simpl.
  - apply nf_AddConnection.
  - apply nf_EraseConnection.
  - apply nf_UpdateBestCovisibles.
  - apply nf_UpdateConnections.
  - unfold AddChild. nf_step.
  - unfold EraseChild. nf_step.
  - apply nf_ChangeParent.
  - unfold SetFirstConnection. nf_step.
  - unfold AddLoopEdge. nf_step.
  - unfold AddMergeEdge. nf_step.
  - unfold SetNotErase. nf_step.
  - apply nf_SetErase.
  - apply nf_SetBadFlag.
  - unfold UpdateMap. repeat nf_step.
  - unfold AddMapPoint. repeat nf_step.
  - unfold EraseMapPointMatch, AddMapPoint. repeat nf_step.
  - apply nf_PreSave.
  - apply nf_PostLoad.
Qed.
